(** * The load package executor of dlt: [dlt/load/load.py]

    A shallow embedding of the [Load] class: the lookup of a job's table
    ([get_load_table]), the spool worker ([w_spool_job], [spool_new_jobs]),
    the resume path ([retrieve_jobs]), the followup planner
    ([create_merge_job], [create_followup_jobs]), the poll pass
    ([complete_jobs]) and the driver ([complete_package],
    [load_single_package]).

    Python statements that read or write the load storage, talk to the
    destination client, update a metric or mutate the schema are threaded
    through a state-and-exception monad [M] over a [World].  Every call to a
    collaborator is also appended to a chronological [trace], so that
    statements about the order of calls can be made. *)

From Stdlib Require Import List String Bool Arith Lia.
Import ListNotations.
Local Open Scope string_scope.
Local Open Scope list_scope.

Set Implicit Arguments.

(** ** Job states *)

(** [TLoadJobState]: what [LoadJob.state()] answers. *)
Inductive TLoadJobState : Type :=
| running
| retry
| failed
| completed.

(** [TJobState]: the folder of the package a job file lives in. *)
Inductive TJobState : Type :=
| new_jobs
| started_jobs
| failed_jobs
| completed_jobs.

Definition TLoadJobState_eqb (a b : TLoadJobState) : bool :=
  match a, b with
  | running, running | retry, retry | failed, failed
  | completed, completed => true
  | _, _ => false
  end.

Definition TJobState_eqb (a b : TJobState) : bool :=
  match a, b with
  | new_jobs, new_jobs | started_jobs, started_jobs
  | failed_jobs, failed_jobs | completed_jobs, completed_jobs => true
  | _, _ => false
  end.

(** The label a [TLoadJobState] has on the per-state metrics. *)
Definition state_label (s : TLoadJobState) : string :=
  match s with
  | running => "running"
  | retry => "retry"
  | failed => "failed"
  | completed => "completed"
  end.

(** ** Job file names *)

(** Modelled from the spec: [LoadStorage.parse_job_file_name] is not part of
    the sources at hand.  A job file name
    [<table_name>.<file_id>.<retry_count>.<file_format>] is identified with
    its parsed components, so parsing is the identity. *)
Module ParsedLoadJobFileName.
Record t : Type := mk {
  table_name : string;
  file_id : string;
  retry_count : nat;
  file_format : string
}.

(** [job_id()] is [<table_name>.<file_id>]: the retry count is left out. *)
Definition job_id (p : t) : string :=
  table_name p ++ "." ++ file_id p.

Definition eqb (p q : t) : bool :=
  String.eqb (table_name p) (table_name q)
  && String.eqb (file_id p) (file_id q)
  && Nat.eqb (retry_count p) (retry_count q)
  && String.eqb (file_format p) (file_format q).

(** The name of the next attempt, as [retry_job] writes it. *)
Definition with_retry (p : t) : t :=
  mk (table_name p) (file_id p) (S (retry_count p)) (file_format p).
End ParsedLoadJobFileName.

Definition JobFile : Type := ParsedLoadJobFileName.t.

Definition parse_job_file_name (file_name : JobFile) : JobFile := file_name.

(** ** Tables of the schema *)

(** A [TTableSchema] dictionary, reduced to the keys the loader reads.  An
    absent key is [None]. *)
Module TTableSchema.
Record t : Type := mk {
  name : string;
  parent : option string;
  write_disposition : option string
}.

(** [table["write_disposition"] = w] *)
Definition set_write_disposition (w : string) (tb : t) : t :=
  mk (name tb) (parent tb) (Some w).
End TTableSchema.

Definition Table : Type := TTableSchema.t.

(** [schema.tables]: the tables in insertion order; a table is looked up by
    its name. *)
Definition TSchemaTables : Type := list Table.

(** ** Exceptions *)

Inductive exn : Type :=
| DestinationTerminalException (msg : string)
| DestinationTransientException (msg : string)
| TerminalValueError (msg : string)
| LoadClientUnsupportedFileFormats
    (file_format : string) (supported : list string) (file_path : JobFile)
| LoadClientUnsupportedWriteDisposition
    (table_name : string) (write_disposition : string) (file_path : JobFile)
| LoadJobUnknownTableException (table_name : string) (file_name : JobFile)
| LoadClientJobFailed (load_id : string) (job_id : string) (msg : string)
| KeyError (key : string)
| ValueError (msg : string)
| AssertionError
| RecursionError
| LoadPackageNotCompleted (load_id : string)
| OtherException (msg : string).

(** Modelled from the spec: the exception classes are declared outside the
    sources at hand.  The spec classifies the unsupported file format, the
    unsupported write disposition and the unknown table as terminal
    destination errors; [isinstance(e, DestinationTerminalException)]. *)
Definition is_DestinationTerminalException (e : exn) : bool :=
  match e with
  | DestinationTerminalException _
  | LoadClientUnsupportedFileFormats _ _ _
  | LoadClientUnsupportedWriteDisposition _ _ _
  | LoadJobUnknownTableException _ _ => true
  | _ => false
  end.

Definition is_TerminalValueError (e : exn) : bool :=
  match e with
  | TerminalValueError _ => true
  | _ => false
  end.

Definition is_LoadClientJobFailed (e : exn) : bool :=
  match e with
  | LoadClientJobFailed _ _ _ => true
  | _ => false
  end.

Definition is_KeyError (e : exn) : bool :=
  match e with
  | KeyError _ => true
  | _ => false
  end.

(** [pretty_format_exception()]: the text of the exception being handled. *)
Definition pretty_format_exception (e : exn) : string :=
  match e with
  | DestinationTerminalException m => "DestinationTerminalException: " ++ m
  | DestinationTransientException m => "DestinationTransientException: " ++ m
  | TerminalValueError m => "TerminalValueError: " ++ m
  | LoadClientUnsupportedFileFormats f _ _ =>
      "LoadClientUnsupportedFileFormats: " ++ f
  | LoadClientUnsupportedWriteDisposition t w _ =>
      "LoadClientUnsupportedWriteDisposition: " ++ t ++ " " ++ w
  | LoadJobUnknownTableException t _ => "LoadJobUnknownTableException: " ++ t
  | LoadClientJobFailed l j m =>
      "LoadClientJobFailed: " ++ l ++ " " ++ j ++ " " ++ m
  | KeyError k => "KeyError: " ++ k
  | ValueError m => "ValueError: " ++ m
  | AssertionError => "AssertionError"
  | RecursionError => "RecursionError"
  | LoadPackageNotCompleted l => "LoadPackageNotCompleted: " ++ l
  | OtherException m => "Exception: " ++ m
  end.

(** ** Runtime jobs *)

(** A [LoadJob] handle.  [state n] is what [state()] answers during the
    [n]-th pass of the poll loop; [is_followup_job] is
    [isinstance(job, FollowupJob)]. *)
Module LoadJob.
Record t : Type := mk {
  file_name : JobFile;
  state : nat -> TLoadJobState;
  exception : string;
  is_followup_job : bool
}.

Definition job_file_info (j : t) : JobFile :=
  parse_job_file_name (file_name j).

Definition job_id (j : t) : string :=
  ParsedLoadJobFileName.job_id (job_file_info j).
End LoadJob.

(** A [NewLoadJob]: a [LoadJob] together with the path of the file the
    planner wants to add to the package. *)
Module NewLoadJob.
Record t : Type := mk {
  job : LoadJob.t;
  new_file_path : JobFile
}.

Definition state (j : t) : nat -> TLoadJobState := LoadJob.state (job j).
End NewLoadJob.

(** [EmptyLoadJob.from_file_path(file_path, status, message)] *)
Definition EmptyLoadJob_from_file_path
    (file_path : JobFile) (status : TLoadJobState) (message : string)
  : LoadJob.t :=
  LoadJob.mk file_path (fun _ => status) message false.

(** ** The load storage *)

(** Modelled from the spec: the [LoadStorage] class is not part of the
    sources at hand.  The package is the list of its job files, each with the
    folder it lives in; a transition rewrites the folder of the file in
    place, so a file is in one folder at a time. *)
Module LoadJobInfo.
Record t : Type := mk {
  state : TJobState;
  job_file_info : JobFile;
  failed_message : option string
}.
End LoadJobInfo.

Definition TSchemaUpdate : Type := list string.

Module LoadStorage.
Record t : Type := mk {
  jobs : list LoadJobInfo.t;
  schema_update : option TSchemaUpdate;
  applied_update : option TSchemaUpdate;
  archived : option bool
}.

Definition with_jobs (js : list LoadJobInfo.t) (st : t) : t :=
  mk js (schema_update st) (applied_update st) (archived st).

Definition in_folder (folder : TJobState) (i : LoadJobInfo.t) : bool :=
  TJobState_eqb (LoadJobInfo.state i) folder.

Definition list_folder (folder : TJobState) (st : t) : list JobFile :=
  map LoadJobInfo.job_file_info (filter (in_folder folder) (jobs st)).

Definition list_new_jobs : t -> list JobFile := list_folder new_jobs.
Definition list_started_jobs : t -> list JobFile := list_folder started_jobs.
Definition list_failed_jobs : t -> list JobFile := list_folder failed_jobs.
Definition list_completed_jobs : t -> list JobFile :=
  list_folder completed_jobs.

(** Jobs of a table across all four folders. *)
Definition list_jobs_for_table (table_name : string) (st : t)
  : list LoadJobInfo.t :=
  filter
    (fun i =>
       String.eqb
         (ParsedLoadJobFileName.table_name (LoadJobInfo.job_file_info i))
         table_name)
    (jobs st).

(** The atomic rename of [file_name] from folder [src] to [target]. *)
Definition move (src : TJobState) (target : LoadJobInfo.t)
    (file_name : JobFile) (st : t) : t :=
  with_jobs
    (map
       (fun i =>
          if in_folder src i
             && ParsedLoadJobFileName.eqb (LoadJobInfo.job_file_info i)
                  file_name
          then target
          else i)
       (jobs st))
    st.

Definition start_job (file_name : JobFile) : t -> t :=
  move new_jobs (LoadJobInfo.mk started_jobs file_name None) file_name.

Definition fail_job (file_name : JobFile) (message : string) : t -> t :=
  move started_jobs (LoadJobInfo.mk failed_jobs file_name (Some message))
    file_name.

Definition retry_job (file_name : JobFile) : t -> t :=
  move started_jobs
    (LoadJobInfo.mk new_jobs (ParsedLoadJobFileName.with_retry file_name)
       None)
    file_name.

Definition complete_job (file_name : JobFile) : t -> t :=
  move started_jobs (LoadJobInfo.mk completed_jobs file_name None) file_name.

Definition add_new_job (file_path : JobFile) (job_state : TJobState)
    (st : t) : t :=
  with_jobs (jobs st ++ [LoadJobInfo.mk job_state file_path None]) st.

Definition commit_schema_update (applied : TSchemaUpdate) (st : t) : t :=
  mk (jobs st) None (Some applied) (archived st).

(** I3: a package can be archived as completed when nothing is left in
    [new_jobs] and [started_jobs]. *)
Definition archivable (st : t) : bool :=
  match list_new_jobs st, list_started_jobs st with
  | [], [] => true
  | _, _ => false
  end.

(** Archiving marks the package with [aborted].  The storage refuses, with
    [None], to archive as completed a package that is not archivable; the
    loader then sees the exception [LoadPackageNotCompleted]. *)
Definition complete_load_package (aborted : bool) (st : t) : option t :=
  if aborted || archivable st
  then Some (mk (jobs st) (schema_update st) (applied_update st)
               (Some aborted))
  else None.
End LoadStorage.

(** A final location, as [fail_job] and [complete_job] return it. *)
Definition TLocation : Type := (TJobState * JobFile)%type.

(** ** Calls to the collaborators *)

Inductive Event : Type :=
(* destination client *)
| EvInitializeStorage (staging : bool) (truncate_tables : list string)
| EvUpdateStorageSchema (staging : bool) (only_tables : list string)
| EvStartFileLoad (table : Table) (file_path : JobFile)
| EvRestoreFileLoad (file_path : JobFile)
| EvCreateMergeJob (table_chain : list Table)
| EvCompleteLoad (load_id : string)
(* load storage *)
| EvStartJob (file_name : JobFile)
| EvFailJob (file_name : JobFile) (message : string)
| EvRetryJob (file_name : JobFile)
| EvCompleteJob (file_name : JobFile)
| EvAddNewJob (file_path : JobFile) (job_state : TJobState)
| EvCommitSchemaUpdate (applied : TSchemaUpdate)
| EvCompleteLoadPackage (load_id : string) (aborted : bool)
(* metrics *)
| EvGaugeSetAll (value : nat)
| EvGaugeInc (label : string) (amount : nat)
| EvCounterInc (label : string) (amount : nat)
| EvObserveWait (final_location : option TLocation)
| EvLoadCounterInc
(* the second between two passes of the poll loop *)
| EvSleep.

(** ** The world and the monad *)

Record World : Type := mkWorld {
  storage : LoadStorage.t;
  tables : TSchemaTables;
  clock : nat;
  trace : list Event
}.

Inductive Result (A : Type) : Type :=
| Return (a : A)
| Raise (e : exn)
| Diverge.

Arguments Return {A} a.
Arguments Raise {A} e.
Arguments Diverge {A}.

Definition M (A : Type) : Type := World -> Result A * World.

Definition ret {A} (a : A) : M A := fun w => (Return a, w).

Definition raise {A} (e : exn) : M A := fun w => (Raise e, w).

Definition bind {A B} (c : M A) (k : A -> M B) : M B :=
  fun w =>
    match c w with
    | (Return a, w') => k a w'
    | (Raise e, w') => (Raise e, w')
    | (Diverge, w') => (Diverge, w')
    end.

(** [try: c except Exception as e: h e]; what the state was changed to
    before the exception stays changed. *)
Definition try_except {A} (c : M A) (h : exn -> M A) : M A :=
  fun w =>
    match c w with
    | (Raise e, w') => h e w'
    | r => r
    end.

Notation "x <- c ;; k" := (bind c (fun x => k))
  (at level 61, c at next level, right associativity).
Notation "c ;; k" := (bind c (fun _ => k))
  (at level 61, right associativity).

Definition get_storage : M LoadStorage.t := fun w => (Return (storage w), w).

Definition get_tables : M TSchemaTables := fun w => (Return (tables w), w).

Definition put_tables (ts : TSchemaTables) : M unit :=
  fun w => (Return tt, mkWorld (storage w) ts (clock w) (trace w)).

Definition get_clock : M nat := fun w => (Return (clock w), w).

(** What a call does to the load storage. *)
Definition effect (e : Event) (st : LoadStorage.t) : LoadStorage.t :=
  match e with
  | EvStartJob f => LoadStorage.start_job f st
  | EvFailJob f message => LoadStorage.fail_job f message st
  | EvRetryJob f => LoadStorage.retry_job f st
  | EvCompleteJob f => LoadStorage.complete_job f st
  | EvAddNewJob f folder => LoadStorage.add_new_job f folder st
  | EvCommitSchemaUpdate applied =>
      LoadStorage.commit_schema_update applied st
  | EvCompleteLoadPackage _ aborted =>
      match LoadStorage.complete_load_package aborted st with
      | Some st' => st'
      | None => st
      end
  | _ => st
  end.

(** What a call does to the clock of the poll loop. *)
Definition tick (e : Event) (now : nat) : nat :=
  match e with
  | EvSleep => S now
  | _ => now
  end.

(** A call to a collaborator: it is recorded and takes effect. *)
Definition act (e : Event) : M unit :=
  fun w =>
    (Return tt,
     mkWorld (effect e (storage w)) (tables w) (tick e (clock w))
       (trace w ++ [e])).

(** [sleep(1)]: the next pass reads the jobs one tick later. *)
Definition sleep : M unit := act EvSleep.

(** A Python [for] loop collecting one result per element. *)
Fixpoint mapM {A B} (f : A -> M B) (l : list A) : M (list B) :=
  match l with
  | [] => ret []
  | a :: l' => b <- f a ;; bs <- mapM f l' ;; ret (b :: bs)
  end.

Definition of_sum {A} (r : exn + A) : M A :=
  match r with
  | inl e => raise e
  | inr a => ret a
  end.

(** ** Lookups in the schema *)

(** [schema.get_table(table_name)] and [tables[table_name]]: the table
    object stored under the name; [None] stands for the [KeyError]. *)
Definition get_table (ts : TSchemaTables) (table_name : string)
  : option Table :=
  find (fun tb => String.eqb (TTableSchema.name tb) table_name) ts.

(** The in-place assignment [table["write_disposition"] = w] on the table
    object that [get_table] hands out: the schema holds that same object. *)
Fixpoint store_write_disposition (table_name : string) (w : string)
    (ts : TSchemaTables) : TSchemaTables :=
  match ts with
  | [] => []
  | tb :: rest =>
      if String.eqb (TTableSchema.name tb) table_name
      then TTableSchema.set_write_disposition w tb :: rest
      else tb :: store_write_disposition table_name w rest
  end.

(** Modelled from the spec: [get_write_disposition] of
    [dlt.common.schema.utils] is not part of the sources at hand.  The
    write disposition of a table is its own when it has one, else the one
    inherited from its parent table.  The recursion follows the parent links;
    running out of [fuel] is Python's [RecursionError]. *)
Fixpoint get_write_disposition_rec (fuel : nat) (ts : TSchemaTables)
    (table_name : string) : exn + string :=
  match fuel with
  | 0 => inl RecursionError
  | S fuel' =>
      match get_table ts table_name with
      | None => inl (KeyError table_name)
      | Some tb =>
          match TTableSchema.write_disposition tb with
          | Some w => inr w
          | None =>
              match TTableSchema.parent tb with
              | Some p => get_write_disposition_rec fuel' ts p
              | None => inl (ValueError "No write disposition found")
              end
          end
      end
  end.

Definition get_write_disposition (ts : TSchemaTables) (table_name : string)
  : exn + string :=
  get_write_disposition_rec (S (List.length ts)) ts table_name.

(** Modelled from the spec: [get_top_level_table] of
    [dlt.common.schema.utils] is not part of the sources at hand.  It climbs
    the parent links to the table that has no parent. *)
Fixpoint get_top_level_table_rec (fuel : nat) (ts : TSchemaTables)
    (table_name : string) : exn + Table :=
  match fuel with
  | 0 => inl RecursionError
  | S fuel' =>
      match get_table ts table_name with
      | None => inl (KeyError table_name)
      | Some tb =>
          match TTableSchema.parent tb with
          | Some p => get_top_level_table_rec fuel' ts p
          | None => inr tb
          end
      end
  end.

Definition get_top_level_table (ts : TSchemaTables) (table_name : string)
  : exn + Table :=
  get_top_level_table_rec (S (List.length ts)) ts table_name.

Definition is_child_of (parent_name : string) (tb : Table) : bool :=
  match TTableSchema.parent tb with
  | Some p => String.eqb p parent_name
  | None => false
  end.

(** The first error of a list of results, else all results in a row. *)
Fixpoint concat_results {A} (l : list (exn + list A)) : exn + list A :=
  match l with
  | [] => inr []
  | inl e :: _ => inl e
  | inr x :: rest =>
      match concat_results rest with
      | inl e => inl e
      | inr xs => inr (x ++ xs)
      end
  end.

(** Modelled from the spec: [get_child_tables] of [dlt.common.schema.utils]
    is not part of the sources at hand.  It lists a table and all its
    descendants, every parent before its children. *)
Fixpoint get_child_tables_rec (fuel : nat) (ts : TSchemaTables) (tb : Table)
  : exn + list Table :=
  match fuel with
  | 0 => inl RecursionError
  | S fuel' =>
      match
        concat_results
          (map (get_child_tables_rec fuel' ts)
             (filter (is_child_of (TTableSchema.name tb)) ts))
      with
      | inl e => inl e
      | inr chain => inr (tb :: chain)
      end
  end.

Definition get_child_tables (ts : TSchemaTables) (table_name : string)
  : exn + list Table :=
  match get_table ts table_name with
  | None => inl (KeyError table_name)
  | Some tb => get_child_tables_rec (S (List.length ts)) ts tb
  end.

(** [schema.dlt_tables()]: the tables of the framework itself. *)
Definition dlt_tables (ts : TSchemaTables) : list Table :=
  filter (fun tb => String.prefix "_dlt" (TTableSchema.name tb)) ts.

(** [table["write_disposition"]] *)
Definition table_write_disposition (tb : Table) : M string :=
  match TTableSchema.write_disposition tb with
  | Some w => ret w
  | None => raise (KeyError "write_disposition")
  end.

(** ** The loader *)

Record LoaderConfiguration : Type := mkLoaderConfiguration {
  workers : nat;
  raise_on_failed_jobs : bool
}.

(** The destination client, as far as the loader calls it.  What a call
    answers is the client's business; calls are recorded in the trace. *)
Record JobClientBase : Type := mkJobClientBase {
  start_file_load : Table -> JobFile -> exn + LoadJob.t;
  restore_file_load : JobFile -> exn + LoadJob.t;
  client_create_merge_job : list Table -> NewLoadJob.t;
  update_storage_schema :
    bool -> list string -> TSchemaUpdate -> TSchemaUpdate
}.

Record Load : Type := mkLoad {
  config : LoaderConfiguration;
  supported_loader_file_formats : list string;
  destination : JobClientBase
}.

Definition string_in (s : string) (l : list string) : bool :=
  existsb (String.eqb s) l.

(** [Load.get_load_table(schema, file_name)]; the schema is the one of the
    world. *)
Definition get_load_table (file_name : JobFile) : M Table :=
  let table_name :=
    ParsedLoadJobFileName.table_name (parse_job_file_name file_name) in
  try_except
    (ts <- get_tables ;;
     match get_table ts table_name with
     | None => raise (KeyError table_name)
     | Some table =>
         match TTableSchema.write_disposition table with
         | None =>
             w <- of_sum (get_write_disposition ts table_name) ;;
             put_tables (store_write_disposition table_name w ts) ;;
             ret (TTableSchema.set_write_disposition w table)
         | Some _ => ret table
         end
     end)
    (fun e =>
       if is_KeyError e
       then raise (LoadJobUnknownTableException table_name file_name)
       else raise e).

(** The body of the [try] statement of [w_spool_job]. *)
Definition w_spool_job_try (self : Load) (file_path : JobFile)
  : M LoadJob.t :=
  let job_info := parse_job_file_name file_path in
  if negb (string_in (ParsedLoadJobFileName.file_format job_info)
             (supported_loader_file_formats self))
  then raise (LoadClientUnsupportedFileFormats
                (ParsedLoadJobFileName.file_format job_info)
                (supported_loader_file_formats self) file_path)
  else
    table <- get_load_table file_path ;;
    w <- table_write_disposition table ;;
    if negb (string_in w ["append"; "replace"; "merge"])
    then raise (LoadClientUnsupportedWriteDisposition
                  (ParsedLoadJobFileName.table_name job_info) w file_path)
    else
      act (EvStartFileLoad table file_path) ;;
      of_sum (start_file_load (destination self) table file_path).

(** [Load.w_spool_job(self, file_path, load_id, schema)] *)
Definition w_spool_job (self : Load) (file_path : JobFile)
    (load_id : string) : M (option LoadJob.t) :=
  job <-
    try_except
      (job <- w_spool_job_try self file_path ;; ret (Some job))
      (fun e =>
         if is_DestinationTerminalException e || is_TerminalValueError e
         then ret (Some (EmptyLoadJob_from_file_path file_path failed
                           (pretty_format_exception e)))
         else ret None) ;;
  match job with
  | None => ret None
  | Some job =>
      act (EvStartJob (LoadJob.file_name job)) ;;
      ret (Some job)
  end.

Fixpoint remove_None {A} (l : list (option A)) : list A :=
  match l with
  | [] => []
  | Some a :: rest => a :: remove_None rest
  | None :: rest => remove_None rest
  end.

(** [Load.spool_new_jobs(self, load_id, schema)]; the pool runs the workers
    one after the other, in the order of the files. *)
Definition spool_new_jobs (self : Load) (load_id : string)
  : M (nat * list LoadJob.t) :=
  st <- get_storage ;;
  let load_files :=
    firstn (workers (config self)) (LoadStorage.list_new_jobs st) in
  let file_count := List.length load_files in
  if Nat.eqb file_count 0 then ret (0, [])
  else
    jobs <- mapM (fun file => w_spool_job self file load_id) load_files ;;
    ret (file_count, remove_None jobs).

(** One turn of the loop of [retrieve_jobs]: the job it appends. *)
Definition retrieve_job (self : Load) (file_path : JobFile) : M LoadJob.t :=
  try_except
    (act (EvRestoreFileLoad file_path) ;;
     of_sum (restore_file_load (destination self) file_path))
    (fun e =>
       if is_DestinationTerminalException e
       then ret (EmptyLoadJob_from_file_path file_path failed
                   (pretty_format_exception e))
       else raise e).

(** [Load.retrieve_jobs(self, client, load_id)] *)
Definition retrieve_jobs (self : Load) (load_id : string)
  : M (nat * list LoadJob.t) :=
  st <- get_storage ;;
  let started := LoadStorage.list_started_jobs st in
  if Nat.eqb (List.length started) 0 then ret (0, [])
  else
    jobs <- mapM (retrieve_job self) started ;;
    act (EvGaugeInc "retrieved" 1) ;;
    act (EvCounterInc "retrieved" 1) ;;
    ret (List.length jobs, jobs).

(** Python's [not disposition]: no argument, or the empty string. *)
Definition not_disposition (disposition : option string) : bool :=
  match disposition with
  | None => true
  | Some d => String.eqb d ""
  end.

Fixpoint get_jobs_info_loop (disposition : option string)
    (new_job_files : list JobFile) : M (list JobFile) :=
  match new_job_files with
  | [] => ret []
  | job_file :: rest =>
      keep <-
        (if not_disposition disposition then ret true
         else
           table <- get_load_table job_file ;;
           w <- table_write_disposition table ;;
           ret (match disposition with
                | Some d => String.eqb w d
                | None => false
                end)) ;;
      infos <- get_jobs_info_loop disposition rest ;;
      ret (if keep : bool then parse_job_file_name job_file :: infos
           else infos)
  end.

(** [Load.get_jobs_info(self, load_id, schema, disposition)] *)
Definition get_jobs_info (disposition : option string) : M (list JobFile) :=
  st <- get_storage ;;
  get_jobs_info_loop disposition (LoadStorage.list_new_jobs st).

(** ** The followup planner *)

Definition is_terminal_folder (s : TJobState) : bool :=
  match s with
  | failed_jobs | completed_jobs => true
  | _ => false
  end.

(** The condition under [any(...)] in [create_merge_job]: the job is in
    neither terminal folder and is not the job being completed. *)
Definition blocks_merge (starting_job : LoadJob.t) (job : LoadJobInfo.t)
  : bool :=
  negb (is_terminal_folder (LoadJobInfo.state job))
  && negb (String.eqb
             (ParsedLoadJobFileName.job_id (LoadJobInfo.job_file_info job))
             (LoadJob.job_id starting_job)).

(** The loop of [create_merge_job] over the tables of the chain; [None] is
    the early [return None]. *)
Fixpoint merge_table_chain (st : LoadStorage.t) (starting_job : LoadJob.t)
    (child_tables : list Table) : option (list Table) :=
  match child_tables with
  | [] => Some []
  | table :: rest =>
      match LoadStorage.list_jobs_for_table (TTableSchema.name table) st with
      | [] => merge_table_chain st starting_job rest
      | table_jobs =>
          if existsb (blocks_merge starting_job) table_jobs then None
          else
            match merge_table_chain st starting_job rest with
            | None => None
            | Some table_chain => Some (table :: table_chain)
            end
      end
  end.

(** [Load.create_merge_job(self, load_id, schema, top_merged_table,
    starting_job)] *)
Definition create_merge_job (self : Load) (load_id : string)
    (top_merged_table : Table) (starting_job : LoadJob.t)
  : M (option NewLoadJob.t) :=
  ts <- get_tables ;;
  child_tables <-
    of_sum (get_child_tables ts (TTableSchema.name top_merged_table)) ;;
  st <- get_storage ;;
  match merge_table_chain st starting_job child_tables with
  | None => ret None
  | Some table_chain =>
      if Nat.ltb 0 (List.length table_chain)
      then
        act (EvCreateMergeJob table_chain) ;;
        ret (Some (client_create_merge_job (destination self) table_chain))
      else raise AssertionError
  end.

(** [Load.create_followup_jobs(self, load_id, state, starting_job, schema)] *)
Definition create_followup_jobs (self : Load) (load_id : string)
    (state : TLoadJobState) (starting_job : LoadJob.t)
  : M (list NewLoadJob.t) :=
  if LoadJob.is_followup_job starting_job
  then
    if TLoadJobState_eqb state completed
    then
      table <- get_load_table (LoadJob.file_name starting_job) ;;
      ts <- get_tables ;;
      top_merged_table <-
        of_sum (get_top_level_table ts (TTableSchema.name table)) ;;
      w <- table_write_disposition top_merged_table ;;
      if String.eqb w "merge"
      then
        job <- create_merge_job self load_id top_merged_table starting_job ;;
        match job with
        | Some job => ret [job]
        | None => ret []
        end
      else ret []
    else ret []
  else ret [].

(** ** The poll pass *)

(** The inner loop of [complete_jobs] over the followup jobs of a completed
    job; it answers the jobs it appends to [remaining_jobs]. *)
Fixpoint place_followup_jobs (followup_jobs : list NewLoadJob.t)
  : M (list LoadJob.t) :=
  match followup_jobs with
  | [] => ret []
  | followup_job :: rest =>
      now <- get_clock ;;
      let is_running :=
        TLoadJobState_eqb (NewLoadJob.state followup_job now) running in
      let folder := if is_running then new_jobs else started_jobs in
      act (EvAddNewJob (NewLoadJob.new_file_path followup_job) folder) ;;
      queued <- place_followup_jobs rest ;;
      ret (if is_running then queued
           else NewLoadJob.job followup_job :: queued)
  end.

(** One turn of the loop of [complete_jobs]: the jobs the turn appends to
    [remaining_jobs]. *)
Definition complete_jobs_turn (self : Load) (load_id : string)
    (job : LoadJob.t) : M (list LoadJob.t) :=
  now <- get_clock ;;
  let state := LoadJob.state job now in
  r <-
    match state with
    | running => ret ([job], None)
    | failed =>
        let failed_message := LoadJob.exception job in
        act (EvFailJob (LoadJob.file_name job) failed_message) ;;
        if raise_on_failed_jobs (config self)
        then raise (LoadClientJobFailed load_id (LoadJob.job_id job)
                      failed_message)
        else ret ([], Some (failed_jobs, LoadJob.file_name job))
    | retry =>
        act (EvRetryJob (LoadJob.file_name job)) ;;
        ret ([], None)
    | completed =>
        followup_jobs <- create_followup_jobs self load_id state job ;;
        queued <- place_followup_jobs followup_jobs ;;
        act (EvCompleteJob (LoadJob.file_name job)) ;;
        ret (queued, Some (completed_jobs, LoadJob.file_name job))
    end ;;
  let '(queued, final_location) := r in
  (match state with
   | failed | completed =>
       act (EvGaugeInc (state_label state) 1) ;;
       act (EvCounterInc (state_label state) 1) ;;
       act (EvObserveWait final_location)
   | _ => ret tt
   end) ;;
  ret queued.

(** [Load.complete_jobs(self, load_id, jobs, schema)] *)
Fixpoint complete_jobs (self : Load) (load_id : string)
    (jobs : list LoadJob.t) : M (list LoadJob.t) :=
  match jobs with
  | [] => ret []
  | job :: rest =>
      queued <- complete_jobs_turn self load_id job ;;
      remaining_jobs <- complete_jobs self load_id rest ;;
      ret (queued ++ remaining_jobs)
  end.

(** ** The driver *)

(** [Load.complete_package(self, load_id, schema, aborted)]; the entry of
    [_processed_load_ids], which no other operation reads, is left out. *)
Definition complete_package (self : Load) (load_id : string)
    (aborted : bool) : M unit :=
  (if negb aborted then act (EvCompleteLoad load_id) else ret tt) ;;
  st <- get_storage ;;
  act (EvCompleteLoadPackage load_id aborted) ;;
  match LoadStorage.complete_load_package aborted st with
  | None => raise (LoadPackageNotCompleted load_id)
  | Some _ => act EvLoadCounterInc
  end.

(** The [while True] loop of [load_single_package].  Every pass costs one
    unit of [fuel]; the loop that is still polling when the fuel is spent
    answers [Diverge]. *)
Fixpoint poll_loop (fuel : nat) (self : Load) (load_id : string)
    (jobs : list LoadJob.t) : M unit :=
  match fuel with
  | 0 => fun w => (Diverge, w)
  | S fuel' =>
      next <-
        try_except
          (remaining_jobs <- complete_jobs self load_id jobs ;;
           if Nat.eqb (List.length remaining_jobs) 0 then ret None
           else sleep ;; ret (Some remaining_jobs))
          (fun e =>
             if is_LoadClientJobFailed e
             then complete_package self load_id true ;; raise e
             else raise e) ;;
      match next with
      | None => ret tt
      | Some remaining_jobs => poll_loop fuel' self load_id remaining_jobs
      end
  end.

(** The schema synchronisation at the start of [load_single_package]. *)
Definition update_schema (self : Load) (load_id : string) : M unit :=
  st <- get_storage ;;
  match LoadStorage.schema_update st with
  | None => ret tt
  | Some expected_update =>
      act (EvInitializeStorage false []) ;;
      all_jobs <- get_jobs_info None ;;
      ts <- get_tables ;;
      let all_tables := map ParsedLoadJobFileName.table_name all_jobs in
      let dlt_names := map TTableSchema.name (dlt_tables ts) in
      act (EvUpdateStorageSchema false (all_tables ++ dlt_names)) ;;
      let applied_update :=
        update_storage_schema (destination self) false
          (all_tables ++ dlt_names) expected_update in
      merge_jobs <- get_jobs_info (Some "merge") ;;
      (match merge_jobs with
       | [] => ret tt
       | _ =>
           let merge_tables :=
             map ParsedLoadJobFileName.table_name merge_jobs in
           act (EvInitializeStorage true []) ;;
           act (EvUpdateStorageSchema true (merge_tables ++ dlt_names)) ;;
           act (EvInitializeStorage true merge_tables)
       end) ;;
      act (EvCommitSchemaUpdate applied_update)
  end.

(** The choice between the resume path and the cold path. *)
Definition retrieve_or_spool (self : Load) (load_id : string)
  : M (nat * list LoadJob.t) :=
  retrieved <- retrieve_jobs self load_id ;;
  match snd retrieved with
  | [] =>
      spooled <- spool_new_jobs self load_id ;;
      (if Nat.ltb 0 (fst spooled)
       then
         act (EvGaugeSetAll 0) ;;
         act (EvGaugeInc "running" (List.length (snd spooled))) ;;
         act (EvCounterInc "running" (List.length (snd spooled)))
       else ret tt) ;;
      ret spooled
  | _ => ret retrieved
  end.

(** [Load.load_single_package(self, load_id)] *)
Definition load_single_package (fuel : nat) (self : Load)
    (load_id : string) : M unit :=
  update_schema self load_id ;;
  found <- retrieve_or_spool self load_id ;;
  let '(jobs_count, jobs) := found in
  if Nat.eqb jobs_count 0
  then complete_package self load_id false
  else poll_loop fuel self load_id jobs.

(** The part of [load_single_package] before the choice between completing
    the package and polling: the total job count and the jobs. *)
Definition jobs_found (self : Load) (load_id : string)
  : M (nat * list LoadJob.t) :=
  update_schema self load_id ;; retrieve_or_spool self load_id.

(** [reaches_pass self load_id k jobs w jobs' w']: the poll loop that starts
    with [jobs] in the world [w] begins its pass number [k] (from 0) with
    [jobs'] in the world [w']. *)
Inductive reaches_pass (self : Load) (load_id : string)
  : nat -> list LoadJob.t -> World -> list LoadJob.t -> World -> Prop :=
| reaches_first : forall jobs w, reaches_pass self load_id 0 jobs w jobs w
| reaches_later : forall k jobs w remaining_jobs w1 jobs' w',
    complete_jobs self load_id jobs w = (Return remaining_jobs, w1) ->
    remaining_jobs <> [] ->
    reaches_pass self load_id k remaining_jobs (snd (sleep w1)) jobs' w' ->
    reaches_pass self load_id (S k) jobs w jobs' w'.

(** The storage once [complete_load_package] has archived the package. *)
Definition archived_as (aborted : bool) (st : LoadStorage.t)
  : LoadStorage.t :=
  LoadStorage.mk (LoadStorage.jobs st) (LoadStorage.schema_update st)
    (LoadStorage.applied_update st) (Some aborted).

(** ** Where followup jobs go, in the words of the spec *)

(** A followup job that advertises [running] goes to [new_jobs], any other to
    [started_jobs]. *)
Definition followup_folder (now : nat) (j : NewLoadJob.t) : TJobState :=
  match NewLoadJob.state j now with
  | running => new_jobs
  | _ => started_jobs
  end.

Definition placement (now : nat) (j : NewLoadJob.t) : Event :=
  EvAddNewJob (NewLoadJob.new_file_path j) (followup_folder now j).

(** The followup jobs that join the remaining set of the pass: those that do
    not advertise [running]. *)
Definition requeued (now : nat) (js : list NewLoadJob.t) : list LoadJob.t :=
  map NewLoadJob.job
    (filter
       (fun j => negb (TLoadJobState_eqb (NewLoadJob.state j now) running))
       js).

(** The three metric updates after a terminal transition. *)
Definition terminal_metrics (s : TLoadJobState) (final_location : TLocation)
  : list Event :=
  [EvGaugeInc (state_label s) 1; EvCounterInc (state_label s) 1;
   EvObserveWait (Some final_location)].

(** The world once the spooled file of a job has been started. *)
Definition started (file_name : JobFile) (w : World) : World :=
  mkWorld (LoadStorage.start_job file_name (storage w)) (tables w) (clock w)
    (trace w ++ [EvStartJob file_name]).

(** What the spool worker treats as a terminal failure. *)
Definition is_terminal_failure (e : exn) : bool :=
  is_DestinationTerminalException e || is_TerminalValueError e.

(** ** The resume path, in the words of the spec *)

(** The job a started file is resumed as: the restored one, or a failed
    [EmptyLoadJob] with the text of the terminal failure. *)
Definition restored (self : Load) (file_path : JobFile) : LoadJob.t :=
  match restore_file_load (destination self) file_path with
  | inr job => job
  | inl e =>
      EmptyLoadJob_from_file_path file_path failed
        (pretty_format_exception e)
  end.

(** The file can be restored, or fails terminally. *)
Definition restorable (self : Load) (file_path : JobFile) : bool :=
  match restore_file_load (destination self) file_path with
  | inr _ => true
  | inl e => is_DestinationTerminalException e
  end.

(** The world after the calls [evs], none of which touches the storage or
    the clock. *)
Definition called (evs : list Event) (w : World) : World :=
  mkWorld (storage w) (tables w) (clock w) (trace w ++ evs).

Definition any_event (e : Event) : bool := true.

(** [total c]: the computation [c] answers or raises; it never runs out of
    fuel. *)
Definition total {A} (c : M A) : Prop :=
  forall w, fst (c w) <> Diverge.

(** ** A package to run the loader on *)

Module Sample.

Definition orders : Table :=
  TTableSchema.mk "orders" None (Some "merge").

Definition orders__items : Table :=
  TTableSchema.mk "orders__items" (Some "orders") None.

Definition items : Table :=
  TTableSchema.mk "items" None (Some "append").

Definition schema_tables : TSchemaTables := [orders; orders__items; items].

Definition orders_file : JobFile :=
  ParsedLoadJobFileName.mk "orders" "a1" 0 "jsonl".

Definition orders__items_file : JobFile :=
  ParsedLoadJobFileName.mk "orders__items" "b2" 0 "jsonl".

Definition items_file : JobFile :=
  ParsedLoadJobFileName.mk "items" "c3" 0 "jsonl".

Definition items_file' : JobFile :=
  ParsedLoadJobFileName.mk "items" "d4" 0 "jsonl".

Definition job_in (folder : TJobState) (f : JobFile) : LoadJobInfo.t :=
  LoadJobInfo.mk folder f None.

Definition package (js : list LoadJobInfo.t) : LoadStorage.t :=
  LoadStorage.mk js None None None.

Definition world (js : list LoadJobInfo.t) : World :=
  mkWorld (package js) schema_tables 0 [].

(** A job that answers [s] at every pass. *)
Definition job_of (s : TLoadJobState) (message : string) (followup : bool)
    (f : JobFile) : LoadJob.t :=
  LoadJob.mk f (fun _ => s) message followup.

Definition merge_file (table_chain : list Table) : JobFile :=
  ParsedLoadJobFileName.mk
    (match table_chain with
     | tb :: _ => TTableSchema.name tb
     | [] => ""
     end)
    "merge" 0 "sql".

(** A destination whose loads all end in state [s]; its jobs are followup
    jobs, and its merge job is completed as soon as it is created. *)
Definition client (s : TLoadJobState) (message : string) : JobClientBase :=
  mkJobClientBase
    (fun _ f => inr (job_of s message true f))
    (fun f => inr (job_of s message true f))
    (fun table_chain =>
       NewLoadJob.mk
         (job_of completed "" false (merge_file table_chain))
         (merge_file table_chain))
    (fun _ _ expected_update => expected_update).

(** A destination that has lost the load of [items_file] for good and
    cannot be reached for the load of [items_file']. *)
Definition flaky_client : JobClientBase :=
  mkJobClientBase
    (fun _ f => inr (job_of completed "" false f))
    (fun f =>
       if ParsedLoadJobFileName.eqb f items_file
       then inl (DestinationTerminalException "gone")
       else if ParsedLoadJobFileName.eqb f items_file'
            then inl (DestinationTransientException "busy")
            else inr (job_of completed "" false f))
    (fun table_chain =>
       NewLoadJob.mk
         (job_of completed "" false (merge_file table_chain))
         (merge_file table_chain))
    (fun _ _ expected_update => expected_update).

Definition flaky_loader : Load :=
  mkLoad (mkLoaderConfiguration 4 false) ["jsonl"; "parquet"] flaky_client.

(** Both files of table [items] are in [started_jobs]. *)
Definition resumed_world : World :=
  world [job_in started_jobs items_file; job_in started_jobs items_file'].

(** Two files of table [items] wait in [new_jobs]. *)
Definition two_items_world : World :=
  world [job_in new_jobs items_file; job_in new_jobs items_file'].

Definition load_id : string := "1700000000".

(** A file of table [items] is in [started_jobs]. *)
Definition started_items_world : World :=
  world [job_in started_jobs items_file].

(** The job of [orders__items] is completed, the one of [orders] is
    started: the chain of [orders] is drained but for the job at hand. *)
Definition merge_ready_world : World :=
  world [job_in completed_jobs orders__items_file;
         job_in started_jobs orders_file].

(** Both jobs of the chain of [orders] are started. *)
Definition merge_blocked_world : World :=
  world [job_in started_jobs orders__items_file;
         job_in started_jobs orders_file].

(** A file in a format the destination does not load. *)
Definition csv_file : JobFile :=
  ParsedLoadJobFileName.mk "items" "e5" 0 "csv".

(** The file in the unsupported format has been started. *)
Definition started_csv_world : World :=
  mkWorld (package [job_in started_jobs csv_file]) schema_tables 0
    [EvStartJob csv_file].

(** A package with a staged schema update and a file of the merge chain
    in [new_jobs]. *)
Definition staged_world : World :=
  mkWorld
    (LoadStorage.mk [job_in new_jobs orders__items_file]
       (Some ["orders__items"]) None None)
    schema_tables 0 [].

(** A drained package: both files are in terminal folders. *)
Definition drained_world : World :=
  world [job_in completed_jobs items_file; job_in failed_jobs items_file'].

(** A destination that cannot be reached: every start of a load fails
    with a transient error. *)
Definition unreachable_loader : Load :=
  mkLoad (mkLoaderConfiguration 4 false) ["jsonl"; "parquet"]
    (mkJobClientBase
       (fun _ _ => inl (DestinationTransientException "busy"))
       (fun _ => inl (DestinationTransientException "busy"))
       (fun table_chain =>
          NewLoadJob.mk
            (job_of completed "" false (merge_file table_chain))
            (merge_file table_chain))
       (fun _ _ expected_update => expected_update)).



Definition loader (workers : nat) (raise_on_failed : bool)
    (s : TLoadJobState) (message : string) : Load :=
  mkLoad (mkLoaderConfiguration workers raise_on_failed)
    ["jsonl"; "parquet"] (client s message).

End Sample.

(** ** The resolved write disposition *)

(** The write disposition a table resolves to, in the words of the spec:
    its own when it has one, else the one its parent resolves to. *)
Inductive inherits (ts : TSchemaTables) : string -> string -> Prop :=
| inherits_own : forall n tb w,
    get_table ts n = Some tb ->
    TTableSchema.write_disposition tb = Some w ->
    inherits ts n w
| inherits_parent : forall n tb p w,
    get_table ts n = Some tb ->
    TTableSchema.write_disposition tb = None ->
    TTableSchema.parent tb = Some p ->
    inherits ts p w ->
    inherits ts n w.

(** What [get_load_table] may do to a table object: nothing, or fill in the
    write disposition the table resolves to when the key is absent. *)
Definition table_filled (ts : TSchemaTables) (a b : Table) : Prop :=
  TTableSchema.name b = TTableSchema.name a
  /\ TTableSchema.parent b = TTableSchema.parent a
  /\ (TTableSchema.write_disposition b = TTableSchema.write_disposition a
      \/ (TTableSchema.write_disposition a = None
          /\ exists w, TTableSchema.write_disposition b = Some w
                       /\ inherits ts (TTableSchema.name a) w)).

Definition filled (ts ts' : TSchemaTables) : Prop :=
  Forall2 (table_filled ts) ts ts'.

(** The disposition filter of [get_jobs_info], read on the resolved write
    disposition. *)
Definition resolves_to (ts : TSchemaTables) (d : string) (f : JobFile)
  : bool :=
  match get_write_disposition ts (ParsedLoadJobFileName.table_name f) with
  | inr w => String.eqb w d
  | inl _ => false
  end.

(** ** What a computation may change *)

Definition run_storage (evs : list Event) (st : LoadStorage.t)
  : LoadStorage.t :=
  fold_left (fun st e => effect e st) evs st.

Definition run_clock (evs : list Event) (now : nat) : nat :=
  fold_left (fun n e => tick e n) evs now.

(** [changes p w w']: from [w] to [w'] only calls of the class [p] were
    made, the storage and the clock moved as these calls say, and the schema
    was at most filled in. *)
Definition changes (p : Event -> bool) (w w' : World) : Prop :=
  (exists evs,
      forallb p evs = true
      /\ trace w' = trace w ++ evs
      /\ storage w' = run_storage evs (storage w)
      /\ clock w' = run_clock evs (clock w))
  /\ filled (tables w) (tables w').

Definition frame (R : World -> World -> Prop) {A} (c : M A) : Prop :=
  forall w r w', c w = (r, w') -> R w w'.

(** Classes of calls. *)
Definition no_event (e : Event) : bool := false.

Definition is_start_file_load (e : Event) : bool :=
  match e with
  | EvStartFileLoad _ _ => true
  | _ => false
  end.

Definition is_spool_event (e : Event) : bool :=
  match e with
  | EvStartFileLoad _ _ | EvStartJob _ => true
  | _ => false
  end.

Definition is_retrieve_event (e : Event) : bool :=
  match e with
  | EvRestoreFileLoad _ | EvGaugeInc _ _ | EvCounterInc _ _ => true
  | _ => false
  end.

Definition is_schema_sync_event (e : Event) : bool :=
  match e with
  | EvInitializeStorage _ _ | EvUpdateStorageSchema _ _
  | EvCommitSchemaUpdate _ => true
  | _ => false
  end.

Definition is_create_merge_job (e : Event) : bool :=
  match e with
  | EvCreateMergeJob _ => true
  | _ => false
  end.

Definition is_poll_event (e : Event) : bool :=
  match e with
  | EvCreateMergeJob _ | EvAddNewJob _ _ | EvFailJob _ _ | EvRetryJob _
  | EvCompleteJob _ | EvGaugeInc _ _ | EvCounterInc _ _ | EvObserveWait _
  | EvSleep => true
  | _ => false
  end.

(** The calls of [complete_package]. *)
Definition is_package_completion (e : Event) : bool :=
  match e with
  | EvCompleteLoad _ | EvCompleteLoadPackage _ _ | EvLoadCounterInc => true
  | _ => false
  end.

(** The calls that move, add or rename a job file. *)
Definition is_job_transition (e : Event) : bool :=
  match e with
  | EvStartJob _ | EvFailJob _ _ | EvRetryJob _ | EvCompleteJob _
  | EvAddNewJob _ _ => true
  | _ => false
  end.

(** The metrics of the jobs. *)
Definition is_job_metric_event (e : Event) : bool :=
  match e with
  | EvGaugeSetAll _ | EvGaugeInc _ _ | EvCounterInc _ _
  | EvObserveWait _ => true
  | _ => false
  end.

(** The calls the spool worker of [self] can make: [start_file_load] for a
    file in a supported format, with the table that bears the table name of
    the file and has a supported write disposition; and [start_job]. *)
Definition is_checked_spool_event (self : Load) (e : Event) : bool :=
  match e with
  | EvStartFileLoad table file_path =>
      string_in (ParsedLoadJobFileName.file_format file_path)
        (supported_loader_file_formats self)
      && match TTableSchema.write_disposition table with
         | Some d => string_in d ["append"; "replace"; "merge"]
         | None => false
         end
      && String.eqb (TTableSchema.name table)
           (ParsedLoadJobFileName.table_name file_path)
  | EvStartJob _ => true
  | _ => false
  end.

(** The jobs of a pass that are not polled again: every state but
    [running]. *)
Definition is_running (now : nat) (job : LoadJob.t) : bool :=
  TLoadJobState_eqb (LoadJob.state job now) running.

(** The world after the calls [evs], none of which is [sleep]. *)
Definition after (evs : list Event) (w : World) : World :=
  mkWorld (run_storage evs (storage w)) (tables w) (clock w)
    (trace w ++ evs).

(** The calls of the turn of a job that is no followup job, when
    [raise_on_failed_jobs] is off. *)
Definition plain_turn_calls (now : nat) (job : LoadJob.t) : list Event :=
  match LoadJob.state job now with
  | running => []
  | retry => [EvRetryJob (LoadJob.file_name job)]
  | failed =>
      EvFailJob (LoadJob.file_name job) (LoadJob.exception job)
      :: terminal_metrics failed (failed_jobs, LoadJob.file_name job)
  | completed =>
      EvCompleteJob (LoadJob.file_name job)
      :: terminal_metrics completed (completed_jobs, LoadJob.file_name job)
  end.

(** The calls of the schema synchronisation on the staging dataset: none
    without a merge table. *)
Definition staging_calls (merge_tables dlt_names : list string)
  : list Event :=
  match merge_tables with
  | [] => []
  | _ =>
      [EvInitializeStorage true [];
       EvUpdateStorageSchema true (merge_tables ++ dlt_names);
       EvInitializeStorage true merge_tables]
  end.

(** The tables of the files in [new_jobs] that resolve to [merge]. *)
Definition merge_tables_of (w : World) : list string :=
  map ParsedLoadJobFileName.table_name
    (filter (resolves_to (tables w) "merge")
       (LoadStorage.list_new_jobs (storage w))).

(** The tables of all files in [new_jobs], then the tables of the
    framework. *)
Definition package_tables_of (w : World) : list string :=
  map ParsedLoadJobFileName.table_name
    (LoadStorage.list_new_jobs (storage w))
  ++ map TTableSchema.name (dlt_tables (tables w)).

(** ** A destination that names its jobs for the files it is given *)




(** [no_assertion c]: the computation [c] does not end in an
    [AssertionError]. *)
Definition no_assertion {A} (c : M A) : Prop :=
  forall w, fst (c w) <> Raise AssertionError.

(** * Properties *)

Unset Implicit Arguments.

(** ** Names and files *)

Lemma ParsedLoadJobFileName_eqb_eq (p q : JobFile) :
  ParsedLoadJobFileName.eqb p q = true <-> p = q.
Proof.
  unfold ParsedLoadJobFileName.eqb. destruct p, q; simpl.
  rewrite !andb_true_iff, !String.eqb_eq, Nat.eqb_eq.
  split.
  - intros [[[-> ->] ->] ->]. reflexivity.
  - intros H. injection H as -> -> -> ->. auto.
Qed.

Lemma ParsedLoadJobFileName_eqb_refl (p : JobFile) :
  ParsedLoadJobFileName.eqb p p = true.
Proof. apply ParsedLoadJobFileName_eqb_eq. reflexivity. Qed.

Lemma get_table_name ts n tb :
  get_table ts n = Some tb -> TTableSchema.name tb = n.
Proof.
  unfold get_table. intros H. apply find_some in H.
  apply String.eqb_eq, H.
Qed.

Lemma get_table_In ts n tb : get_table ts n = Some tb -> In tb ts.
Proof. unfold get_table. intros H. apply find_some in H. apply H. Qed.

(** ** Resolution of the write disposition *)

Lemma inherits_fun ts n w1 :
  inherits ts n w1 -> forall w2, inherits ts n w2 -> w1 = w2.
Proof.
  induction 1 as [n tb w Hg Hw | n tb p w Hg Hw Hp Hi IH]; intros w2 H2.
  - inversion H2; subst; congruence.
  - inversion H2 as [n' tb' w' Hg' Hw' | n' tb' p' w' Hg' Hw' Hp' Hi'];
      subst; try congruence.
    apply IH. rewrite Hg in Hg'. injection Hg' as <-.
    rewrite Hp in Hp'. injection Hp' as <-. exact Hi'.
Qed.

Lemma get_write_disposition_rec_sound fuel ts :
  forall n w,
    get_write_disposition_rec fuel ts n = inr w -> inherits ts n w.
Proof.
  induction fuel as [|fuel IH]; intros n w H; simpl in H; [discriminate|].
  destruct (get_table ts n) as [tb|] eqn:Hg; [|discriminate].
  destruct (TTableSchema.write_disposition tb) as [w'|] eqn:Hw.
  - injection H as <-. eapply inherits_own; eauto.
  - destruct (TTableSchema.parent tb) as [p|] eqn:Hp; [|discriminate].
    eapply inherits_parent; eauto.
Qed.

Lemma get_write_disposition_rec_mono fuel ts :
  forall n w fuel',
    get_write_disposition_rec fuel ts n = inr w ->
    fuel <= fuel' ->
    get_write_disposition_rec fuel' ts n = inr w.
Proof.
  induction fuel as [|fuel IH]; intros n w fuel' H Hle; simpl in H;
    [discriminate|].
  destruct fuel' as [|fuel']; [lia|]. simpl.
  destruct (get_table ts n) as [tb|]; [|discriminate].
  destruct (TTableSchema.write_disposition tb); [exact H|].
  destruct (TTableSchema.parent tb); [|discriminate].
  apply IH; [exact H | lia].
Qed.

(** A resolution visits every table at most once, so it needs no more fuel
    than there are tables. *)
Lemma inherits_chain ts n w :
  inherits ts n w ->
  exists l,
    NoDup l /\ incl l (map TTableSchema.name ts) /\ In n l
    /\ forall m, In m l ->
         get_write_disposition_rec (List.length l) ts m = inr w.
Proof.
  induction 1 as [n tb w Hg Hw | n tb p w Hg Hw Hp Hi IH].
  - exists [n]. repeat split.
    + constructor; [intros []|constructor].
    + intros m [<-|[]]. apply in_map_iff. exists tb.
      split; [eapply get_table_name|eapply get_table_In]; eauto.
    + left; reflexivity.
    + intros m [<-|[]]. simpl. rewrite Hg, Hw. reflexivity.
  - destruct IH as (l & Hnd & Hincl & Hp_in & Hall).
    destruct (in_dec string_dec n l) as [Hin|Hnin].
    + exists l. repeat split; auto.
    + exists (n :: l). repeat split.
      * constructor; assumption.
      * intros m [<-|Hm]; [|apply Hincl, Hm].
        apply in_map_iff. exists tb.
        split; [eapply get_table_name|eapply get_table_In]; eauto.
      * left; reflexivity.
      * intros m [<-|Hm].
        -- simpl. rewrite Hg, Hw, Hp. apply Hall, Hp_in.
        -- eapply get_write_disposition_rec_mono; [apply Hall, Hm|].
           simpl. lia.
Qed.

Lemma get_write_disposition_complete ts n w :
  inherits ts n w -> get_write_disposition ts n = inr w.
Proof.
  intros H. destruct (inherits_chain _ _ _ H) as (l & Hnd & Hincl & Hin & Hall).
  unfold get_write_disposition.
  eapply get_write_disposition_rec_mono; [apply Hall, Hin|].
  pose proof (NoDup_incl_length Hnd Hincl) as Hlen.
  rewrite length_map in Hlen. apply le_S. exact Hlen.
Qed.

Lemma get_write_disposition_inherits ts n w :
  get_write_disposition ts n = inr w <-> inherits ts n w.
Proof.
  split.
  - apply get_write_disposition_rec_sound.
  - apply get_write_disposition_complete.
Qed.

(** ** Filling in write dispositions *)

Lemma table_filled_refl ts a : table_filled ts a a.
Proof. unfold table_filled. auto. Qed.

Lemma Forall2_table_filled_refl ts0 ts : Forall2 (table_filled ts0) ts ts.
Proof.
  induction ts; constructor; auto using table_filled_refl.
Qed.

Lemma filled_refl ts : filled ts ts.
Proof. apply Forall2_table_filled_refl. Qed.

Lemma Forall2_filled_get_table ts0 ts ts' n :
  Forall2 (table_filled ts0) ts ts' ->
  match get_table ts n, get_table ts' n with
  | Some a, Some b => table_filled ts0 a b
  | None, None => True
  | _, _ => False
  end.
Proof.
  induction 1 as [|a b ts ts' Hab _ IH]; simpl; [exact I|].
  destruct Hab as (Hn & Hp & Hw). rewrite Hn.
  destruct (String.eqb (TTableSchema.name a) n).
  - unfold table_filled. auto.
  - exact IH.
Qed.

Lemma filled_get_table ts ts' n a :
  filled ts ts' -> get_table ts n = Some a ->
  exists b, get_table ts' n = Some b /\ table_filled ts a b.
Proof.
  intros Hf Hg. pose proof (Forall2_filled_get_table _ _ _ n Hf) as H.
  rewrite Hg in H. destruct (get_table ts' n) as [b|]; [eauto|contradiction].
Qed.

Lemma filled_get_table_inv ts ts' n b :
  filled ts ts' -> get_table ts' n = Some b ->
  exists a, get_table ts n = Some a /\ table_filled ts a b.
Proof.
  intros Hf Hg. pose proof (Forall2_filled_get_table _ _ _ n Hf) as H.
  rewrite Hg in H. destruct (get_table ts n) as [a|]; [eauto|contradiction].
Qed.

(** Filling in leaves every resolved write disposition as it was. *)
Lemma inherits_filled ts ts' :
  filled ts ts' -> forall n w, inherits ts n w -> inherits ts' n w.
Proof.
  intros Hf n w H.
  induction H as [n tb w Hg Hw | n tb p w Hg Hw Hp Hi IH].
  - destruct (filled_get_table _ _ _ _ Hf Hg) as (b & Hb & _ & _ & Hwd).
    eapply inherits_own; [exact Hb|].
    destruct Hwd as [Heq|[Hnone _]]; congruence.
  - destruct (filled_get_table _ _ _ _ Hf Hg) as (b & Hb & _ & Hpar & Hwd).
    destruct Hwd as [Heq|(_ & w' & Hw' & Hi')].
    + eapply inherits_parent; [exact Hb| | |exact IH]; congruence.
    + eapply inherits_own; [exact Hb|]. rewrite Hw'. f_equal.
      eapply inherits_fun; [exact Hi'|].
      rewrite (get_table_name _ _ _ Hg).
      eapply inherits_parent; eauto.
Qed.

Lemma inherits_filled_inv ts ts' :
  filled ts ts' -> forall n w, inherits ts' n w -> inherits ts n w.
Proof.
  intros Hf n w H.
  induction H as [n tb w Hg Hw | n tb p w Hg Hw Hp Hi IH].
  - destruct (filled_get_table_inv _ _ _ _ Hf Hg) as (a & Ha & _ & _ & Hwd).
    destruct Hwd as [Heq|(_ & w' & Hw' & Hi')].
    + eapply inherits_own; [exact Ha|]. congruence.
    + rewrite (get_table_name _ _ _ Ha) in Hi'. congruence.
  - destruct (filled_get_table_inv _ _ _ _ Hf Hg) as (a & Ha & _ & Hpar & Hwd).
    destruct Hwd as [Heq|(_ & w' & Hw' & _)]; [|congruence].
    eapply inherits_parent; [exact Ha| | |exact IH]; congruence.
Qed.

Lemma table_filled_trans ts ts' a b c :
  filled ts ts' ->
  table_filled ts a b -> table_filled ts' b c -> table_filled ts a c.
Proof.
  intros Hf (Hn1 & Hp1 & Hw1) (Hn2 & Hp2 & Hw2).
  split; [congruence|]. split; [congruence|].
  destruct Hw2 as [Heq2|(Hnone & w & Hw & Hi)].
  - destruct Hw1 as [Heq1|(Hnone1 & w & Hw & Hi)].
    + left; congruence.
    + right. split; [exact Hnone1|]. exists w. split; [congruence|exact Hi].
  - destruct Hw1 as [Heq1|(_ & w1 & Hw1 & _)]; [|congruence].
    right. split; [congruence|]. exists w. split; [exact Hw|].
    rewrite <- Hn1. eapply inherits_filled_inv; eauto.
Qed.

Lemma filled_trans ts1 ts2 ts3 :
  filled ts1 ts2 -> filled ts2 ts3 -> filled ts1 ts3.
Proof.
  intros H12 H23. unfold filled in *.
  assert (G : forall l1 l2 l3,
             Forall2 (table_filled ts1) l1 l2 ->
             Forall2 (table_filled ts2) l2 l3 ->
             Forall2 (table_filled ts1) l1 l3).
  { intros l1 l2 l3 Ha. revert l3.
    induction Ha as [|a b l1 l2 Hab _ IH]; intros l3 Hb;
      inversion Hb; subst; constructor.
    - eapply table_filled_trans; eauto.
    - apply IH. assumption. }
  eapply G; eauto.
Qed.

(** The assignment in [get_load_table] fills in a write disposition. *)
Lemma store_write_disposition_filled ts0 ts n tb w :
  get_table ts n = Some tb ->
  TTableSchema.write_disposition tb = None ->
  inherits ts0 n w ->
  Forall2 (table_filled ts0) ts (store_write_disposition n w ts).
Proof.
  intros Hg Hw Hi. induction ts as [|a ts IH]; simpl in *; [discriminate|].
  destruct (String.eqb (TTableSchema.name a) n) eqn:E.
  - injection Hg as ->. constructor.
    + apply String.eqb_eq in E. unfold table_filled; simpl.
      repeat split. right. split; [exact Hw|]. exists w.
      split; [reflexivity|]. rewrite E. exact Hi.
    + apply Forall2_table_filled_refl.
  - constructor; [apply table_filled_refl|]. apply IH. exact Hg.
Qed.

Lemma get_write_disposition_filled ts ts' n :
  filled ts ts' ->
  forall w,
    get_write_disposition ts' n = inr w <->
    get_write_disposition ts n = inr w.
Proof.
  intros Hf w. rewrite !get_write_disposition_inherits.
  split; [apply inherits_filled_inv|apply inherits_filled]; exact Hf.
Qed.

(** ** Frame rules of the monad *)

Section Frame.

Variable R : World -> World -> Prop.
Hypothesis R_refl : forall w, R w w.
Hypothesis R_trans : forall w1 w2 w3, R w1 w2 -> R w2 w3 -> R w1 w3.

Lemma frame_ret {A} (a : A) : frame R (ret a).
Proof. intros w r w' H. injection H as _ <-. apply R_refl. Qed.

Lemma frame_raise {A} (e : exn) : frame R (@raise A e).
Proof. intros w r w' H. injection H as _ <-. apply R_refl. Qed.

Lemma frame_diverge {A} : frame R (fun w => (@Diverge A, w)).
Proof. intros w r w' H. injection H as _ <-. apply R_refl. Qed.

Lemma frame_get_storage : frame R get_storage.
Proof. intros w r w' H. injection H as _ <-. apply R_refl. Qed.

Lemma frame_get_tables : frame R get_tables.
Proof. intros w r w' H. injection H as _ <-. apply R_refl. Qed.

Lemma frame_get_clock : frame R get_clock.
Proof. intros w r w' H. injection H as _ <-. apply R_refl. Qed.

Lemma frame_of_sum {A} (x : exn + A) : frame R (of_sum x).
Proof. destruct x; [apply frame_raise|apply frame_ret]. Qed.

Lemma frame_bind {A B} (c : M A) (k : A -> M B) :
  frame R c -> (forall a, frame R (k a)) -> frame R (bind c k).
Proof.
  intros Hc Hk w r w' H. unfold bind in H.
  destruct (c w) as [[a|e|] w1] eqn:E.
  - eapply R_trans; [eapply Hc, E|eapply Hk, H].
  - injection H as _ <-. eapply Hc, E.
  - injection H as _ <-. eapply Hc, E.
Qed.

Lemma frame_try_except {A} (c : M A) (h : exn -> M A) :
  frame R c -> (forall e, frame R (h e)) -> frame R (try_except c h).
Proof.
  intros Hc Hh w r w' H. unfold try_except in H.
  destruct (c w) as [[a|e|] w1] eqn:E.
  - injection H as _ <-. eapply Hc, E.
  - eapply R_trans; [eapply Hc, E|eapply Hh, H].
  - injection H as _ <-. eapply Hc, E.
Qed.

Lemma frame_mapM {A B} (f : A -> M B) (l : list A) :
  (forall a, frame R (f a)) -> frame R (mapM f l).
Proof.
  intros Hf. induction l as [|a l IH]; simpl.
  - apply frame_ret.
  - apply frame_bind; [apply Hf|]. intros b.
    apply frame_bind; [apply IH|]. intros bs. apply frame_ret.
Qed.

End Frame.

Lemma changes_refl p w : changes p w w.
Proof.
  split; [|apply filled_refl]. exists []. rewrite app_nil_r. auto.
Qed.

Lemma run_storage_app evs1 evs2 st :
  run_storage (evs1 ++ evs2) st = run_storage evs2 (run_storage evs1 st).
Proof. apply fold_left_app. Qed.

Lemma run_clock_app evs1 evs2 now :
  run_clock (evs1 ++ evs2) now = run_clock evs2 (run_clock evs1 now).
Proof. apply fold_left_app. Qed.

Lemma changes_trans p w1 w2 w3 :
  changes p w1 w2 -> changes p w2 w3 -> changes p w1 w3.
Proof.
  intros [(evs1 & Hp1 & Ht1 & Hs1 & Hc1) Hf1]
         [(evs2 & Hp2 & Ht2 & Hs2 & Hc2) Hf2].
  split; [|eapply filled_trans; eauto].
  exists (evs1 ++ evs2). rewrite forallb_app, Hp1, Hp2.
  rewrite Ht2, Ht1, app_assoc, run_storage_app, run_clock_app.
  rewrite <- Hs1, <- Hc1. auto.
Qed.

Lemma changes_weaken (p q : Event -> bool) w w' :
  (forall e, p e = true -> q e = true) ->
  changes p w w' -> changes q w w'.
Proof.
  intros Hpq [(evs & Hp & Ht & Hs & Hc) Hf]. split; [|exact Hf].
  exists evs. repeat split; auto.
  rewrite forallb_forall in *. auto.
Qed.

Lemma frame_weaken (p q : Event -> bool) {A} (c : M A) :
  (forall e, p e = true -> q e = true) ->
  frame (changes p) c -> frame (changes q) c.
Proof.
  intros Hpq Hc w r w' H. eapply changes_weaken; [exact Hpq|].
  eapply Hc, H.
Qed.

Lemma frame_act p e : p e = true -> frame (changes p) (act e).
Proof.
  intros Hp w r w' H. injection H as _ <-. simpl.
  split; [|apply filled_refl]. exists [e]. simpl. rewrite Hp. auto.
Qed.

(** Deciding a goal [frame (changes p) c] along the syntax of [c]. *)
Ltac frame_step :=
  match goal with
  | |- frame _ (bind _ _) =>
      apply (frame_bind _ (changes_trans _)); [|intro]
  | |- frame _ (try_except _ _) =>
      apply (frame_try_except _ (changes_trans _)); [|intro]
  | |- frame _ (ret _) => apply (frame_ret _ (changes_refl _))
  | |- frame _ (raise _) => apply (frame_raise _ (changes_refl _))
  | |- frame _ (of_sum _) => apply (frame_of_sum _ (changes_refl _))
  | |- frame _ get_storage => apply (frame_get_storage _ (changes_refl _))
  | |- frame _ get_tables => apply (frame_get_tables _ (changes_refl _))
  | |- frame _ get_clock => apply (frame_get_clock _ (changes_refl _))
  | |- frame _ (act _) => apply frame_act; reflexivity
  | |- frame _ sleep => apply frame_act; reflexivity
  | |- frame _ (mapM _ _) =>
      apply (frame_mapM _ (changes_refl _) (changes_trans _)); intro
  | |- frame _ (match ?x with _ => _ end) => destruct x
  end.

Ltac frame_auto := repeat frame_step.

(** ** What the operations of the loader change *)

(** [get_load_table] calls no collaborator; it leaves the schema as it was or
    fills in the write disposition of the table it looks up. *)
Lemma get_load_table_cases file_name w :
  let n := ParsedLoadJobFileName.table_name file_name in
  match get_table (tables w) n with
  | None =>
      get_load_table file_name w
      = (Raise (LoadJobUnknownTableException n file_name), w)
  | Some tb =>
      match TTableSchema.write_disposition tb with
      | Some _ => get_load_table file_name w = (Return tb, w)
      | None =>
          match get_write_disposition (tables w) n with
          | inr wd =>
              get_load_table file_name w
              = (Return (TTableSchema.set_write_disposition wd tb),
                 mkWorld (storage w)
                   (store_write_disposition n wd (tables w))
                   (clock w) (trace w))
          | inl e =>
              get_load_table file_name w
              = (Raise (if is_KeyError e
                        then LoadJobUnknownTableException n file_name
                        else e), w)
          end
      end
  end.
Proof.
  unfold get_load_table, try_except, bind, get_tables, parse_job_file_name.
  simpl.
  destruct (get_table (tables w) _) as [tb|] eqn:Hg; simpl; [|reflexivity].
  destruct (TTableSchema.write_disposition tb) eqn:Hw; simpl; [reflexivity|].
  destruct (get_write_disposition (tables w) _) as [e|wd] eqn:Hr; simpl.
  - destruct (is_KeyError e); reflexivity.
  - reflexivity.
Qed.

Lemma frame_get_load_table p file_name :
  frame (changes p) (get_load_table file_name).
Proof.
  intros w r w' H.
  pose proof (get_load_table_cases file_name w) as C. simpl in C.
  destruct (get_table (tables w) _) as [tb|] eqn:Hg.
  - destruct (TTableSchema.write_disposition tb) eqn:Hw.
    + rewrite C in H. injection H as _ <-. apply changes_refl.
    + destruct (get_write_disposition (tables w) _) as [e|wd] eqn:Hr;
        rewrite C in H; injection H as _ <-; [apply changes_refl|].
      split; simpl.
      * exists []. rewrite app_nil_r. auto.
      * eapply store_write_disposition_filled; eauto.
        apply get_write_disposition_inherits, Hr.
  - rewrite C in H. injection H as _ <-. apply changes_refl.
Qed.

Lemma frame_table_write_disposition p tb :
  frame (changes p) (table_write_disposition tb).
Proof. unfold table_write_disposition. frame_auto. Qed.

Lemma frame_get_jobs_info_loop p disposition files :
  frame (changes p) (get_jobs_info_loop disposition files).
Proof.
  induction files as [|f files IH]; simpl; [frame_auto|].
  frame_step; [|frame_step; [exact IH|frame_auto]].
  destruct (not_disposition disposition); [frame_auto|].
  frame_step; [apply frame_get_load_table|].
  frame_step; [apply frame_table_write_disposition|frame_auto].
Qed.

Lemma frame_get_jobs_info p disposition :
  frame (changes p) (get_jobs_info disposition).
Proof.
  unfold get_jobs_info. frame_step; [frame_auto|].
  apply frame_get_jobs_info_loop.
Qed.

Lemma frame_w_spool_job_try self file_path :
  frame (changes is_start_file_load) (w_spool_job_try self file_path).
Proof.
  unfold w_spool_job_try.
  destruct (negb _); [frame_auto|].
  frame_step; [apply frame_get_load_table|].
  frame_step; [apply frame_table_write_disposition|].
  destruct (negb _); frame_auto.
Qed.

Lemma frame_w_spool_job self file_path load_id :
  frame (changes is_spool_event) (w_spool_job self file_path load_id).
Proof.
  unfold w_spool_job.
  frame_step.
  - frame_step.
    + frame_step; [|frame_auto].
      eapply frame_weaken; [|apply frame_w_spool_job_try].
      intros []; simpl; auto.
    + destruct (_ || _); frame_auto.
  - frame_auto.
Qed.

Lemma frame_spool_new_jobs self load_id :
  frame (changes is_spool_event) (spool_new_jobs self load_id).
Proof.
  unfold spool_new_jobs. frame_step; [frame_auto|].
  destruct (Nat.eqb _ 0); [frame_auto|].
  frame_step; [|frame_auto]. frame_step. apply frame_w_spool_job.
Qed.

Lemma frame_retrieve_job self file_path :
  frame (changes is_retrieve_event) (retrieve_job self file_path).
Proof. unfold retrieve_job. frame_auto. Qed.

Lemma frame_retrieve_jobs self load_id :
  frame (changes is_retrieve_event) (retrieve_jobs self load_id).
Proof.
  unfold retrieve_jobs. frame_step; [frame_auto|].
  destruct (Nat.eqb _ 0); [frame_auto|].
  frame_step; [|frame_auto]. frame_step. apply frame_retrieve_job.
Qed.

Lemma frame_update_schema self load_id :
  frame (changes is_schema_sync_event) (update_schema self load_id).
Proof.
  unfold update_schema. frame_step; [frame_auto|].
  destruct (LoadStorage.schema_update a); [|frame_auto].
  frame_step; [frame_auto|].
  frame_step; [apply frame_get_jobs_info|].
  frame_step; [frame_auto|].
  frame_step; [frame_auto|].
  frame_step; [apply frame_get_jobs_info|].
  frame_auto.
Qed.

Lemma frame_create_merge_job self load_id top starting_job :
  frame (changes is_create_merge_job)
    (create_merge_job self load_id top starting_job).
Proof.
  unfold create_merge_job. frame_auto.
Qed.

Lemma frame_create_followup_jobs self load_id state starting_job :
  frame (changes is_create_merge_job)
    (create_followup_jobs self load_id state starting_job).
Proof.
  unfold create_followup_jobs.
  destruct (LoadJob.is_followup_job _); [|frame_auto].
  destruct (TLoadJobState_eqb _ _); [|frame_auto].
  frame_step; [apply frame_get_load_table|].
  frame_step; [frame_auto|].
  frame_step; [frame_auto|].
  frame_step; [apply frame_table_write_disposition|].
  destruct (String.eqb _ _); [|frame_auto].
  frame_step; [apply frame_create_merge_job|frame_auto].
Qed.

Lemma frame_place_followup_jobs followup_jobs :
  frame (changes is_poll_event) (place_followup_jobs followup_jobs).
Proof.
  induction followup_jobs as [|j js IH]; simpl; [frame_auto|].
  frame_step; [frame_auto|].
  frame_step; [frame_auto|].
  frame_step; [exact IH|frame_auto].
Qed.

Lemma frame_complete_jobs_turn self load_id job :
  frame (changes is_poll_event) (complete_jobs_turn self load_id job).
Proof.
  unfold complete_jobs_turn. frame_step; [frame_auto|].
  frame_step.
  - destruct (LoadJob.state job a).
    + frame_auto.
    + frame_auto.
    + frame_step; [frame_auto|].
      destruct (raise_on_failed_jobs _); frame_auto.
    + frame_step.
      * eapply frame_weaken; [|apply frame_create_followup_jobs].
        intros []; simpl; auto.
      * frame_step; [apply frame_place_followup_jobs|frame_auto].
  - destruct a0 as [queued final_location].
    frame_step; [|frame_auto].
    destruct (LoadJob.state job a); frame_auto.
Qed.

Lemma frame_complete_jobs self load_id jobs :
  frame (changes is_poll_event) (complete_jobs self load_id jobs).
Proof.
  induction jobs as [|job jobs IH]; simpl; [frame_auto|].
  frame_step; [apply frame_complete_jobs_turn|].
  frame_step; [exact IH|frame_auto].
Qed.

Lemma frame_complete_package self load_id aborted :
  frame (changes is_package_completion)
    (complete_package self load_id aborted).
Proof.
  unfold complete_package. frame_step; [destruct (negb aborted); frame_auto|].
  frame_auto.
Qed.

Lemma frame_retrieve_or_spool self load_id :
  frame (changes (fun e => is_retrieve_event e || is_spool_event e
                           || is_job_metric_event e))
    (retrieve_or_spool self load_id).
Proof.
  unfold retrieve_or_spool. frame_step.
  - eapply frame_weaken; [|apply frame_retrieve_jobs].
    intros e ->. reflexivity.
  - destruct (snd a); [|frame_auto].
    frame_step; [|frame_auto].
    eapply frame_weaken; [|apply frame_spool_new_jobs].
    intros e ->. rewrite orb_true_r. reflexivity.
Qed.

(** A pass of the poll loop that does not end in an exception leaves the
    completion of the package alone. *)
Lemma poll_loop_returns fuel self load_id :
  forall jobs w w',
    poll_loop fuel self load_id jobs w = (Return tt, w') ->
    changes is_poll_event w w'.
Proof.
  induction fuel as [|fuel IH]; intros jobs w w' H; simpl in H;
    [discriminate|].
  unfold bind at 1 in H. unfold try_except in H. unfold bind at 1 in H.
  destruct (complete_jobs self load_id jobs w) as [[remaining|e|] w1] eqn:E.
  - pose proof (frame_complete_jobs _ _ _ _ _ _ E) as C1.
    destruct (Nat.eqb (List.length remaining) 0).
    + simpl in H. injection H as <-. exact C1.
    + simpl in H. eapply changes_trans; [exact C1|].
      eapply changes_trans; [|eapply IH, H].
      eapply (frame_act is_poll_event EvSleep); reflexivity.
  - destruct (is_LoadClientJobFailed e).
    + unfold bind in H.
      destruct (complete_package self load_id true w1) as [[[]|e'|] w2];
        simpl in H; discriminate.
    + simpl in H. discriminate.
  - discriminate.
Qed.

(** What [complete_package] does, call by call. *)
Lemma complete_package_aborted self load_id w :
  complete_package self load_id true w
  = (Return tt,
     mkWorld
       (LoadStorage.mk (LoadStorage.jobs (storage w))
          (LoadStorage.schema_update (storage w))
          (LoadStorage.applied_update (storage w)) (Some true))
       (tables w) (clock w)
       (trace w ++ [EvCompleteLoadPackage load_id true; EvLoadCounterInc])).
Proof.
  unfold complete_package, bind, act, get_storage. simpl.
  rewrite <- app_assoc. reflexivity.
Qed.

Lemma complete_package_not_aborted self load_id w r w' :
  complete_package self load_id false w = (r, w') ->
  trace w'
  = trace w ++ [EvCompleteLoad load_id; EvCompleteLoadPackage load_id false]
      ++ (if LoadStorage.archivable (storage w) then [EvLoadCounterInc]
          else [])
  /\ (if LoadStorage.archivable (storage w)
      then r = Return tt
           /\ LoadStorage.archived (storage w') = Some false
           /\ LoadStorage.jobs (storage w') = LoadStorage.jobs (storage w)
      else r = Raise (LoadPackageNotCompleted load_id)
           /\ storage w' = storage w).
Proof.
  unfold complete_package, bind, act, get_storage. simpl.
  unfold LoadStorage.complete_load_package. simpl.
  destruct (LoadStorage.archivable (storage w)); simpl;
    intros H; injection H as <- <-; simpl;
    rewrite <- !app_assoc; simpl; auto.
Qed.

(** Only [complete_load_package] sets the mark of the archive. *)
Lemma effect_archived e st :
  is_package_completion e = false ->
  LoadStorage.archived (effect e st) = LoadStorage.archived st.
Proof. destruct e; simpl; try reflexivity; discriminate. Qed.

Lemma run_storage_archived evs :
  forall st,
    forallb (fun e => negb (is_package_completion e)) evs = true ->
    LoadStorage.archived (run_storage evs st) = LoadStorage.archived st.
Proof.
  induction evs as [|e evs IH]; intros st H; simpl in *; [reflexivity|].
  apply andb_true_iff in H as [He Hevs].
  unfold run_storage in IH. rewrite IH by exact Hevs.
  apply effect_archived. destruct (is_package_completion e);
    [discriminate|reflexivity].
Qed.

(** Only the calls that move, add or rename a job file change the job
    folders. *)
Lemma effect_jobs e st :
  is_job_transition e = false ->
  LoadStorage.jobs (effect e st) = LoadStorage.jobs st.
Proof.
  destruct e; simpl; try reflexivity; try discriminate.
  unfold LoadStorage.complete_load_package.
  destruct (_ || _); reflexivity.
Qed.

Lemma run_storage_jobs evs :
  forall st,
    forallb (fun e => negb (is_job_transition e)) evs = true ->
    LoadStorage.jobs (run_storage evs st) = LoadStorage.jobs st.
Proof.
  induction evs as [|e evs IH]; intros st H; simpl in *; [reflexivity|].
  apply andb_true_iff in H as [He Hevs].
  unfold run_storage in IH. rewrite IH by exact Hevs.
  apply effect_jobs. destruct (is_job_transition e);
    [discriminate|reflexivity].
Qed.

Lemma changes_no_event_storage w w' :
  changes no_event w w' ->
  storage w' = storage w /\ trace w' = trace w /\ clock w' = clock w.
Proof.
  intros [(evs & Hp & Ht & Hs & Hc) _].
  destruct evs as [|e evs]; [|discriminate].
  rewrite app_nil_r in Ht. auto.
Qed.

(** ** The driver: when the package is archived *)

Lemma load_single_package_unfold fuel self load_id w :
  load_single_package fuel self load_id w
  = match jobs_found self load_id w with
    | (Return (jobs_count, jobs), w1) =>
        if Nat.eqb jobs_count 0
        then complete_package self load_id false w1
        else poll_loop fuel self load_id jobs w1
    | (Raise e, w1) => (Raise e, w1)
    | (Diverge, w1) => (Diverge, w1)
    end.
Proof.
  unfold load_single_package, jobs_found, bind.
  destruct (update_schema self load_id w) as [[[]|e|] w0]; try reflexivity.
  destruct (retrieve_or_spool self load_id w0) as [[[n jobs]|e|] w1];
    try reflexivity.
  destruct (Nat.eqb n 0); reflexivity.
Qed.

Lemma frame_jobs_found self load_id :
  frame (changes (fun e => negb (is_package_completion e)))
    (jobs_found self load_id).
Proof.
  unfold jobs_found. frame_step.
  - eapply frame_weaken; [|apply frame_update_schema].
    intros []; simpl; auto; discriminate.
  - eapply frame_weaken; [|apply frame_retrieve_or_spool].
    intros []; simpl; auto; discriminate.
Qed.

(** C1, as the code has it.  A run of [load_single_package] that enters the
    poll loop and leaves it without an exception does not call
    [complete_package]: the package is left unarchived, and [new_jobs] may
    still hold files.  The package is archived with [aborted=false], with
    [new_jobs] and [started_jobs] empty, in the runs that find no job to
    retrieve or to spool. *)
Theorem load_single_package_archives_only_without_jobs
    fuel self load_id w jobs_count jobs w1 w' :
  jobs_found self load_id w = (Return (jobs_count, jobs), w1) ->
  load_single_package fuel self load_id w = (Return tt, w') ->
  (jobs_count <> 0 ->
   LoadStorage.archived (storage w') = LoadStorage.archived (storage w)
   /\ exists evs,
       trace w' = trace w ++ evs
       /\ forallb (fun e => negb (is_package_completion e)) evs = true)
  /\ (jobs_count = 0 ->
      LoadStorage.archived (storage w') = Some false
      /\ trace w'
         = trace w1 ++ [EvCompleteLoad load_id;
                         EvCompleteLoadPackage load_id false;
                         EvLoadCounterInc]
      /\ LoadStorage.list_new_jobs (storage w') = []
      /\ LoadStorage.list_started_jobs (storage w') = []).
Proof.
  intros Hfound Hrun. rewrite load_single_package_unfold, Hfound in Hrun.
  pose proof (frame_jobs_found _ _ _ _ _ Hfound) as C1.
  split.
  - intros Hn. apply Nat.eqb_neq in Hn. rewrite Hn in Hrun.
    apply poll_loop_returns in Hrun.
    assert (C : changes (fun e => negb (is_package_completion e)) w w').
    { eapply changes_trans; [exact C1|].
      eapply changes_weaken; [|exact Hrun].
      intros []; simpl; auto; discriminate. }
    destruct C as [(evs & Hp & Ht & Hs & _) _]. split.
    + rewrite Hs. apply run_storage_archived, Hp.
    + exists evs. auto.
  - intros ->. simpl in Hrun.
    apply complete_package_not_aborted in Hrun as [Ht Hr].
    unfold LoadStorage.archivable in *.
    destruct (LoadStorage.list_new_jobs (storage w1)) eqn:Hnew;
      [|destruct Hr; discriminate].
    destruct (LoadStorage.list_started_jobs (storage w1)) eqn:Hst;
      [|destruct Hr; discriminate].
    destruct Hr as (_ & Ha & Hj). repeat split; auto.
    + unfold LoadStorage.list_new_jobs, LoadStorage.list_folder in *.
      rewrite Hj. exact Hnew.
    + unfold LoadStorage.list_started_jobs, LoadStorage.list_folder in *.
      rewrite Hj. exact Hst.
Qed.

Lemma load_single_package_archives_only_without_jobs_witness :
  LoadStorage.archived
    (storage
       (snd (load_single_package 5 (Sample.loader 1 false completed "")
               Sample.load_id Sample.two_items_world)))
  = LoadStorage.archived (storage Sample.two_items_world).
Proof.
  refine
    (proj1
       (proj1
          (load_single_package_archives_only_without_jobs 5
             (Sample.loader 1 false completed "") Sample.load_id
             Sample.two_items_world 1 _ _ _ _ _)
          _)).
  - vm_compute. reflexivity.
  - vm_compute. reflexivity.
  - discriminate.
Defined.

(** C1 as stated fails: with one worker and two files in [new_jobs], the
    run enters the poll loop, the one job that is polled completes, and the
    run returns with the package not archived and a file left in
    [new_jobs]. *)
Lemma load_single_package_archives_after_poll_counterexample :
  fst (jobs_found (Sample.loader 1 false completed "") Sample.load_id
         Sample.two_items_world)
  = Return
      (1, [Sample.job_of completed "" true Sample.items_file])
  /\ fst (load_single_package 5 (Sample.loader 1 false completed "")
            Sample.load_id Sample.two_items_world)
     = Return tt
  /\ LoadStorage.archived
       (storage
          (snd (load_single_package 5 (Sample.loader 1 false completed "")
                  Sample.load_id Sample.two_items_world)))
     = None
  /\ LoadStorage.list_new_jobs
       (storage
          (snd (load_single_package 5 (Sample.loader 1 false completed "")
                  Sample.load_id Sample.two_items_world)))
     = [Sample.items_file'].
Proof. vm_compute. repeat split; reflexivity. Qed.

(** ** The poll loop, pass by pass *)

Lemma complete_jobs_app self load_id pre rest :
  forall w queued w1,
    complete_jobs self load_id pre w = (Return queued, w1) ->
    complete_jobs self load_id (pre ++ rest) w
    = match complete_jobs self load_id rest w1 with
      | (Return queued', w2) => (Return (queued ++ queued'), w2)
      | other => other
      end.
Proof.
  induction pre as [|job pre IH]; intros w queued w1 H; simpl in *.
  - injection H as <- <-. simpl.
    destruct (complete_jobs self load_id rest w) as [[q|e|] w2]; reflexivity.
  - unfold bind in *.
    destruct (complete_jobs_turn self load_id job w) as [[q1|e|] wa];
      try discriminate.
    destruct (complete_jobs self load_id pre wa) as [[q2|e|] wb] eqn:E;
      try discriminate.
    injection H as <- <-. rewrite (IH _ _ _ E).
    destruct (complete_jobs self load_id rest wb) as [[q|e|] w2];
      try reflexivity.
    simpl. rewrite app_assoc. reflexivity.
Qed.

Lemma poll_loop_reaches self load_id k jobs w jobs' w' :
  reaches_pass self load_id k jobs w jobs' w' ->
  forall fuel,
    poll_loop (k + fuel) self load_id jobs w
    = poll_loop fuel self load_id jobs' w'.
Proof.
  induction 1 as [|k jobs w remaining w1 jobs' w' Hc Hne _ IH]; intros fuel;
    [reflexivity|].
  rewrite <- IH. simpl.
  unfold bind at 1. unfold try_except. unfold bind at 1. rewrite Hc.
  destruct remaining as [|j remaining]; [congruence|]. reflexivity.
Qed.

(** The turn of a failed job when [raise_on_failed_jobs] is set. *)
Lemma complete_jobs_turn_failed_raises self load_id job w :
  raise_on_failed_jobs (config self) = true ->
  LoadJob.state job (clock w) = failed ->
  complete_jobs_turn self load_id job w
  = (Raise (LoadClientJobFailed load_id (LoadJob.job_id job)
              (LoadJob.exception job)),
     mkWorld
       (LoadStorage.fail_job (LoadJob.file_name job) (LoadJob.exception job)
          (storage w))
       (tables w) (clock w)
       (trace w ++ [EvFailJob (LoadJob.file_name job)
                      (LoadJob.exception job)])).
Proof.
  intros Hflag Hstate.
  unfold complete_jobs_turn, bind, get_clock. simpl.
  rewrite Hstate, Hflag. reflexivity.
Qed.

(** The pass in which [complete_jobs] raises the package-fatal error. *)
Lemma poll_loop_job_failed fuel self load_id jobs w l j m w2 :
  complete_jobs self load_id jobs w
  = (Raise (LoadClientJobFailed l j m), w2) ->
  poll_loop (S fuel) self load_id jobs w
  = (Raise (LoadClientJobFailed l j m),
     mkWorld (archived_as true (storage w2)) (tables w2) (clock w2)
       (trace w2 ++ [EvCompleteLoadPackage load_id true; EvLoadCounterInc])).
Proof.
  intros H. simpl.
  unfold bind at 1. unfold try_except. unfold bind at 1. rewrite H. simpl.
  rewrite <- app_assoc. reflexivity.
Qed.

(** ** C3: a failed job under [raise_on_failed_jobs] *)

(** C3.  When a pass of the poll loop reaches a job whose [state()] is
    [failed] and [raise_on_failed_jobs] is set, the run of
    [load_single_package] first calls [fail_job] with the message of the job,
    then completes the package with [aborted=true], without a call to
    [complete_load], and ends in the [LoadClientJobFailed] error that carries
    the load id and the retry-insensitive id of the job. *)
Theorem failed_job_aborts_package
    self load_id w jobs_count jobs0 w0 k pre job post wk queued w1 fuel :
  raise_on_failed_jobs (config self) = true ->
  jobs_found self load_id w = (Return (jobs_count, jobs0), w0) ->
  jobs_count <> 0 ->
  reaches_pass self load_id k jobs0 w0 (pre ++ job :: post) wk ->
  complete_jobs self load_id pre wk = (Return queued, w1) ->
  LoadJob.state job (clock w1) = failed ->
  load_single_package (k + S fuel) self load_id w
  = (Raise (LoadClientJobFailed load_id
              (ParsedLoadJobFileName.job_id (LoadJob.file_name job))
              (LoadJob.exception job)),
     mkWorld
       (archived_as true
          (LoadStorage.fail_job (LoadJob.file_name job)
             (LoadJob.exception job) (storage w1)))
       (tables w1) (clock w1)
       (trace w1
        ++ [EvFailJob (LoadJob.file_name job) (LoadJob.exception job);
            EvCompleteLoadPackage load_id true;
            EvLoadCounterInc])).
Proof.
  intros Hflag Hfound Hn Hreach Hpre Hstate.
  rewrite load_single_package_unfold, Hfound.
  apply Nat.eqb_neq in Hn. rewrite Hn.
  rewrite (poll_loop_reaches _ _ _ _ _ _ _ Hreach).
  pose proof (complete_jobs_app self load_id pre (job :: post) _ _ _ Hpre)
    as E.
  simpl in E. unfold bind at 1 in E.
  rewrite (complete_jobs_turn_failed_raises _ _ _ _ Hflag Hstate) in E.
  rewrite (poll_loop_job_failed _ _ _ _ _ _ _ _ _ E). simpl.
  rewrite <- ?app_assoc. reflexivity.
Qed.

Lemma failed_job_aborts_package_witness :
  fst (load_single_package 1 (Sample.loader 4 true failed "bad row")
         Sample.load_id Sample.two_items_world)
  = Raise (LoadClientJobFailed Sample.load_id "items.c3" "bad row").
Proof.
  refine
    (f_equal fst
       (failed_job_aborts_package
          (Sample.loader 4 true failed "bad row") Sample.load_id
          Sample.two_items_world 2
          [Sample.job_of failed "bad row" true Sample.items_file;
           Sample.job_of failed "bad row" true Sample.items_file']
          _ 0 []
          (Sample.job_of failed "bad row" true Sample.items_file)
          [Sample.job_of failed "bad row" true Sample.items_file']
          _ [] _ 0 _ _ _ _ _ _)).
  - reflexivity.
  - vm_compute. reflexivity.
  - discriminate.
  - apply reaches_first.
  - reflexivity.
  - reflexivity.
Defined.

(** ** The turn of a completed job *)

Lemma place_followup_jobs_spec followup_jobs :
  forall w,
    place_followup_jobs followup_jobs w
    = (Return (requeued (clock w) followup_jobs),
       mkWorld
         (run_storage (map (placement (clock w)) followup_jobs) (storage w))
         (tables w) (clock w)
         (trace w ++ map (placement (clock w)) followup_jobs)).
Proof.
  induction followup_jobs as [|j js IH]; intros w.
  - simpl. unfold ret. rewrite app_nil_r. destruct w; reflexivity.
  - simpl. unfold bind, get_clock, act. rewrite IH.
    unfold requeued, placement, followup_folder, ret. simpl.
    rewrite <- app_assoc. simpl.
    destruct (NewLoadJob.state j (clock w)); reflexivity.
Qed.

Lemma run_clock_no_sleep evs :
  forall now,
    forallb (fun e => match e with EvSleep => false | _ => true end) evs
    = true ->
    run_clock evs now = now.
Proof.
  induction evs as [|e evs IH]; intros now H; simpl in *; [reflexivity|].
  apply andb_true_iff in H as [He Hevs].
  unfold run_clock in IH. rewrite IH by exact Hevs.
  destruct e; try reflexivity; discriminate.
Qed.

Lemma create_followup_jobs_clock self load_id state job w r w1 :
  create_followup_jobs self load_id state job w = (r, w1) ->
  clock w1 = clock w.
Proof.
  intros H. apply frame_create_followup_jobs in H.
  destruct H as [(evs & Hp & _ & _ & Hc) _]. rewrite Hc.
  apply run_clock_no_sleep. rewrite forallb_forall in *.
  intros e He. specialize (Hp e He). destruct e; try reflexivity.
  discriminate.
Qed.

Lemma complete_jobs_turn_completed self load_id job w followup_jobs w1 :
  LoadJob.state job (clock w) = completed ->
  create_followup_jobs self load_id completed job w
  = (Return followup_jobs, w1) ->
  complete_jobs_turn self load_id job w
  = (Return (requeued (clock w) followup_jobs),
     mkWorld
       (LoadStorage.complete_job (LoadJob.file_name job)
          (run_storage (map (placement (clock w)) followup_jobs)
             (storage w1)))
       (tables w1) (clock w)
       (trace w1
        ++ map (placement (clock w)) followup_jobs
        ++ EvCompleteJob (LoadJob.file_name job)
           :: terminal_metrics completed
                (completed_jobs, LoadJob.file_name job))).
Proof.
  intros Hstate Hf.
  pose proof (create_followup_jobs_clock _ _ _ _ _ _ _ Hf) as Hclock.
  unfold complete_jobs_turn. unfold bind at 1. unfold get_clock.
  rewrite Hstate. unfold bind at 1. unfold bind at 1. rewrite Hf.
  unfold bind at 1. rewrite place_followup_jobs_spec. rewrite Hclock.
  unfold bind, act, ret. simpl.
  rewrite <- !app_assoc. simpl. reflexivity.
Qed.

(** ** C5: where followup jobs go *)

(** C5.  In the turn of a completed job, every followup job is added to the
    package before the file of the completing job is moved to
    [completed_jobs]: a followup job that advertises [running] is added to
    [new_jobs] and does not join the remaining set, any other is added to
    [started_jobs] and joins the remaining set of the pass. *)
Theorem followup_jobs_are_placed_before_completion
    self load_id pre job post w queued w0 followup_jobs w1 queued' w3 :
  complete_jobs self load_id pre w = (Return queued, w0) ->
  LoadJob.state job (clock w0) = completed ->
  create_followup_jobs self load_id completed job w0
  = (Return followup_jobs, w1) ->
  complete_jobs self load_id post
    (mkWorld
       (LoadStorage.complete_job (LoadJob.file_name job)
          (run_storage (map (placement (clock w0)) followup_jobs)
             (storage w1)))
       (tables w1) (clock w0)
       (trace w1
        ++ map (placement (clock w0)) followup_jobs
        ++ EvCompleteJob (LoadJob.file_name job)
           :: terminal_metrics completed
                (completed_jobs, LoadJob.file_name job)))
  = (Return queued', w3) ->
  complete_jobs self load_id (pre ++ job :: post) w
  = (Return (queued ++ requeued (clock w0) followup_jobs ++ queued'), w3)
  /\ (forall j, In j followup_jobs ->
        match NewLoadJob.state j (clock w0) with
        | running =>
            placement (clock w0) j
            = EvAddNewJob (NewLoadJob.new_file_path j) new_jobs
        | _ =>
            placement (clock w0) j
            = EvAddNewJob (NewLoadJob.new_file_path j) started_jobs
            /\ In (NewLoadJob.job j) (requeued (clock w0) followup_jobs)
        end)
  /\ (forall l, In l (requeued (clock w0) followup_jobs) ->
        exists j, In j followup_jobs /\ l = NewLoadJob.job j
                  /\ NewLoadJob.state j (clock w0) <> running).
Proof.
  intros Hpre Hstate Hf Hpost. split; [|split].
  - rewrite (complete_jobs_app _ _ _ _ _ _ _ Hpre). simpl.
    unfold bind at 1.
    rewrite (complete_jobs_turn_completed _ _ _ _ _ _ Hstate Hf).
    unfold bind at 1. rewrite Hpost. reflexivity.
  - intros j Hj. unfold placement, followup_folder, requeued.
    destruct (NewLoadJob.state j (clock w0)) eqn:E; try reflexivity;
      (split; [reflexivity|]); apply in_map, filter_In;
      rewrite E; auto.
  - intros l Hl. unfold requeued in Hl. apply in_map_iff in Hl.
    destruct Hl as (j & <- & Hj). apply filter_In in Hj as [Hj Hs].
    exists j. repeat split; auto. intros E. rewrite E in Hs. discriminate.
Qed.

Lemma followup_jobs_are_placed_before_completion_witness :
  fst (complete_jobs (Sample.loader 4 false completed "") Sample.load_id
         [Sample.job_of completed "" true Sample.orders_file]
         Sample.merge_ready_world)
  = Return
      [Sample.job_of completed "" false
         (ParsedLoadJobFileName.mk "orders" "merge" 0 "sql")].
Proof.
  pose (self := Sample.loader 4 false completed "").
  pose (job := Sample.job_of completed "" true Sample.orders_file).
  pose (run := create_followup_jobs self Sample.load_id completed job
                 Sample.merge_ready_world).
  pose (followup_jobs :=
          [client_create_merge_job (destination self)
             [Sample.orders; Sample.orders__items]]).
  assert (E : run = (Return followup_jobs, snd run))
    by (vm_compute; reflexivity).
  exact
    (f_equal fst
       (proj1
          (followup_jobs_are_placed_before_completion self Sample.load_id
             [] job [] Sample.merge_ready_world [] Sample.merge_ready_world
             followup_jobs (snd run) [] _
             eq_refl eq_refl E eq_refl))).
Defined.

(** ** C8: the metrics of a terminal transition *)

Lemma complete_jobs_turn_failed_logged self load_id job w :
  raise_on_failed_jobs (config self) = false ->
  LoadJob.state job (clock w) = failed ->
  complete_jobs_turn self load_id job w
  = (Return [],
     mkWorld
       (LoadStorage.fail_job (LoadJob.file_name job) (LoadJob.exception job)
          (storage w))
       (tables w) (clock w)
       (trace w
        ++ EvFailJob (LoadJob.file_name job) (LoadJob.exception job)
           :: terminal_metrics failed (failed_jobs, LoadJob.file_name job))).
Proof.
  intros Hflag Hstate.
  unfold complete_jobs_turn, bind, get_clock. simpl.
  rewrite Hstate, Hflag. simpl. rewrite <- !app_assoc. reflexivity.
Qed.

(** C8, as the code has it.  A terminal transition in [complete_jobs] is
    followed at once by the increment of the gauge and of the counter of the
    state and by the observation of the wait of the job, except for a failed
    job when [raise_on_failed_jobs] is set: its file is moved to
    [failed_jobs], the package-fatal error is raised, and no metric is
    updated. *)
Theorem terminal_transition_metrics self load_id job w :
  (LoadJob.state job (clock w) = failed ->
   raise_on_failed_jobs (config self) = false ->
   trace (snd (complete_jobs_turn self load_id job w))
   = trace w
     ++ EvFailJob (LoadJob.file_name job) (LoadJob.exception job)
        :: terminal_metrics failed (failed_jobs, LoadJob.file_name job))
  /\ (LoadJob.state job (clock w) = failed ->
      raise_on_failed_jobs (config self) = true ->
      complete_jobs_turn self load_id job w
      = (Raise (LoadClientJobFailed load_id (LoadJob.job_id job)
                  (LoadJob.exception job)),
         mkWorld
           (LoadStorage.fail_job (LoadJob.file_name job)
              (LoadJob.exception job) (storage w))
           (tables w) (clock w)
           (trace w ++ [EvFailJob (LoadJob.file_name job)
                          (LoadJob.exception job)])))
  /\ (LoadJob.state job (clock w) = completed ->
      forall followup_jobs w1,
        create_followup_jobs self load_id completed job w
        = (Return followup_jobs, w1) ->
        trace (snd (complete_jobs_turn self load_id job w))
        = trace w1
          ++ map (placement (clock w)) followup_jobs
          ++ EvCompleteJob (LoadJob.file_name job)
             :: terminal_metrics completed
                  (completed_jobs, LoadJob.file_name job)).
Proof.
  split; [|split].
  - intros Hstate Hflag.
    rewrite (complete_jobs_turn_failed_logged _ _ _ _ Hflag Hstate).
    reflexivity.
  - intros Hstate Hflag.
    apply complete_jobs_turn_failed_raises; assumption.
  - intros Hstate followup_jobs w1 Hf.
    rewrite (complete_jobs_turn_completed _ _ _ _ _ _ Hstate Hf).
    reflexivity.
Qed.

Lemma terminal_transition_metrics_witness :
  trace
    (snd (complete_jobs_turn (Sample.loader 4 false failed "bad row")
            Sample.load_id
            (Sample.job_of failed "bad row" false Sample.items_file)
            Sample.started_items_world))
  = [EvFailJob Sample.items_file "bad row";
     EvGaugeInc "failed" 1; EvCounterInc "failed" 1;
     EvObserveWait (Some (failed_jobs, Sample.items_file))].
Proof.
  exact
    (proj1
       (terminal_transition_metrics (Sample.loader 4 false failed "bad row")
          Sample.load_id
          (Sample.job_of failed "bad row" false Sample.items_file)
          Sample.started_items_world)
       eq_refl eq_refl).
Defined.

(** C8 as stated fails: with [raise_on_failed_jobs] set, the turn of a
    failed job moves the file to [failed_jobs] and updates no metric. *)
Lemma terminal_transition_metrics_counterexample :
  LoadStorage.list_started_jobs (storage Sample.started_items_world)
  = [Sample.items_file]
  /\ LoadStorage.list_failed_jobs
       (storage
          (snd (complete_jobs_turn (Sample.loader 4 true failed "bad row")
                  Sample.load_id
                  (Sample.job_of failed "bad row" false Sample.items_file)
                  Sample.started_items_world)))
     = [Sample.items_file]
  /\ existsb is_job_metric_event
       (trace
          (snd (complete_jobs_turn (Sample.loader 4 true failed "bad row")
                  Sample.load_id
                  (Sample.job_of failed "bad row" false Sample.items_file)
                  Sample.started_items_world)))
     = false.
Proof. vm_compute. repeat split; reflexivity. Qed.

(** ** The disposition filter of [get_jobs_info] *)

(** The write disposition [get_load_table] answers with is the resolved
    one, also once earlier calls have filled in the schema. *)
Lemma get_load_table_resolved ts0 file_name w r w' :
  filled ts0 (tables w) ->
  get_load_table file_name w = (r, w') ->
  filled ts0 (tables w')
  /\ storage w' = storage w /\ trace w' = trace w /\ clock w' = clock w
  /\ match r with
     | Return tb =>
         exists wd,
           TTableSchema.write_disposition tb = Some wd
           /\ get_write_disposition ts0
                (ParsedLoadJobFileName.table_name file_name) = inr wd
     | Raise _ =>
         forall wd,
           get_write_disposition ts0
             (ParsedLoadJobFileName.table_name file_name) <> inr wd
     | Diverge => False
     end.
Proof.
  intros Hf H.
  pose proof (frame_get_load_table no_event _ _ _ _ H) as C.
  destruct (changes_no_event_storage _ _ C) as (Hs & Ht & Hc).
  destruct C as [_ Hfill].
  split; [eapply filled_trans; eauto|]. repeat (split; [assumption|]).
  pose proof (get_load_table_cases file_name w) as E. simpl in E.
  set (n := ParsedLoadJobFileName.table_name file_name) in *.
  destruct (get_table (tables w) n) as [tb|] eqn:Hg.
  - destruct (TTableSchema.write_disposition tb) as [x|] eqn:Hw.
    + rewrite E in H. injection H as <- <-. exists x. split; [exact Hw|].
      apply (get_write_disposition_filled _ _ n Hf).
      apply get_write_disposition_inherits. eapply inherits_own; eauto.
    + destruct (get_write_disposition (tables w) n) as [e|wd] eqn:Hr;
        rewrite E in H; injection H as <- <-.
      * intros wd Hwd.
        apply (get_write_disposition_filled _ _ n Hf) in Hwd. congruence.
      * exists wd. split; [reflexivity|].
        apply (get_write_disposition_filled _ _ n Hf). exact Hr.
  - rewrite E in H. injection H as <- <-. intros wd Hwd.
    apply (get_write_disposition_filled _ _ n Hf) in Hwd.
    unfold get_write_disposition in Hwd. simpl in Hwd.
    rewrite Hg in Hwd. discriminate.
Qed.

Lemma get_jobs_info_loop_filter d ts0 :
  d <> "" ->
  forall files w l w',
    filled ts0 (tables w) ->
    get_jobs_info_loop (Some d) files w = (Return l, w') ->
    l = filter (resolves_to ts0 d) files.
Proof.
  intros Hd. apply String.eqb_neq in Hd.
  induction files as [|f files IH]; intros w l w' Hf H; simpl in H.
  - injection H as <- _. reflexivity.
  - unfold not_disposition in H. rewrite Hd in H.
    unfold bind at 1 in H. unfold bind at 1 in H.
    destruct (get_load_table f w) as [[tb|e|] w1] eqn:E;
      try discriminate.
    destruct (get_load_table_resolved ts0 _ _ _ _ Hf E)
      as (Hf1 & _ & _ & _ & wd & Hw & Hr).
    unfold bind at 1 in H. unfold table_write_disposition in H.
    rewrite Hw in H. simpl in H. unfold bind at 1 in H.
    destruct (get_jobs_info_loop (Some d) files w1) as [[infos|e|] w2]
      eqn:E2; try discriminate.
    injection H as <- _. simpl. unfold resolves_to at 1. rewrite Hr.
    rewrite (IH _ _ _ Hf1 E2). reflexivity.
Qed.

Lemma get_jobs_info_loop_returns d ts0 :
  d <> "" ->
  forall files w,
    filled ts0 (tables w) ->
    (forall f, In f files ->
       exists wd,
         get_write_disposition ts0 (ParsedLoadJobFileName.table_name f)
         = inr wd) ->
    exists l w', get_jobs_info_loop (Some d) files w = (Return l, w').
Proof.
  intros Hd. apply String.eqb_neq in Hd.
  induction files as [|f files IH]; intros w Hf Hall; simpl.
  - eexists _, _. reflexivity.
  - unfold not_disposition. rewrite Hd.
    unfold bind at 1. unfold bind at 1.
    destruct (get_load_table f w) as [[tb|e|] w1] eqn:E.
    + destruct (get_load_table_resolved ts0 _ _ _ _ Hf E)
        as (Hf1 & _ & _ & _ & wd & Hw & Hr).
      unfold bind at 1. unfold table_write_disposition.
      rewrite Hw. simpl. unfold bind at 1.
      destruct (IH w1 Hf1) as (l & w' & E2).
      { intros f' Hf'. apply Hall. right. exact Hf'. }
      rewrite E2. eexists _, _. reflexivity.
    + destruct (get_load_table_resolved ts0 _ _ _ _ Hf E)
        as (_ & _ & _ & _ & Hno).
      destruct (Hall f (or_introl eq_refl)) as (wd & Hwd).
      exfalso. exact (Hno wd Hwd).
    + destruct (get_load_table_resolved ts0 _ _ _ _ Hf E)
        as (_ & _ & _ & _ & []).
Qed.

(** C9.  With a disposition argument, [get_jobs_info] answers the files of
    [new_jobs] whose table resolves to that write disposition: the table's
    own, or the one inherited from its parents when the table has none.  It
    answers as soon as the table of every file resolves. *)
Theorem get_jobs_info_filters_resolved_disposition d w :
  d <> "" ->
  (forall l w',
     get_jobs_info (Some d) w = (Return l, w') ->
     l = filter (resolves_to (tables w) d)
           (LoadStorage.list_new_jobs (storage w)))
  /\ ((forall f, In f (LoadStorage.list_new_jobs (storage w)) ->
         exists wd,
           get_write_disposition (tables w)
             (ParsedLoadJobFileName.table_name f) = inr wd) ->
      exists w',
        get_jobs_info (Some d) w
        = (Return (filter (resolves_to (tables w) d)
                     (LoadStorage.list_new_jobs (storage w))), w')).
Proof.
  intros Hd. unfold get_jobs_info, bind, get_storage. split.
  - intros l w' H.
    eapply get_jobs_info_loop_filter; eauto using filled_refl.
  - intros Hall.
    destruct (get_jobs_info_loop_returns d (tables w) Hd _ w
                (filled_refl _) Hall) as (l & w' & E).
    exists w'. rewrite E. f_equal. f_equal.
    eapply get_jobs_info_loop_filter; eauto using filled_refl.
Qed.

Lemma get_jobs_info_filters_resolved_disposition_witness :
  fst (get_jobs_info (Some "merge")
         (Sample.world
            [Sample.job_in new_jobs Sample.orders__items_file;
             Sample.job_in new_jobs Sample.items_file]))
  = Return [Sample.orders__items_file]
  /\ TTableSchema.write_disposition Sample.orders__items = None.
Proof.
  split; [|reflexivity].
  destruct
    (proj2
       (get_jobs_info_filters_resolved_disposition "merge"
          (Sample.world
             [Sample.job_in new_jobs Sample.orders__items_file;
              Sample.job_in new_jobs Sample.items_file])
          ltac:(discriminate))
       ltac:(intros f [<-|[<-|[]]]; eexists; vm_compute; reflexivity))
    as [w' E].
  exact (f_equal fst E).
Defined.

(** ** C7: what happens to the schema *)

Lemma frame_any (p : Event -> bool) {A} (c : M A) :
  frame (changes p) c -> frame (changes any_event) c.
Proof. apply frame_weaken. reflexivity. Qed.

Lemma frame_poll_loop fuel self load_id :
  forall jobs, frame (changes any_event) (poll_loop fuel self load_id jobs).
Proof.
  induction fuel as [|fuel IH]; intros jobs; simpl.
  - apply (frame_diverge _ (changes_refl _)).
  - frame_step.
    + frame_step.
      * frame_step; [apply (frame_any _ _ (frame_complete_jobs _ _ _))|].
        frame_auto.
      * destruct (is_LoadClientJobFailed e); [|frame_auto].
        frame_step; [|frame_auto].
        apply (frame_any _ _ (frame_complete_package _ _ _)).
    + destruct a; [apply IH|frame_auto].
Qed.

Lemma frame_load_single_package fuel self load_id :
  frame (changes any_event) (load_single_package fuel self load_id).
Proof.
  unfold load_single_package.
  frame_step; [apply (frame_any _ _ (frame_update_schema _ _))|].
  frame_step; [apply (frame_any _ _ (frame_retrieve_or_spool _ _))|].
  destruct a0 as [jobs_count jobs].
  destruct (Nat.eqb jobs_count 0).
  - apply (frame_any _ _ (frame_complete_package _ _ _)).
  - apply frame_poll_loop.
Qed.

Lemma get_jobs_info_loop_None files :
  forall w, get_jobs_info_loop None files w = (Return files, w).
Proof.
  induction files as [|f files IH]; intros w; simpl; [reflexivity|].
  unfold bind, ret. rewrite IH. reflexivity.
Qed.

Lemma changes_filled p w w' :
  changes p w w' -> filled (tables w) (tables w').
Proof. intros [_ H]. exact H. Qed.

(** C7, as the code has it.  The operations of the loader leave the tables
    of the schema as they are but for one thing: [get_load_table], and with
    it the spool worker, the followup planner, [get_jobs_info] with a
    disposition and the whole run, stores on a table that has no write
    disposition the one the table resolves to.  No name, no parent and no
    write disposition that is present changes, and every table resolves to
    the same write disposition as before.  Without a disposition,
    [get_jobs_info] leaves the schema untouched. *)
Theorem schema_is_only_filled_in :
  (forall file_name w r w',
      get_load_table file_name w = (r, w') ->
      filled (tables w) (tables w'))
  /\ (forall self file_path load_id w r w',
        w_spool_job self file_path load_id w = (r, w') ->
        filled (tables w) (tables w'))
  /\ (forall self load_id state job w r w',
        create_followup_jobs self load_id state job w = (r, w') ->
        filled (tables w) (tables w'))
  /\ (forall disposition w r w',
        get_jobs_info disposition w = (r, w') ->
        filled (tables w) (tables w'))
  /\ (forall fuel self load_id w r w',
        load_single_package fuel self load_id w = (r, w') ->
        filled (tables w) (tables w'))
  /\ (forall w, get_jobs_info None w
                 = (Return (LoadStorage.list_new_jobs (storage w)), w))
  /\ (forall ts ts',
        filled ts ts' ->
        forall n wd,
          get_write_disposition ts' n = inr wd
          <-> get_write_disposition ts n = inr wd).
Proof.
  split; [|split; [|split; [|split; [|split; [|split]]]]].
  - intros. eapply changes_filled, (frame_get_load_table no_event); eauto.
  - intros. eapply changes_filled, frame_w_spool_job; eauto.
  - intros. eapply changes_filled, frame_create_followup_jobs; eauto.
  - intros. eapply changes_filled, (frame_get_jobs_info no_event); eauto.
  - intros. eapply changes_filled, frame_load_single_package; eauto.
  - intros w. unfold get_jobs_info, bind, get_storage.
    apply get_jobs_info_loop_None.
  - intros ts ts' Hf n wd. apply get_write_disposition_filled. exact Hf.
Qed.

Lemma schema_is_only_filled_in_witness :
  filled Sample.schema_tables
    (tables (snd (get_load_table Sample.orders__items_file
                    (Sample.world [])))).
Proof.
  exact
    (proj1 schema_is_only_filled_in Sample.orders__items_file
       (Sample.world []) _ _ eq_refl).
Defined.

(** C7 as stated fails: looking up the table of a file of [orders__items],
    a child table without a write disposition of its own, changes the tables
    of the schema. *)
Lemma get_load_table_changes_schema_counterexample :
  tables (snd (get_load_table Sample.orders__items_file (Sample.world [])))
  = [Sample.orders;
     TTableSchema.mk "orders__items" (Some "orders") (Some "merge");
     Sample.items]
  /\ tables (snd (get_load_table Sample.orders__items_file
                    (Sample.world [])))
     <> tables (Sample.world []).
Proof.
  split; [vm_compute; reflexivity|]. vm_compute. discriminate.
Qed.

(** ** The followup planner *)

Lemma create_merge_job_cases self load_id top job w :
  create_merge_job self load_id top job w
  = match get_child_tables (tables w) (TTableSchema.name top) with
    | inl e => (Raise e, w)
    | inr child_tables =>
        match merge_table_chain (storage w) job child_tables with
        | None => (Return None, w)
        | Some table_chain =>
            if Nat.ltb 0 (List.length table_chain)
            then (Return
                    (Some (client_create_merge_job (destination self)
                             table_chain)),
                  mkWorld (storage w) (tables w) (clock w)
                    (trace w ++ [EvCreateMergeJob table_chain]))
            else (Raise AssertionError, w)
        end
    end.
Proof.
  unfold create_merge_job, bind, get_tables, get_storage. simpl.
  destruct (get_child_tables (tables w) _) as [e|child_tables]; simpl;
    [reflexivity|].
  destruct (merge_table_chain (storage w) job child_tables) as [tc|];
    [|reflexivity].
  destruct (Nat.ltb 0 (List.length tc)); reflexivity.
Qed.

Lemma create_followup_jobs_cases self load_id job w :
  LoadJob.is_followup_job job = true ->
  create_followup_jobs self load_id completed job w
  = match get_load_table (LoadJob.file_name job) w with
    | (Return table, w1) =>
        match get_top_level_table (tables w1) (TTableSchema.name table) with
        | inl e => (Raise e, w1)
        | inr top =>
            match TTableSchema.write_disposition top with
            | None => (Raise (KeyError "write_disposition"), w1)
            | Some wd =>
                if String.eqb wd "merge"
                then
                  match create_merge_job self load_id top job w1 with
                  | (Return (Some j), w2) => (Return [j], w2)
                  | (Return None, w2) => (Return [], w2)
                  | (Raise e, w2) => (Raise e, w2)
                  | (Diverge, w2) => (Diverge, w2)
                  end
                else (Return [], w1)
            end
        end
    | (Raise e, w1) => (Raise e, w1)
    | (Diverge, w1) => (Diverge, w1)
    end.
Proof.
  intros Hfollowup. unfold create_followup_jobs. rewrite Hfollowup. simpl.
  unfold bind at 1.
  destruct (get_load_table (LoadJob.file_name job) w) as [[table|e|] w1];
    try reflexivity.
  unfold bind at 1. unfold get_tables. unfold bind at 1.
  destruct (get_top_level_table (tables w1) _) as [e|top]; simpl;
    [reflexivity|].
  unfold bind at 1. unfold table_write_disposition.
  destruct (TTableSchema.write_disposition top) as [wd|]; simpl;
    [|reflexivity].
  destruct (String.eqb wd "merge"); [|reflexivity].
  unfold bind.
  destruct (create_merge_job self load_id top job w1) as [[[j|]|e|] w2];
    reflexivity.
Qed.

Lemma create_followup_jobs_skips self load_id state job w :
  LoadJob.is_followup_job job = false \/ state <> completed ->
  create_followup_jobs self load_id state job w = (Return [], w).
Proof.
  intros H. unfold create_followup_jobs.
  destruct (LoadJob.is_followup_job job); [|reflexivity].
  destruct H as [H|H]; [discriminate|].
  destruct state; try reflexivity. congruence.
Qed.

Lemma blocks_merge_false job info :
  blocks_merge job info = false <->
  is_terminal_folder (LoadJobInfo.state info) = true
  \/ ParsedLoadJobFileName.job_id (LoadJobInfo.job_file_info info)
     = LoadJob.job_id job.
Proof.
  unfold blocks_merge. rewrite andb_false_iff, !negb_false_iff.
  rewrite String.eqb_eq. reflexivity.
Qed.

Lemma merge_table_chain_Some st job child_tables :
  forall table_chain,
    merge_table_chain st job child_tables = Some table_chain ->
    (forall tb info,
        In tb child_tables ->
        In info (LoadStorage.list_jobs_for_table (TTableSchema.name tb) st) ->
        blocks_merge job info = false)
    /\ (forall tb,
          In tb child_tables ->
          LoadStorage.list_jobs_for_table (TTableSchema.name tb) st <> [] ->
          In tb table_chain).
Proof.
  induction child_tables as [|table rest IH]; intros tc H; simpl in H.
  - split; intros tb; intros; contradiction.
  - destruct (LoadStorage.list_jobs_for_table (TTableSchema.name table) st)
      as [|i is_] eqn:Hj.
    + destruct (IH _ H) as [IH1 IH2]. split.
      * intros tb info [<-|Hin] Hinfo; [|eauto].
        rewrite Hj in Hinfo. contradiction.
      * intros tb [<-|Hin] Hne; [congruence|eauto].
    + change (blocks_merge job i || existsb (blocks_merge job) is_)
        with (existsb (blocks_merge job) (i :: is_)) in H.
      destruct (existsb (blocks_merge job) (i :: is_)) eqn:Hb;
        [discriminate|].
      destruct (merge_table_chain st job rest) as [tc'|]; [|discriminate].
      injection H as <-. destruct (IH _ eq_refl) as [IH1 IH2]. split.
      * intros tb info [<-|Hin] Hinfo; [|eauto].
        rewrite Hj in Hinfo.
        destruct (blocks_merge job info) eqn:E; [|reflexivity].
        assert (existsb (blocks_merge job) (i :: is_) = true)
          by (apply existsb_exists; eauto).
        congruence.
      * intros tb [<-|Hin] Hne; [left; reflexivity|right; eauto].
Qed.

(** The chain handed to the destination: the tables that have jobs. *)
Lemma merge_table_chain_filter st job child_tables :
  forall table_chain,
    merge_table_chain st job child_tables = Some table_chain ->
    table_chain
    = filter
        (fun tb =>
           match LoadStorage.list_jobs_for_table (TTableSchema.name tb) st
           with
           | [] => false
           | _ => true
           end)
        child_tables.
Proof.
  induction child_tables as [|tb rest IH]; intros tc H; simpl in *.
  - injection H as <-. reflexivity.
  - destruct (LoadStorage.list_jobs_for_table (TTableSchema.name tb) st)
      as [|i is_]; [auto|].
    destruct (_ || _); [discriminate|].
    destruct (merge_table_chain st job rest) as [tc'|]; [|discriminate].
    injection H as <-. f_equal. auto.
Qed.

Lemma merge_table_chain_None st job child_tables tb info :
  In tb child_tables ->
  In info (LoadStorage.list_jobs_for_table (TTableSchema.name tb) st) ->
  blocks_merge job info = true ->
  merge_table_chain st job child_tables = None.
Proof.
  intros Hin Hinfo Hb.
  destruct (merge_table_chain st job child_tables) as [tc|] eqn:E;
    [|reflexivity].
  destruct (merge_table_chain_Some _ _ _ _ E) as [H _].
  rewrite (H _ _ Hin Hinfo) in Hb. discriminate.
Qed.

Lemma get_load_table_storage file_name w r w' :
  get_load_table file_name w = (r, w') -> storage w' = storage w.
Proof.
  intros H. apply (frame_get_load_table no_event) in H.
  apply changes_no_event_storage in H. apply H.
Qed.

(** ** C2: the chain gate of the merge followup *)

(** C2.  [create_followup_jobs] answers a merge job only for a followup job
    that completes, whose top-level table has write disposition [merge],
    and only if every job of every table of the chain of that top-level
    table is in [completed_jobs] or [failed_jobs] or has the job id of the
    completing job.  If some job of the chain is in neither terminal folder
    and has another job id, it answers no followup job. *)
Theorem merge_followup_requires_drained_chain self load_id state job w :
  (forall m ms w',
      create_followup_jobs self load_id state job w
      = (Return (m :: ms), w') ->
      ms = []
      /\ LoadJob.is_followup_job job = true
      /\ state = completed
      /\ exists table w1 top child_tables,
          get_load_table (LoadJob.file_name job) w = (Return table, w1)
          /\ get_top_level_table (tables w1) (TTableSchema.name table)
             = inr top
          /\ TTableSchema.write_disposition top = Some "merge"
          /\ get_child_tables (tables w1) (TTableSchema.name top)
             = inr child_tables
          /\ m = client_create_merge_job (destination self)
                   (filter
                      (fun tb =>
                         match LoadStorage.list_jobs_for_table
                                 (TTableSchema.name tb) (storage w) with
                         | [] => false
                         | _ => true
                         end)
                      child_tables)
          /\ forall tb info,
              In tb child_tables ->
              In info (LoadStorage.list_jobs_for_table
                         (TTableSchema.name tb) (storage w)) ->
              is_terminal_folder (LoadJobInfo.state info) = true
              \/ ParsedLoadJobFileName.job_id
                   (LoadJobInfo.job_file_info info)
                 = LoadJob.job_id job)
  /\ (forall table w1 top child_tables tb info,
        LoadJob.is_followup_job job = true ->
        state = completed ->
        get_load_table (LoadJob.file_name job) w = (Return table, w1) ->
        get_top_level_table (tables w1) (TTableSchema.name table)
        = inr top ->
        TTableSchema.write_disposition top = Some "merge" ->
        get_child_tables (tables w1) (TTableSchema.name top)
        = inr child_tables ->
        In tb child_tables ->
        In info (LoadStorage.list_jobs_for_table (TTableSchema.name tb)
                   (storage w)) ->
        is_terminal_folder (LoadJobInfo.state info) = false ->
        ParsedLoadJobFileName.job_id (LoadJobInfo.job_file_info info)
        <> LoadJob.job_id job ->
        create_followup_jobs self load_id state job w = (Return [], w1)).
Proof.
  split.
  - intros m ms w' H.
    destruct (LoadJob.is_followup_job job) eqn:Hfollowup;
      [|rewrite create_followup_jobs_skips in H by auto; discriminate].
    assert (Hstate : state = completed).
    { destruct state; try reflexivity;
        rewrite create_followup_jobs_skips in H
          by (right; discriminate); discriminate. }
    subst state. rewrite (create_followup_jobs_cases _ _ _ _ Hfollowup) in H.
    destruct (get_load_table (LoadJob.file_name job) w)
      as [[table|e|] w1] eqn:Hload; try discriminate.
    pose proof (get_load_table_storage _ _ _ _ Hload) as Hst.
    destruct (get_top_level_table (tables w1) (TTableSchema.name table))
      as [e|top] eqn:Htop; [discriminate|].
    destruct (TTableSchema.write_disposition top) as [wd|] eqn:Hwd;
      [|discriminate].
    destruct (String.eqb wd "merge") eqn:Hmerge; [|discriminate].
    apply String.eqb_eq in Hmerge. subst wd.
    rewrite create_merge_job_cases in H.
    destruct (get_child_tables (tables w1) (TTableSchema.name top))
      as [e|child_tables] eqn:Hchain; [discriminate|].
    destruct (merge_table_chain (storage w1) job child_tables)
      as [tc|] eqn:Hmc; [|discriminate].
    destruct (Nat.ltb 0 (List.length tc)); [|discriminate].
    injection H as <- <- _.
    repeat (split; [reflexivity|]).
    exists table, w1, top, child_tables.
    repeat (split; [assumption || reflexivity|]).
    rewrite <- Hst. split.
    + f_equal. eapply merge_table_chain_filter, Hmc.
    + intros tb info Hin Hinfo. apply blocks_merge_false.
      eapply (proj1 (merge_table_chain_Some _ _ _ _ Hmc)); eauto.
  - intros table w1 top child_tables tb info Hfollowup -> Hload Htop Hwd
      Hchain Hin Hinfo Hterm Hid.
    rewrite (create_followup_jobs_cases _ _ _ _ Hfollowup), Hload, Htop, Hwd.
    simpl. rewrite create_merge_job_cases, Hchain.
    rewrite (merge_table_chain_None _ _ _ tb info); auto.
    + rewrite (get_load_table_storage _ _ _ _ Hload). exact Hinfo.
    + unfold blocks_merge. rewrite Hterm. simpl.
      apply negb_true_iff, String.eqb_neq. exact Hid.
Qed.

Lemma merge_followup_requires_drained_chain_witness :
  fst (create_followup_jobs (Sample.loader 4 false completed "")
         Sample.load_id completed
         (Sample.job_of completed "" true Sample.orders_file)
         Sample.merge_blocked_world)
  = Return [].
Proof.
  exact
    (f_equal fst
       (proj2
          (merge_followup_requires_drained_chain
             (Sample.loader 4 false completed "") Sample.load_id completed
             (Sample.job_of completed "" true Sample.orders_file)
             Sample.merge_blocked_world)
          Sample.orders Sample.merge_blocked_world Sample.orders
          [Sample.orders; Sample.orders__items] Sample.orders__items
          (Sample.job_in started_jobs Sample.orders__items_file)
          eq_refl eq_refl eq_refl eq_refl eq_refl eq_refl
          (or_intror (or_introl eq_refl)) (or_introl eq_refl) eq_refl
          ltac:(discriminate))).
Defined.

(** ** The table chain of the completing job *)

Lemma concat_results_inr {A B} (f : A -> exn + list B) (l : list A) :
  forall xs,
    concat_results (map f l) = inr xs ->
    forall a, In a l -> exists x, f a = inr x /\ incl x xs.
Proof.
  induction l as [|a0 l IH]; intros xs H a Ha; simpl in *; [contradiction|].
  destruct (f a0) as [e|x0] eqn:E0; [discriminate|].
  destruct (concat_results (map f l)) as [e|xs'] eqn:E; [discriminate|].
  injection H as <-. destruct Ha as [<-|Ha].
  - exists x0. split; [exact E0|]. apply incl_appl, incl_refl.
  - destruct (IH _ eq_refl a Ha) as (x & Hx & Hincl).
    exists x. split; [exact Hx|]. apply incl_appr, Hincl.
Qed.

Lemma concat_results_In {A B} (f : A -> exn + list B) (l : list A) :
  forall xs y,
    concat_results (map f l) = inr xs -> In y xs ->
    exists a x, In a l /\ f a = inr x /\ In y x.
Proof.
  induction l as [|a0 l IH]; intros xs y H Hy; simpl in *.
  - injection H as <-. contradiction.
  - destruct (f a0) as [e|x0] eqn:E0; [discriminate|].
    destruct (concat_results (map f l)) as [e|xs'] eqn:E; [discriminate|].
    injection H as <-. apply in_app_or in Hy as [Hy|Hy].
    + exists a0, x0. auto.
    + destruct (IH _ _ eq_refl Hy) as (a & x & Ha & Hx & Hin).
      exists a, x. auto.
Qed.

(** The list of [get_child_tables] holds its root and, with a table, the
    tables whose parent it is. *)
Lemma get_child_tables_rec_closed fuel ts :
  forall top chain,
    get_child_tables_rec fuel ts top = inr chain ->
    In top chain
    /\ forall y c,
        In y chain -> In c ts ->
        TTableSchema.parent c = Some (TTableSchema.name y) ->
        In c chain.
Proof.
  induction fuel as [|fuel IH]; intros top chain H; simpl in H;
    [discriminate|].
  destruct (concat_results _) as [e|below] eqn:E; [discriminate|].
  injection H as <-. split; [left; reflexivity|].
  intros y c [<-|Hy] Hc Hp.
  - right.
    assert (Hf : In c (filter (is_child_of (TTableSchema.name top)) ts)).
    { apply filter_In. split; [exact Hc|]. unfold is_child_of.
      rewrite Hp. apply String.eqb_refl. }
    destruct (concat_results_inr _ _ _ E c Hf) as (x & Hx & Hincl).
    apply Hincl. apply (IH _ _ Hx).
  - right.
    destruct (concat_results_In _ _ _ _ E Hy) as (a & x & Ha & Hx & Hin).
    destruct (concat_results_inr _ _ _ E a Ha) as (x' & Hx' & Hincl).
    rewrite Hx in Hx'. injection Hx' as <-.
    apply Hincl. apply (proj2 (IH _ _ Hx) y c); assumption.
Qed.

Lemma get_top_level_table_rec_stored fuel ts :
  forall n top,
    get_top_level_table_rec fuel ts n = inr top ->
    get_table ts (TTableSchema.name top) = Some top.
Proof.
  induction fuel as [|fuel IH]; intros n top H; simpl in H; [discriminate|].
  destruct (get_table ts n) as [tb|] eqn:Hg; [|discriminate].
  destruct (TTableSchema.parent tb) as [p|]; [eapply IH, H|].
  injection H as <-. rewrite (get_table_name _ _ _ Hg). exact Hg.
Qed.

(** A table is among the child tables of its top-level table. *)
Lemma get_top_level_table_rec_chain fuel ts :
  forall n x top,
    get_table ts n = Some x ->
    get_top_level_table_rec fuel ts n = inr top ->
    forall fuel' chain,
      get_child_tables_rec fuel' ts top = inr chain -> In x chain.
Proof.
  induction fuel as [|fuel IH]; intros n x top Hg H fuel' chain Hc;
    simpl in H; [discriminate|].
  rewrite Hg in H.
  destruct (TTableSchema.parent x) as [p|] eqn:Hp.
  - destruct fuel as [|fuel0]; [discriminate|].
    destruct (get_table ts p) as [y|] eqn:Hy;
      [|simpl in H; rewrite Hy in H; discriminate].
    pose proof (IH _ _ _ Hy H _ _ Hc) as Hin.
    apply (proj2 (get_child_tables_rec_closed _ _ _ _ Hc) y x Hin).
    + eapply get_table_In, Hg.
    + rewrite (get_table_name _ _ _ Hy). exact Hp.
  - injection H as <-. apply (get_child_tables_rec_closed _ _ _ _ Hc).
Qed.

Lemma started_job_has_table_jobs file_name st :
  In file_name (LoadStorage.list_started_jobs st) ->
  LoadStorage.list_jobs_for_table
    (ParsedLoadJobFileName.table_name file_name) st <> [].
Proof.
  unfold LoadStorage.list_started_jobs, LoadStorage.list_folder.
  intros H. apply in_map_iff in H as (info & <- & Hin).
  apply filter_In in Hin as [Hin _].
  assert (G : In info
                (LoadStorage.list_jobs_for_table
                   (ParsedLoadJobFileName.table_name
                      (LoadJobInfo.job_file_info info)) st)).
  { apply filter_In. split; [exact Hin|apply String.eqb_refl]. }
  intros E. rewrite E in G. contradiction.
Qed.

Lemma get_load_table_name file_name w tb w' :
  get_load_table file_name w = (Return tb, w') ->
  TTableSchema.name tb = ParsedLoadJobFileName.table_name file_name.
Proof.
  intros H. pose proof (get_load_table_cases file_name w) as C. simpl in C.
  destruct (get_table (tables w) _) as [tb0|] eqn:Hg;
    [|rewrite C in H; discriminate].
  destruct (TTableSchema.write_disposition tb0).
  - rewrite C in H. injection H as <- _. eapply get_table_name, Hg.
  - destruct (get_write_disposition (tables w) _);
      rewrite C in H; [discriminate|].
    injection H as <- _. simpl. eapply get_table_name, Hg.
Qed.





(** ** C4: failures of the spool worker *)

Lemma run_storage_start_file_load evs :
  forall st,
    forallb is_start_file_load evs = true -> run_storage evs st = st.
Proof.
  induction evs as [|e evs IH]; intros st H; simpl in *; [reflexivity|].
  apply andb_true_iff in H as [He Hevs].
  unfold run_storage in IH. rewrite IH by exact Hevs.
  destruct e; try discriminate. reflexivity.
Qed.

Lemma w_spool_job_try_storage self file_path w r w1 :
  w_spool_job_try self file_path w = (r, w1) -> storage w1 = storage w.
Proof.
  intros H. apply frame_w_spool_job_try in H.
  destruct H as [(evs & Hp & _ & Hs & _) _]. rewrite Hs.
  apply run_storage_start_file_load, Hp.
Qed.

Lemma w_spool_job_cases self file_path load_id w :
  w_spool_job self file_path load_id w
  = match w_spool_job_try self file_path w with
    | (Return job, w1) =>
        (Return (Some job), started (LoadJob.file_name job) w1)
    | (Raise e, w1) =>
        if is_terminal_failure e
        then (Return
                (Some (EmptyLoadJob_from_file_path file_path failed
                         (pretty_format_exception e))),
              started file_path w1)
        else (Return None, w1)
    | (Diverge, w1) => (Diverge, w1)
    end.
Proof.
  unfold w_spool_job, is_terminal_failure.
  unfold bind at 1. unfold try_except. unfold bind at 1.
  destruct (w_spool_job_try self file_path w) as [[job|e|] w1];
    try reflexivity.
  destruct (_ || _); reflexivity.
Qed.

(** [start_job] takes the file out of [new_jobs] and into
    [started_jobs]. *)
Lemma start_job_moves file_name st :
  In file_name (LoadStorage.list_new_jobs st) ->
  In file_name
    (LoadStorage.list_started_jobs (LoadStorage.start_job file_name st))
  /\ ~ In file_name
         (LoadStorage.list_new_jobs (LoadStorage.start_job file_name st)).
Proof.
  unfold LoadStorage.list_new_jobs, LoadStorage.list_started_jobs,
    LoadStorage.list_folder, LoadStorage.start_job, LoadStorage.move.
  simpl. intros H. apply in_map_iff in H as (i & Hi & Hin).
  apply filter_In in Hin as [Hin Hnew]. split.
  - apply in_map_iff.
    exists (LoadJobInfo.mk started_jobs file_name None).
    split; [reflexivity|]. apply filter_In. split; [|reflexivity].
    apply in_map_iff. exists i. split; [|exact Hin].
    rewrite Hnew, Hi, ParsedLoadJobFileName_eqb_refl. reflexivity.
  - intros H. apply in_map_iff in H as (i' & Hi' & Hin').
    apply filter_In in Hin' as [Hin' Hnew'].
    apply in_map_iff in Hin' as (i0 & Hi0 & _).
    destruct (LoadStorage.in_folder new_jobs i0
              && ParsedLoadJobFileName.eqb (LoadJobInfo.job_file_info i0)
                   file_name) eqn:E.
    + subst i'. discriminate.
    + subst i'. rewrite Hnew' in E. simpl in E.
      rewrite Hi' in E. rewrite ParsedLoadJobFileName_eqb_refl in E.
      discriminate.
Qed.

(** C4.  When the spool of a file fails terminally, as it does for an
    unsupported file format and an unsupported write disposition, the worker
    answers an [EmptyLoadJob] in state [failed] with the text of the
    exception and starts the file, which moves it from [new_jobs] to
    [started_jobs].  On any other failure it answers no job and the storage
    is as before. *)
Theorem spool_worker_failures self file_path load_id w :
  (forall e w1,
      w_spool_job_try self file_path w = (Raise e, w1) ->
      storage w1 = storage w
      /\ (is_terminal_failure e = true ->
          w_spool_job self file_path load_id w
          = (Return
               (Some (EmptyLoadJob_from_file_path file_path failed
                        (pretty_format_exception e))),
             started file_path w1)
          /\ (In file_path (LoadStorage.list_new_jobs (storage w)) ->
              In file_path
                (LoadStorage.list_started_jobs
                   (storage (started file_path w1)))
              /\ ~ In file_path
                     (LoadStorage.list_new_jobs
                        (storage (started file_path w1)))))
      /\ (is_terminal_failure e = false ->
          w_spool_job self file_path load_id w = (Return None, w1)))
  /\ (string_in (ParsedLoadJobFileName.file_format file_path)
        (supported_loader_file_formats self) = false ->
      w_spool_job self file_path load_id w
      = (Return
           (Some (EmptyLoadJob_from_file_path file_path failed
                    (pretty_format_exception
                       (LoadClientUnsupportedFileFormats
                          (ParsedLoadJobFileName.file_format file_path)
                          (supported_loader_file_formats self)
                          file_path)))),
         started file_path w))
  /\ (forall table w1 d,
        string_in (ParsedLoadJobFileName.file_format file_path)
          (supported_loader_file_formats self) = true ->
        get_load_table file_path w = (Return table, w1) ->
        TTableSchema.write_disposition table = Some d ->
        string_in d ["append"; "replace"; "merge"] = false ->
        w_spool_job self file_path load_id w
        = (Return
             (Some (EmptyLoadJob_from_file_path file_path failed
                      (pretty_format_exception
                         (LoadClientUnsupportedWriteDisposition
                            (ParsedLoadJobFileName.table_name file_path) d
                            file_path)))),
           started file_path w1))
  /\ (forall table w1 d e,
        string_in (ParsedLoadJobFileName.file_format file_path)
          (supported_loader_file_formats self) = true ->
        get_load_table file_path w = (Return table, w1) ->
        TTableSchema.write_disposition table = Some d ->
        string_in d ["append"; "replace"; "merge"] = true ->
        start_file_load (destination self) table file_path = inl e ->
        w_spool_job_try self file_path w
        = (Raise e, called [EvStartFileLoad table file_path] w1)).
Proof.
  split; [|split; [|split]].
  - intros e w1 Htry.
    pose proof (w_spool_job_try_storage _ _ _ _ _ Htry) as Hst.
    rewrite w_spool_job_cases, Htry. split; [exact Hst|]. split.
    + intros ->. split; [reflexivity|]. simpl. rewrite Hst.
      apply start_job_moves.
    + intros ->. reflexivity.
  - intros Hformat. rewrite w_spool_job_cases.
    unfold w_spool_job_try, parse_job_file_name. rewrite Hformat. reflexivity.
  - intros table w1 d Hformat Hload Hwd Hd. rewrite w_spool_job_cases.
    simpl in Hd.
    unfold w_spool_job_try, parse_job_file_name. rewrite Hformat. simpl.
    unfold bind at 1. rewrite Hload.
    unfold bind at 1. unfold table_write_disposition. rewrite Hwd. simpl.
    rewrite Hd. reflexivity.
  - intros table w1 d e Hformat Hload Hwd Hd Hstart. simpl in Hd.
    unfold w_spool_job_try, parse_job_file_name. rewrite Hformat. simpl.
    unfold bind at 1. rewrite Hload.
    unfold bind at 1. unfold table_write_disposition. rewrite Hwd. simpl.
    rewrite Hd. simpl. unfold bind, act. simpl. rewrite Hstart. reflexivity.
Qed.

Lemma spool_worker_failures_witness :
  w_spool_job (Sample.loader 4 false completed "") Sample.csv_file
    Sample.load_id (Sample.world [Sample.job_in new_jobs Sample.csv_file])
  = (Return
       (Some (EmptyLoadJob_from_file_path Sample.csv_file failed
                "LoadClientUnsupportedFileFormats: csv")),
     Sample.started_csv_world).
Proof.
  exact
    (proj1 (proj2
              (spool_worker_failures (Sample.loader 4 false completed "")
                 Sample.csv_file Sample.load_id
                 (Sample.world [Sample.job_in new_jobs Sample.csv_file])))
       eq_refl).
Defined.

(** ** C6: the resume path comes first *)

Lemma retrieve_job_cases self file_path w :
  retrieve_job self file_path w
  = (match restore_file_load (destination self) file_path with
     | inr job => Return job
     | inl e =>
         if is_DestinationTerminalException e
         then Return (EmptyLoadJob_from_file_path file_path failed
                        (pretty_format_exception e))
         else Raise e
     end,
     called [EvRestoreFileLoad file_path] w).
Proof.
  unfold retrieve_job, try_except, bind, act, called. simpl.
  destruct (restore_file_load (destination self) file_path) as [e|job];
    simpl; [|reflexivity].
  destruct (is_DestinationTerminalException e); reflexivity.
Qed.

Lemma called_called evs1 evs2 w :
  called evs2 (called evs1 w) = called (evs1 ++ evs2) w.
Proof. unfold called. simpl. rewrite app_assoc. reflexivity. Qed.

Lemma called_nil w : called [] w = w.
Proof. unfold called. rewrite app_nil_r. destruct w; reflexivity. Qed.

Lemma mapM_retrieve_job_all self files :
  forall w,
    (forall f, In f files -> restorable self f = true) ->
    mapM (retrieve_job self) files w
    = (Return (map (restored self) files),
       called (map EvRestoreFileLoad files) w).
Proof.
  induction files as [|f files IH]; intros w Hall; simpl.
  - unfold ret. rewrite called_nil. reflexivity.
  - unfold bind at 1. rewrite retrieve_job_cases.
    pose proof (Hall f (or_introl eq_refl)) as Hf.
    unfold restorable in Hf. unfold restored at 1.
    destruct (restore_file_load (destination self) f) as [e|job].
    + rewrite Hf. unfold bind. rewrite IH by (intros; apply Hall; right; auto).
      rewrite called_called. reflexivity.
    + unfold bind. rewrite IH by (intros; apply Hall; right; auto).
      rewrite called_called. reflexivity.
Qed.

Lemma mapM_retrieve_job_fails self pre f post e :
  forall w,
    (forall f', In f' pre -> restorable self f' = true) ->
    restore_file_load (destination self) f = inl e ->
    is_DestinationTerminalException e = false ->
    mapM (retrieve_job self) (pre ++ f :: post) w
    = (Raise e, called (map EvRestoreFileLoad (pre ++ [f])) w).
Proof.
  induction pre as [|f0 pre IH]; intros w Hall Hr Hterm; simpl.
  - unfold bind at 1. rewrite retrieve_job_cases, Hr, Hterm. reflexivity.
  - unfold bind at 1. rewrite retrieve_job_cases.
    pose proof (Hall f0 (or_introl eq_refl)) as Hf.
    unfold restorable in Hf.
    assert (E : mapM (retrieve_job self) (pre ++ f :: post)
                  (called [EvRestoreFileLoad f0] w)
                = (Raise e,
                   called (EvRestoreFileLoad f0
                           :: map EvRestoreFileLoad (pre ++ [f])) w)).
    { rewrite IH; auto.
      - rewrite called_called. reflexivity.
      - intros; apply Hall; right; auto. }
    destruct (restore_file_load (destination self) f0) as [e0|job].
    + rewrite Hf. unfold bind. rewrite E. reflexivity.
    + unfold bind. rewrite E. reflexivity.
Qed.

Lemma retrieve_jobs_all self load_id w :
  LoadStorage.list_started_jobs (storage w) <> [] ->
  (forall f, In f (LoadStorage.list_started_jobs (storage w)) ->
     restorable self f = true) ->
  retrieve_jobs self load_id w
  = (Return
       (List.length (LoadStorage.list_started_jobs (storage w)),
        map (restored self) (LoadStorage.list_started_jobs (storage w))),
     called
       (map EvRestoreFileLoad (LoadStorage.list_started_jobs (storage w))
        ++ [EvGaugeInc "retrieved" 1; EvCounterInc "retrieved" 1])
       w).
Proof.
  intros Hne Hall. unfold retrieve_jobs. unfold bind at 1. unfold get_storage.
  destruct (LoadStorage.list_started_jobs (storage w)) as [|f fs] eqn:E;
    [congruence|].
  change (Nat.eqb (List.length (f :: fs)) 0) with false. cbv iota.
  unfold bind at 1. rewrite mapM_retrieve_job_all by exact Hall.
  unfold bind, act, called. simpl. rewrite length_map.
  rewrite <- !app_assoc. reflexivity.
Qed.

Lemma retrieve_jobs_fails self load_id w pre f post e :
  LoadStorage.list_started_jobs (storage w) = pre ++ f :: post ->
  (forall f', In f' pre -> restorable self f' = true) ->
  restore_file_load (destination self) f = inl e ->
  is_DestinationTerminalException e = false ->
  retrieve_jobs self load_id w
  = (Raise e, called (map EvRestoreFileLoad (pre ++ [f])) w).
Proof.
  intros E Hall Hr Hterm. unfold retrieve_jobs.
  unfold bind at 1. unfold get_storage. rewrite E.
  replace (Nat.eqb (List.length (pre ++ f :: post)) 0) with false
    by (destruct pre; reflexivity).
  unfold bind at 1.
  rewrite (mapM_retrieve_job_fails self pre f post e _ Hall Hr Hterm).
  reflexivity.
Qed.

(** C6.  In a run of [load_single_package] no file is spooled before
    [retrieve_jobs] is over.  A started file whose restore fails terminally
    is resumed as a failed [EmptyLoadJob] and the retrieval goes on to the
    next file; any other failure of a restore ends the run with that
    exception.  When [retrieve_jobs] answers a job, the run goes on to poll
    without a call to [spool_new_jobs]. *)
Theorem retrieval_comes_before_spooling fuel self load_id w w0 :
  update_schema self load_id w = (Return tt, w0) ->
  (forall r w1,
      retrieve_jobs self load_id w0 = (r, w1) ->
      exists evs,
        trace w1 = trace w ++ evs
        /\ forallb (fun e => negb (is_spool_event e)) evs = true)
  /\ (LoadStorage.list_started_jobs (storage w0) <> [] ->
      (forall f, In f (LoadStorage.list_started_jobs (storage w0)) ->
         restorable self f = true) ->
      retrieve_jobs self load_id w0
      = (Return
           (List.length (LoadStorage.list_started_jobs (storage w0)),
            map (restored self)
              (LoadStorage.list_started_jobs (storage w0))),
         called
           (map EvRestoreFileLoad
              (LoadStorage.list_started_jobs (storage w0))
            ++ [EvGaugeInc "retrieved" 1; EvCounterInc "retrieved" 1])
           w0))
  /\ (forall pre f post e,
        LoadStorage.list_started_jobs (storage w0) = pre ++ f :: post ->
        (forall f', In f' pre -> restorable self f' = true) ->
        restore_file_load (destination self) f = inl e ->
        is_DestinationTerminalException e = false ->
        load_single_package fuel self load_id w
        = (Raise e, called (map EvRestoreFileLoad (pre ++ [f])) w0))
  /\ (forall n job jobs w1,
        retrieve_jobs self load_id w0 = (Return (n, job :: jobs), w1) ->
        retrieve_or_spool self load_id w0 = (Return (n, job :: jobs), w1)
        /\ load_single_package fuel self load_id w
           = if Nat.eqb n 0
             then complete_package self load_id false w1
             else poll_loop fuel self load_id (job :: jobs) w1).
Proof.
  intros Hsync. split; [|split; [|split]].
  - intros r w1 Hret.
    assert (C : changes (fun e => negb (is_spool_event e)) w w1).
    { eapply changes_trans.
      - eapply changes_weaken; [|eapply frame_update_schema, Hsync].
        intros []; simpl; auto; discriminate.
      - eapply changes_weaken; [|eapply frame_retrieve_jobs, Hret].
        intros []; simpl; auto; discriminate. }
    destruct C as [(evs & Hp & Ht & _) _]. eauto.
  - apply retrieve_jobs_all.
  - intros pre f post e E Hall Hr Hterm.
    rewrite load_single_package_unfold. unfold jobs_found.
    unfold bind at 1. rewrite Hsync. unfold retrieve_or_spool.
    unfold bind at 1.
    rewrite (retrieve_jobs_fails _ _ _ _ _ _ _ E Hall Hr Hterm).
    reflexivity.
  - intros n job jobs w1 Hret.
    assert (E : retrieve_or_spool self load_id w0
                = (Return (n, job :: jobs), w1)).
    { unfold retrieve_or_spool. unfold bind at 1. rewrite Hret.
      reflexivity. }
    split; [exact E|].
    rewrite load_single_package_unfold. unfold jobs_found.
    unfold bind at 1. rewrite Hsync, E. reflexivity.
Qed.

Lemma retrieval_comes_before_spooling_witness :
  load_single_package 5 Sample.flaky_loader Sample.load_id
    Sample.resumed_world
  = (Raise (DestinationTransientException "busy"),
     called
       [EvRestoreFileLoad Sample.items_file;
        EvRestoreFileLoad Sample.items_file']
       Sample.resumed_world).
Proof.
  exact
    (proj1 (proj2 (proj2
       (retrieval_comes_before_spooling 5 Sample.flaky_loader
          Sample.load_id Sample.resumed_world Sample.resumed_world
          eq_refl)))
       [Sample.items_file] Sample.items_file' []
       (DestinationTransientException "busy") eq_refl
       ltac:(intros f' [<-|[]]; reflexivity) eq_refl eq_refl).
Defined.

(** ** Only the poll loop can run out of fuel *)

Lemma total_ret {A} (a : A) : total (ret a).
Proof. intros w. discriminate. Qed.

Lemma total_raise {A} (e : exn) : total (@raise A e).
Proof. intros w. discriminate. Qed.

Lemma total_act e : total (act e).
Proof. intros w. discriminate. Qed.

Lemma total_get_storage : total get_storage.
Proof. intros w. discriminate. Qed.

Lemma total_get_tables : total get_tables.
Proof. intros w. discriminate. Qed.

Lemma total_get_clock : total get_clock.
Proof. intros w. discriminate. Qed.

Lemma total_put_tables ts : total (put_tables ts).
Proof. intros w. discriminate. Qed.

Lemma total_of_sum {A} (x : exn + A) : total (of_sum x).
Proof. destruct x; intros w; discriminate. Qed.

Lemma total_bind {A B} (c : M A) (k : A -> M B) :
  total c -> (forall a, total (k a)) -> total (bind c k).
Proof.
  intros Hc Hk w. unfold bind. specialize (Hc w).
  destruct (c w) as [[a|e|] w1]; simpl in *;
    [apply Hk|discriminate|congruence].
Qed.

Lemma total_try_except {A} (c : M A) (h : exn -> M A) :
  total c -> (forall e, total (h e)) -> total (try_except c h).
Proof.
  intros Hc Hh w. unfold try_except. specialize (Hc w).
  destruct (c w) as [[a|e|] w1]; simpl in *;
    [discriminate|apply Hh|congruence].
Qed.

Lemma total_mapM {A B} (f : A -> M B) (l : list A) :
  (forall a, total (f a)) -> total (mapM f l).
Proof.
  intros Hf. induction l as [|a l IH]; simpl.
  - apply total_ret.
  - apply total_bind; [apply Hf|]. intros b.
    apply total_bind; [apply IH|]. intros bs. apply total_ret.
Qed.

Ltac total_step :=
  match goal with
  | |- total (bind _ _) => apply total_bind; [|intro]
  | |- total (try_except _ _) => apply total_try_except; [|intro]
  | |- total (ret _) => apply total_ret
  | |- total (raise _) => apply total_raise
  | |- total (of_sum _) => apply total_of_sum
  | |- total get_storage => apply total_get_storage
  | |- total get_tables => apply total_get_tables
  | |- total get_clock => apply total_get_clock
  | |- total (put_tables _) => apply total_put_tables
  | |- total (act _) => apply total_act
  | |- total sleep => apply total_act
  | |- total (mapM _ _) => apply total_mapM; intro
  | |- total (match ?x with _ => _ end) => destruct x
  end.

Ltac total_auto := repeat total_step.

Lemma total_get_load_table file_name : total (get_load_table file_name).
Proof. unfold get_load_table. total_auto. Qed.

Lemma total_table_write_disposition tb : total (table_write_disposition tb).
Proof. unfold table_write_disposition. total_auto. Qed.

Lemma total_get_jobs_info disposition : total (get_jobs_info disposition).
Proof.
  unfold get_jobs_info. total_step; [total_auto|].
  induction (LoadStorage.list_new_jobs a) as [|f files IH]; simpl;
    [total_auto|].
  total_step; [|total_step; [exact IH|total_auto]].
  destruct (not_disposition disposition); [total_auto|].
  total_step; [apply total_get_load_table|].
  total_step; [apply total_table_write_disposition|total_auto].
Qed.

Lemma total_w_spool_job self file_path load_id :
  total (w_spool_job self file_path load_id).
Proof.
  unfold w_spool_job, w_spool_job_try.
  total_step; [|total_auto].
  total_step; [|total_auto].
  total_step; [|total_auto].
  destruct (negb _); [total_auto|].
  total_step; [apply total_get_load_table|].
  total_step; [apply total_table_write_disposition|].
  destruct (negb _); total_auto.
Qed.

Lemma total_jobs_found self load_id : total (jobs_found self load_id).
Proof.
  unfold jobs_found, update_schema, retrieve_or_spool.
  total_step.
  - total_step; [total_auto|].
    destruct (LoadStorage.schema_update a); [|total_auto].
    total_step; [total_auto|].
    total_step; [apply total_get_jobs_info|].
    total_step; [total_auto|].
    total_step; [total_auto|].
    total_step; [apply total_get_jobs_info|].
    total_auto.
  - total_step.
    + unfold retrieve_jobs, retrieve_job. total_auto.
    + destruct (snd a0); [|total_auto].
      total_step; [|total_auto].
      unfold spool_new_jobs. total_step; [total_auto|].
      destruct (Nat.eqb _ 0); [total_auto|].
      total_step; [|total_auto]. total_step. apply total_w_spool_job.
Qed.

Lemma total_create_followup_jobs self load_id state job :
  total (create_followup_jobs self load_id state job).
Proof.
  unfold create_followup_jobs.
  destruct (LoadJob.is_followup_job job); [|total_auto].
  destruct (TLoadJobState_eqb state completed); [|total_auto].
  total_step; [apply total_get_load_table|].
  total_step; [total_auto|].
  total_step; [total_auto|].
  total_step; [apply total_table_write_disposition|].
  destruct (String.eqb _ _); [|total_auto].
  total_step; [|total_auto].
  unfold create_merge_job. total_auto.
Qed.

Lemma total_place_followup_jobs followup_jobs :
  total (place_followup_jobs followup_jobs).
Proof.
  induction followup_jobs as [|j js IH]; simpl; [total_auto|].
  total_step; [total_auto|].
  total_step; [total_auto|].
  total_step; [exact IH|total_auto].
Qed.

Lemma total_complete_jobs self load_id jobs :
  total (complete_jobs self load_id jobs).
Proof.
  induction jobs as [|job jobs IH]; simpl; [total_auto|].
  total_step; [|total_step; [exact IH|total_auto]].
  unfold complete_jobs_turn. total_step; [total_auto|].
  total_step.
  - destruct (LoadJob.state job a).
    + total_auto.
    + total_auto.
    + total_step; [total_auto|].
      destruct (raise_on_failed_jobs _); total_auto.
    + total_step; [apply total_create_followup_jobs|].
      total_step; [apply total_place_followup_jobs|total_auto].
  - destruct a0 as [queued final_location].
    total_step; [|total_auto].
    destruct (LoadJob.state job a); total_auto.
Qed.

Lemma total_complete_package self load_id aborted :
  total (complete_package self load_id aborted).
Proof.
  unfold complete_package.
  total_step; [destruct (negb aborted); total_auto|]. total_auto.
Qed.

(** A run of the poll loop that ended ends the same way with more fuel. *)
Lemma poll_loop_fuel_mono self load_id fuel :
  forall jobs w r w' fuel',
    poll_loop fuel self load_id jobs w = (r, w') ->
    r <> Diverge ->
    fuel <= fuel' ->
    poll_loop fuel' self load_id jobs w = (r, w').
Proof.
  induction fuel as [|fuel IH]; intros jobs w r w' fuel' H Hr Hle;
    simpl in H.
  - injection H as <- _. congruence.
  - destruct fuel' as [|fuel']; [lia|]. simpl.
    unfold bind at 1. unfold bind at 1 in H.
    destruct (try_except _ _ w) as [[[remaining|]|e|] w1];
      try exact H.
    apply IH; [exact H|exact Hr|lia].
Qed.

(** A run of [load_single_package] that ended ends the same way with more
    fuel: the fuel only bounds the number of passes of the poll loop. *)
Lemma load_single_package_fuel_mono self load_id fuel fuel' w r w' :
  load_single_package fuel self load_id w = (r, w') ->
  r <> Diverge ->
  fuel <= fuel' ->
  load_single_package fuel' self load_id w = (r, w').
Proof.
  intros H Hr Hle. rewrite load_single_package_unfold in *.
  destruct (jobs_found self load_id w) as [[[n jobs]|e|] w1];
    try exact H.
  destruct (Nat.eqb n 0); [exact H|].
  eapply poll_loop_fuel_mono; eauto.
Qed.

(** Within a pass nothing runs out of fuel: a run that diverges has used
    up all its passes. *)
Lemma load_single_package_diverges self load_id fuel w w' :
  load_single_package fuel self load_id w = (Diverge, w') ->
  exists jobs_count jobs w1,
    jobs_found self load_id w = (Return (jobs_count, jobs), w1)
    /\ jobs_count <> 0
    /\ poll_loop fuel self load_id jobs w1 = (Diverge, w').
Proof.
  intros H. rewrite load_single_package_unfold in H.
  pose proof (total_jobs_found self load_id w) as T.
  destruct (jobs_found self load_id w) as [[[n jobs]|e|] w1];
    [|discriminate|simpl in T; congruence].
  destruct (Nat.eqb n 0) eqn:E.
  - pose proof (total_complete_package self load_id false w1) as T'.
    rewrite H in T'. simpl in T'. congruence.
  - apply Nat.eqb_neq in E. eauto 6.
Qed.

(** ** The transitions of the storage *)

(** [fail_job] takes a started file into [failed_jobs] and keeps the
    message with it. *)
Lemma fail_job_moves file_name message st :
  In file_name (LoadStorage.list_started_jobs st) ->
  In (LoadJobInfo.mk failed_jobs file_name (Some message))
    (LoadStorage.jobs (LoadStorage.fail_job file_name message st))
  /\ ~ In file_name
         (LoadStorage.list_started_jobs
            (LoadStorage.fail_job file_name message st)).
Proof.
  unfold LoadStorage.list_started_jobs, LoadStorage.list_folder,
    LoadStorage.fail_job, LoadStorage.move.
  simpl. intros H. apply in_map_iff in H as (i & Hi & Hin).
  apply filter_In in Hin as [Hin Hst]. split.
  - apply in_map_iff. exists i. split; [|exact Hin].
    rewrite Hst, Hi, ParsedLoadJobFileName_eqb_refl. reflexivity.
  - intros H. apply in_map_iff in H as (i' & Hi' & Hin').
    apply filter_In in Hin' as [Hin' Hst'].
    apply in_map_iff in Hin' as (i0 & Hi0 & _).
    destruct (LoadStorage.in_folder started_jobs i0
              && ParsedLoadJobFileName.eqb (LoadJobInfo.job_file_info i0)
                   file_name) eqn:E.
    + subst i'. discriminate.
    + subst i'. rewrite Hst' in E. simpl in E.
      rewrite Hi' in E. rewrite ParsedLoadJobFileName_eqb_refl in E.
      discriminate.
Qed.

(** * Further properties of the loader *)

(** ** [get_load_table] *)

Lemma get_table_store_write_disposition ts n tb wd :
  get_table ts n = Some tb ->
  get_table (store_write_disposition n wd ts) n
  = Some (TTableSchema.set_write_disposition wd tb).
Proof.
  unfold get_table. induction ts as [|a ts IH]; simpl; [discriminate|].
  destruct (String.eqb (TTableSchema.name a) n) eqn:E.
  - intros H. injection H as <-. simpl. rewrite E. reflexivity.
  - intros H. simpl. rewrite E. apply IH, H.
Qed.

(** X1.  The table [get_load_table] answers has a write disposition, bears
    the table name of the file and is the table the schema now stores under
    that name; a second lookup of the same file answers the same table and
    changes nothing. *)
Theorem get_load_table_idempotent file_name w tb w' :
  get_load_table file_name w = (Return tb, w') ->
  TTableSchema.write_disposition tb <> None
  /\ TTableSchema.name tb = ParsedLoadJobFileName.table_name file_name
  /\ get_table (tables w') (ParsedLoadJobFileName.table_name file_name)
     = Some tb
  /\ get_load_table file_name w' = (Return tb, w').
Proof.
  intros H.
  pose proof (get_load_table_name _ _ _ _ H) as Hname.
  pose proof (get_load_table_cases file_name w) as C. simpl in C.
  assert (G : TTableSchema.write_disposition tb <> None
              /\ get_table (tables w')
                   (ParsedLoadJobFileName.table_name file_name) = Some tb).
  { destruct (get_table (tables w) _) as [tb0|] eqn:Hg;
      [|rewrite C in H; discriminate].
    destruct (TTableSchema.write_disposition tb0) eqn:Hw.
    - rewrite C in H. injection H as <- <-. split; [congruence|exact Hg].
    - destruct (get_write_disposition (tables w) _) as [e|wd];
        rewrite C in H; [discriminate|].
      injection H as <- <-. simpl. split; [discriminate|].
      apply get_table_store_write_disposition, Hg. }
  destruct G as [Hwd Hg]. repeat split; try assumption.
  pose proof (get_load_table_cases file_name w') as C'. simpl in C'.
  rewrite Hg in C'.
  destruct (TTableSchema.write_disposition tb); [exact C'|congruence].
Qed.

Lemma get_load_table_idempotent_witness :
  get_load_table Sample.orders__items_file
    (snd (get_load_table Sample.orders__items_file (Sample.world [])))
  = (Return (TTableSchema.mk "orders__items" (Some "orders") (Some "merge")),
     snd (get_load_table Sample.orders__items_file (Sample.world []))).
Proof.
  exact
    (proj2 (proj2 (proj2
       (get_load_table_idempotent Sample.orders__items_file
          (Sample.world []) _ _ eq_refl)))).
Defined.

(** X2.  When [get_load_table] raises, nothing has changed.  A table name
    that the schema does not know is reported as
    [LoadJobUnknownTableException] with the table name and the file name;
    so is a [KeyError] met while the write disposition is resolved.  Any
    other exception comes unchanged from the resolution of the write
    disposition of a table that has none of its own. *)
Theorem get_load_table_raises file_name w e w' :
  get_load_table file_name w = (Raise e, w') ->
  w' = w
  /\ (get_table (tables w) (ParsedLoadJobFileName.table_name file_name)
      = None ->
      e = LoadJobUnknownTableException
            (ParsedLoadJobFileName.table_name file_name) file_name)
  /\ is_KeyError e = false
  /\ (e = LoadJobUnknownTableException
            (ParsedLoadJobFileName.table_name file_name) file_name
      \/ exists tb,
          get_table (tables w) (ParsedLoadJobFileName.table_name file_name)
          = Some tb
          /\ TTableSchema.write_disposition tb = None
          /\ get_write_disposition (tables w)
               (ParsedLoadJobFileName.table_name file_name) = inl e).
Proof.
  intros H.
  pose proof (get_load_table_cases file_name w) as C. simpl in C.
  destruct (get_table (tables w) _) as [tb0|] eqn:Hg.
  - destruct (TTableSchema.write_disposition tb0) eqn:Hw;
      [rewrite C in H; discriminate|].
    destruct (get_write_disposition (tables w) _) as [e0|wd] eqn:Hr;
      rewrite C in H; [|discriminate].
    injection H as <- <-. split; [reflexivity|].
    split; [discriminate|].
    destruct (is_KeyError e0) eqn:Hk.
    + split; [reflexivity|]. left. reflexivity.
    + split; [exact Hk|]. right. exists tb0. auto.
  - rewrite C in H. injection H as <- <-.
    repeat split; auto.
Qed.

Lemma get_load_table_raises_witness :
  snd (get_load_table (ParsedLoadJobFileName.mk "ghost" "g0" 0 "jsonl")
         (Sample.world []))
  = Sample.world [].
Proof.
  exact
    (proj1
       (get_load_table_raises
          (ParsedLoadJobFileName.mk "ghost" "g0" 0 "jsonl")
          (Sample.world []) _ _ eq_refl)).
Defined.

(** ** The spool worker and [spool_new_jobs] *)

Lemma w_spool_job_try_cases self file_path w :
  w_spool_job_try self file_path w
  = if negb (string_in (ParsedLoadJobFileName.file_format file_path)
               (supported_loader_file_formats self))
    then (Raise (LoadClientUnsupportedFileFormats
                   (ParsedLoadJobFileName.file_format file_path)
                   (supported_loader_file_formats self) file_path), w)
    else
      match get_load_table file_path w with
      | (Return table, w1) =>
          match TTableSchema.write_disposition table with
          | None => (Raise (KeyError "write_disposition"), w1)
          | Some d =>
              if negb (string_in d ["append"; "replace"; "merge"])
              then (Raise (LoadClientUnsupportedWriteDisposition
                             (ParsedLoadJobFileName.table_name file_path)
                             d file_path), w1)
              else
                (match start_file_load (destination self) table file_path
                 with
                 | inl e => Raise e
                 | inr job => Return job
                 end,
                 called [EvStartFileLoad table file_path] w1)
          end
      | (Raise e, w1) => (Raise e, w1)
      | (Diverge, w1) => (Diverge, w1)
      end.
Proof.
  unfold w_spool_job_try, parse_job_file_name.
  destruct (negb (string_in _ (supported_loader_file_formats self)));
    [reflexivity|].
  unfold bind at 1.
  destruct (get_load_table file_path w) as [[table|e|] w1];
    try reflexivity.
  unfold bind at 1. unfold table_write_disposition.
  destruct (TTableSchema.write_disposition table) as [d|]; [|reflexivity].
  unfold ret at 1. cbv beta iota.
  destruct (negb (string_in d _)); [reflexivity|].
  unfold bind, act, called. simpl.
  destruct (start_file_load (destination self) table file_path);
    reflexivity.
Qed.

Lemma changes_act p e w0 w :
  p e = true -> changes p w0 w -> changes p w0 (snd (act e w)).
Proof.
  intros Hp H. eapply changes_trans; [exact H|].
  eapply (frame_act p e Hp). reflexivity.
Qed.

Lemma frame_w_spool_job_checked self file_path load_id :
  frame (changes (is_checked_spool_event self))
    (w_spool_job self file_path load_id).
Proof.
  intros w r w' H. rewrite w_spool_job_cases, w_spool_job_try_cases in H.
  destruct (string_in (ParsedLoadJobFileName.file_format file_path)
              (supported_loader_file_formats self)) eqn:Hformat;
    simpl in H.
  - destruct (get_load_table file_path w) as [[table|e|] w1] eqn:Hload.
    + pose proof (frame_get_load_table (is_checked_spool_event self)
                    _ _ _ _ Hload) as C.
      pose proof (get_load_table_name _ _ _ _ Hload) as Hname.
      destruct (TTableSchema.write_disposition table) as [d|] eqn:Hwd.
      * destruct (string_in d ["append"; "replace"; "merge"]) eqn:Hd;
          pose proof Hd as Hd'; simpl in Hd'; rewrite Hd' in H; simpl in H.
        -- assert (C1 : changes (is_checked_spool_event self) w
                          (called [EvStartFileLoad table file_path] w1)).
           { apply (changes_act _ (EvStartFileLoad table file_path)); auto.
             simpl. rewrite Hformat, Hwd, Hname, String.eqb_refl.
             simpl in Hd. simpl. rewrite Hd. reflexivity. }
           destruct (start_file_load (destination self) table file_path)
             as [e|job].
           ++ destruct (is_terminal_failure e); injection H as _ <-;
                [|exact C1].
              apply (changes_act _ (EvStartJob file_path)); auto.
           ++ injection H as _ <-.
              apply (changes_act _ (EvStartJob (LoadJob.file_name job)));
                auto.
        -- injection H as _ <-.
           apply (changes_act _ (EvStartJob file_path)); auto.
      * injection H as _ <-. exact C.
    + pose proof (frame_get_load_table (is_checked_spool_event self)
                    _ _ _ _ Hload) as C.
      destruct (is_terminal_failure e); injection H as _ <-; [|exact C].
      apply (changes_act _ (EvStartJob file_path)); auto.
    + injection H as _ <-.
      eapply (frame_get_load_table (is_checked_spool_event self)), Hload.
  - injection H as _ <-.
    apply (changes_act _ (EvStartJob file_path)); auto.
    apply changes_refl.
Qed.

Lemma w_spool_job_returns self file_path load_id w :
  exists job w',
    w_spool_job self file_path load_id w = (Return job, w').
Proof.
  pose proof (total_w_spool_job self file_path load_id w) as T.
  rewrite w_spool_job_cases in *.
  destruct (w_spool_job_try self file_path w) as [[job|e|] w1].
  - eauto.
  - destruct (is_terminal_failure e); eauto.
  - simpl in T. congruence.
Qed.

Lemma mapM_returns {A B} (f : A -> M B) :
  (forall a w, exists b w', f a w = (Return b, w')) ->
  forall l w,
    exists bs w',
      mapM f l w = (Return bs, w') /\ List.length bs = List.length l.
Proof.
  intros Hf. induction l as [|a l IH]; intros w; simpl.
  - exists [], w. split; reflexivity.
  - destruct (Hf a w) as (b & w1 & E1).
    destruct (IH w1) as (bs & w2 & E2 & Hlen).
    exists (b :: bs), w2. unfold bind. rewrite E1, E2. simpl.
    split; [reflexivity|]. rewrite Hlen. reflexivity.
Qed.

Lemma remove_None_length {A} (l : list (option A)) :
  List.length (remove_None l) <= List.length l.
Proof.
  induction l as [|[a|] l IH]; simpl; lia.
Qed.

(** X3.  No exception raised inside the [try] statement of [w_spool_job]
    (a file format the destination does not load, a table the schema does
    not know, an unsupported write disposition, a failure of
    [start_file_load]) reaches the caller of [spool_new_jobs]: the
    handlers of the worker answer all of them.  The calls of the storage
    that stand outside the [try], [list_new_jobs] and [start_job], are
    taken not to fail, as in the storage modelled here.  Then
    [spool_new_jobs] answers the number of files it took, the smaller of
    [workers] and the number of files in [new_jobs], and at most that many
    jobs. *)
Theorem spool_new_jobs_returns self load_id w :
  exists jobs w',
    spool_new_jobs self load_id w
    = (Return
         (Nat.min (workers (config self))
            (List.length (LoadStorage.list_new_jobs (storage w))),
          jobs),
       w')
    /\ List.length jobs
       <= Nat.min (workers (config self))
            (List.length (LoadStorage.list_new_jobs (storage w))).
Proof.
  unfold spool_new_jobs. unfold bind at 1. unfold get_storage.
  rewrite length_firstn.
  destruct (Nat.eqb _ 0) eqn:E.
  - apply Nat.eqb_eq in E. rewrite E. exists [], w. split; [reflexivity|].
    simpl. lia.
  - destruct (mapM_returns
                (fun file => w_spool_job self file load_id)
                (fun a w0 => w_spool_job_returns self a load_id w0)
                (firstn (workers (config self))
                   (LoadStorage.list_new_jobs (storage w))) w)
      as (bs & w' & Em & Hlen).
    exists (remove_None bs), w'. unfold bind. rewrite Em.
    split; [reflexivity|].
    rewrite length_firstn in Hlen. rewrite <- Hlen.
    apply remove_None_length.
Qed.

(** A move between two folders leaves the listing of any third folder as it
    was. *)
Lemma move_keeps_folder folder src target file_name st :
  TJobState_eqb src folder = false ->
  TJobState_eqb (LoadJobInfo.state target) folder = false ->
  LoadStorage.list_folder folder (LoadStorage.move src target file_name st)
  = LoadStorage.list_folder folder st.
Proof.
  intros Hsrc Htarget. unfold LoadStorage.list_folder, LoadStorage.move.
  simpl. induction (LoadStorage.jobs st) as [|i l IH]; simpl; [reflexivity|].
  destruct (LoadStorage.in_folder src i
            && ParsedLoadJobFileName.eqb (LoadJobInfo.job_file_info i)
                 file_name) eqn:E.
  - apply andb_true_iff in E as [E _].
    unfold LoadStorage.in_folder in *. rewrite Htarget.
    replace (TJobState_eqb (LoadJobInfo.state i) folder) with false;
      [exact IH|].
    destruct (LoadJobInfo.state i), src, folder; simpl in *; congruence.
  - destruct (LoadStorage.in_folder folder i); simpl; rewrite IH;
      reflexivity.
Qed.

Lemma run_storage_spool_events evs :
  forall st,
    forallb is_spool_event evs = true ->
    LoadStorage.list_failed_jobs (run_storage evs st)
    = LoadStorage.list_failed_jobs st
    /\ LoadStorage.list_completed_jobs (run_storage evs st)
       = LoadStorage.list_completed_jobs st
    /\ LoadStorage.archived (run_storage evs st) = LoadStorage.archived st
    /\ LoadStorage.schema_update (run_storage evs st)
       = LoadStorage.schema_update st.
Proof.
  induction evs as [|e evs IH]; intros st H; simpl in *; [auto|].
  apply andb_true_iff in H as [He Hevs].
  destruct (IH (effect e st) Hevs) as (H1 & H2 & H3 & H4).
  unfold run_storage in *. rewrite H1, H2, H3, H4.
  destruct e; try discriminate; simpl; auto.
  unfold LoadStorage.list_failed_jobs, LoadStorage.list_completed_jobs,
    LoadStorage.start_job.
  rewrite !move_keeps_folder by reflexivity. auto.
Qed.

Lemma frame_spool_new_jobs_checked self load_id :
  frame (changes (is_checked_spool_event self))
    (spool_new_jobs self load_id).
Proof.
  unfold spool_new_jobs. frame_step; [frame_auto|].
  destruct (Nat.eqb _ 0); [frame_auto|].
  frame_step; [|frame_auto]. frame_step.
  apply frame_w_spool_job_checked.
Qed.

(** X4.  Whatever [spool_new_jobs] does, it calls the destination only to
    start the load of a file in a supported format into the table that
    bears the table name of the file and has a supported write disposition,
    and the storage only to start a job: the files in [failed_jobs] and in
    [completed_jobs], the staged schema update and the archive mark stay as
    they were. *)
Theorem spool_new_jobs_only_starts_jobs self load_id w r w' :
  spool_new_jobs self load_id w = (r, w') ->
  (exists evs,
      trace w' = trace w ++ evs
      /\ forallb (is_checked_spool_event self) evs = true)
  /\ LoadStorage.list_failed_jobs (storage w')
     = LoadStorage.list_failed_jobs (storage w)
  /\ LoadStorage.list_completed_jobs (storage w')
     = LoadStorage.list_completed_jobs (storage w)
  /\ LoadStorage.archived (storage w') = LoadStorage.archived (storage w)
  /\ LoadStorage.schema_update (storage w')
     = LoadStorage.schema_update (storage w).
Proof.
  intros H. apply frame_spool_new_jobs_checked in H.
  destruct H as [(evs & Hp & Ht & Hs & _) _].
  split; [eauto|]. rewrite Hs. apply run_storage_spool_events.
  rewrite forallb_forall in *. intros e He. specialize (Hp e He).
  destruct e; try discriminate; reflexivity.
Qed.

Lemma spool_new_jobs_only_starts_jobs_witness :
  LoadStorage.list_completed_jobs
    (storage
       (snd (spool_new_jobs (Sample.loader 1 false completed "")
               Sample.load_id Sample.two_items_world)))
  = LoadStorage.list_completed_jobs (storage Sample.two_items_world).
Proof.
  exact
    (proj1 (proj2 (proj2
       (spool_new_jobs_only_starts_jobs
          (Sample.loader 1 false completed "") Sample.load_id
          Sample.two_items_world _ _ eq_refl)))).
Defined.

(** X5.  A file whose table the schema does not know is failed, not left
    for a later run: the worker answers an [EmptyLoadJob] in state [failed]
    with the text of [LoadJobUnknownTableException] and starts the file. *)
Theorem w_spool_job_unknown_table self file_path load_id w :
  string_in (ParsedLoadJobFileName.file_format file_path)
    (supported_loader_file_formats self) = true ->
  get_table (tables w) (ParsedLoadJobFileName.table_name file_path) = None ->
  w_spool_job self file_path load_id w
  = (Return
       (Some (EmptyLoadJob_from_file_path file_path failed
                (pretty_format_exception
                   (LoadJobUnknownTableException
                      (ParsedLoadJobFileName.table_name file_path)
                      file_path)))),
     started file_path w).
Proof.
  intros Hformat Hg.
  rewrite w_spool_job_cases, w_spool_job_try_cases, Hformat. simpl.
  pose proof (get_load_table_cases file_path w) as C. simpl in C.
  rewrite Hg in C. rewrite C. reflexivity.
Qed.

Lemma w_spool_job_unknown_table_witness :
  fst (w_spool_job (Sample.loader 1 false completed "")
         (ParsedLoadJobFileName.mk "ghost" "g0" 0 "jsonl") Sample.load_id
         (Sample.world []))
  = Return
      (Some (EmptyLoadJob_from_file_path
               (ParsedLoadJobFileName.mk "ghost" "g0" 0 "jsonl") failed
               "LoadJobUnknownTableException: ghost")).
Proof.
  exact
    (f_equal fst
       (w_spool_job_unknown_table (Sample.loader 1 false completed "")
          (ParsedLoadJobFileName.mk "ghost" "g0" 0 "jsonl") Sample.load_id
          (Sample.world []) eq_refl eq_refl)).
Defined.

(** ** [retrieve_jobs] *)

Lemma mapM_retrieve_job_called self files :
  forall w r w',
    mapM (retrieve_job self) files w = (r, w') ->
    (exists evs, w' = called evs w)
    /\ forall jobs, r = Return jobs -> jobs = map (restored self) files.
Proof.
  induction files as [|f files IH]; intros w r w' H; simpl in H.
  - injection H as <- <-. split.
    + exists []. symmetry. apply called_nil.
    + intros jobs E. injection E as <-. reflexivity.
  - unfold bind at 1 in H. rewrite retrieve_job_cases in H.
    destruct (restore_file_load (destination self) f) as [e|job] eqn:Er.
    + destruct (is_DestinationTerminalException e).
      * unfold bind in H.
        destruct (mapM (retrieve_job self) files _) as [[jobs'|e'|] w1]
          eqn:E; injection H as <- <-;
          destruct (IH _ _ _ E) as [(evs & ->) Hj];
          (split; [rewrite called_called; eauto|]);
          intros jobs Hr; try discriminate.
        injection Hr as <-. simpl. unfold restored at 1.
        rewrite Er, (Hj _ eq_refl). reflexivity.
      * injection H as <- <-. split; [eauto|]. intros; discriminate.
    + unfold bind in H.
      destruct (mapM (retrieve_job self) files _) as [[jobs'|e'|] w1]
        eqn:E; injection H as <- <-;
        destruct (IH _ _ _ E) as [(evs & ->) Hj];
        (split; [rewrite called_called; eauto|]);
        intros jobs Hr; try discriminate.
      injection Hr as <-. simpl. unfold restored at 1.
      rewrite Er, (Hj _ eq_refl). reflexivity.
Qed.

(** X6.  [retrieve_jobs] only asks: whether it answers or raises, the job
    folders, the schema and the clock are as before.  With nothing in
    [started_jobs] it answers no job and makes no call at all.  When it
    answers, the count is the number of jobs, one for each started file and
    in the order of the files: the restored job, or a failed
    [EmptyLoadJob] for the file. *)
Theorem retrieve_jobs_reads_only self load_id w r w' :
  retrieve_jobs self load_id w = (r, w') ->
  storage w' = storage w /\ tables w' = tables w /\ clock w' = clock w
  /\ (LoadStorage.list_started_jobs (storage w) = [] ->
      r = Return (0, []) /\ w' = w)
  /\ (forall jobs_count jobs,
        r = Return (jobs_count, jobs) ->
        jobs_count = List.length jobs
        /\ jobs = map (restored self)
                    (LoadStorage.list_started_jobs (storage w))).
Proof.
  unfold retrieve_jobs. unfold bind at 1. unfold get_storage.
  destruct (LoadStorage.list_started_jobs (storage w)) as [|f fs] eqn:E.
  - simpl. intros H. injection H as <- <-.
    split; [reflexivity|]. split; [reflexivity|]. split; [reflexivity|].
    split; [auto|].
    intros n jobs0 Hr. injection Hr as <- <-. auto.
  - change (Nat.eqb (List.length (f :: fs)) 0) with false. cbv iota.
    unfold bind at 1. intros H.
    destruct (mapM (retrieve_job self) (f :: fs) w) as [[jobs|e|] w1]
      eqn:Em;
      destruct (mapM_retrieve_job_called _ _ _ _ _ Em) as [(evs & ->) Hj].
    + unfold bind, act in H. simpl in H. injection H as <- <-. simpl.
      split; [reflexivity|]. split; [reflexivity|]. split; [reflexivity|].
      split; [discriminate|].
      intros n jobs0 Hr. injection Hr as <- <-.
      split; [reflexivity|]. apply Hj. reflexivity.
    + injection H as <- <-. simpl.
      split; [reflexivity|]. split; [reflexivity|]. split; [reflexivity|].
      split; [discriminate|]. intros; discriminate.
    + injection H as <- <-. simpl.
      split; [reflexivity|]. split; [reflexivity|]. split; [reflexivity|].
      split; [discriminate|]. intros; discriminate.
Qed.

Lemma retrieve_jobs_reads_only_witness :
  storage (snd (retrieve_jobs Sample.flaky_loader Sample.load_id
                  Sample.resumed_world))
  = storage Sample.resumed_world.
Proof.
  exact
    (proj1
       (retrieve_jobs_reads_only Sample.flaky_loader Sample.load_id
          Sample.resumed_world _ _ eq_refl)).
Defined.

(** ** A pass of [complete_jobs] over jobs that are no followup jobs *)

Lemma after_nil w : after [] w = w.
Proof. unfold after. simpl. rewrite app_nil_r. destruct w; reflexivity. Qed.

Lemma after_after evs1 evs2 w :
  after evs2 (after evs1 w) = after (evs1 ++ evs2) w.
Proof.
  unfold after. simpl. rewrite run_storage_app, app_assoc. reflexivity.
Qed.

Lemma complete_jobs_turn_running self load_id job w :
  LoadJob.state job (clock w) = running ->
  complete_jobs_turn self load_id job w = (Return [job], w).
Proof.
  intros Hstate. unfold complete_jobs_turn, bind, get_clock. simpl.
  rewrite Hstate. reflexivity.
Qed.

Lemma complete_jobs_turn_retry self load_id job w :
  LoadJob.state job (clock w) = retry ->
  complete_jobs_turn self load_id job w
  = (Return [], after [EvRetryJob (LoadJob.file_name job)] w).
Proof.
  intros Hstate. unfold complete_jobs_turn, bind, get_clock. simpl.
  rewrite Hstate. reflexivity.
Qed.

Lemma complete_jobs_turn_plain self load_id job w :
  raise_on_failed_jobs (config self) = false ->
  LoadJob.is_followup_job job = false ->
  complete_jobs_turn self load_id job w
  = (Return (if is_running (clock w) job then [job] else []),
     after (plain_turn_calls (clock w) job) w).
Proof.
  intros Hflag Hfollowup. unfold plain_turn_calls, is_running.
  destruct (LoadJob.state job (clock w)) eqn:Hstate; simpl.
  - rewrite complete_jobs_turn_running, after_nil by exact Hstate.
    reflexivity.
  - apply complete_jobs_turn_retry, Hstate.
  - rewrite (complete_jobs_turn_failed_logged _ _ _ _ Hflag Hstate).
    reflexivity.
  - rewrite (complete_jobs_turn_completed self load_id job w [] w Hstate).
    + reflexivity.
    + apply create_followup_jobs_skips. left. exact Hfollowup.
Qed.

(** X7.  With [raise_on_failed_jobs] off, a pass of [complete_jobs] over
    jobs none of which is a followup job never raises.  It answers the jobs
    that are still running, in their order, and makes, job after job, the
    calls of each turn: nothing for a running job, [retry_job] for a job to
    retry, [fail_job] or [complete_job] and then the three metric updates
    for a failed or a completed job. *)
Theorem complete_jobs_plain_pass self load_id jobs :
  raise_on_failed_jobs (config self) = false ->
  (forall job, In job jobs -> LoadJob.is_followup_job job = false) ->
  forall w,
    complete_jobs self load_id jobs w
    = (Return (filter (is_running (clock w)) jobs),
       after (flat_map (plain_turn_calls (clock w)) jobs) w).
Proof.
  intros Hflag. induction jobs as [|job jobs IH]; intros Hall w; simpl.
  - rewrite after_nil. reflexivity.
  - unfold bind at 1.
    rewrite (complete_jobs_turn_plain _ _ _ _ Hflag
               (Hall job (or_introl eq_refl))).
    unfold bind at 1. rewrite IH by (intros; apply Hall; right; assumption).
    simpl. rewrite after_after.
    destruct (is_running (clock w) job); reflexivity.
Qed.

Lemma complete_jobs_plain_pass_witness :
  complete_jobs (Sample.loader 4 false completed "") Sample.load_id
    [Sample.job_of running "" false Sample.items_file;
     Sample.job_of retry "busy" false Sample.items_file']
    Sample.resumed_world
  = (Return [Sample.job_of running "" false Sample.items_file],
     after [EvRetryJob Sample.items_file'] Sample.resumed_world).
Proof.
  exact
    (complete_jobs_plain_pass (Sample.loader 4 false completed "")
       Sample.load_id
       [Sample.job_of running "" false Sample.items_file;
        Sample.job_of retry "busy" false Sample.items_file']
       eq_refl
       ltac:(intros job [<-|[<-|[]]]; reflexivity)
       Sample.resumed_world).
Defined.

(** ** The poll loop ends *)

(** X8.  With [raise_on_failed_jobs] off and no followup job among the
    jobs, the poll loop ends without an exception as soon as no job is
    running any more: if no job answers [running] from pass [K] on, the loop
    that starts at pass [clock w] returns within [K - clock w + 1] passes. *)
Theorem poll_loop_terminates self load_id K :
  raise_on_failed_jobs (config self) = false ->
  forall fuel jobs w,
    (forall job, In job jobs ->
       LoadJob.is_followup_job job = false
       /\ forall n, K <= n -> LoadJob.state job n <> running) ->
    K - clock w < fuel ->
    exists w', poll_loop fuel self load_id jobs w = (Return tt, w').
Proof.
  intros Hflag. induction fuel as [|fuel IH]; intros jobs w Hall Hfuel;
    [lia|].
  simpl. unfold bind at 1. unfold try_except. unfold bind at 1.
  rewrite (complete_jobs_plain_pass _ _ _ Hflag)
    by (intros job Hj; apply (Hall job Hj)).
  destruct (filter (is_running (clock w)) jobs) as [|j rem] eqn:E.
  - eexists. reflexivity.
  - change (Nat.eqb (List.length (j :: rem)) 0) with false. cbv iota.
    unfold bind at 1. unfold sleep, act at 1. unfold ret at 1.
    cbv beta iota.
    assert (Hj : In j (filter (is_running (clock w)) jobs))
      by (rewrite E; left; reflexivity).
    apply filter_In in Hj as [Hj Hrun].
    assert (Hlt : clock w < K).
    { destruct (Nat.lt_ge_cases (clock w) K) as [Hlt|Hge]; [exact Hlt|].
      exfalso. apply (proj2 (Hall j Hj) (clock w) Hge).
      unfold is_running in Hrun.
      destruct (LoadJob.state j (clock w)); try discriminate. reflexivity. }
    apply IH.
    + intros job Hin. apply Hall.
      assert (Hin' : In job (filter (is_running (clock w)) jobs))
        by (rewrite E; exact Hin).
      apply filter_In in Hin'. apply Hin'.
    + simpl. lia.
Qed.

Lemma poll_loop_terminates_witness :
  exists w',
    poll_loop 1 (Sample.loader 4 false completed "") Sample.load_id
      [Sample.job_of completed "" false Sample.items_file;
       Sample.job_of failed "bad row" false Sample.items_file']
      Sample.resumed_world
    = (Return tt, w').
Proof.
  apply (poll_loop_terminates (Sample.loader 4 false completed "")
           Sample.load_id 0 eq_refl 1).
  - intros job [<-|[<-|[]]]; (split; [reflexivity|]);
      intros n _; discriminate.
  - simpl. lia.
Defined.

(** ** The poll loop drains [started_jobs] *)

Lemma move_from_started target file_name st x :
  TJobState_eqb (LoadJobInfo.state target) started_jobs = false ->
  In x (LoadStorage.list_started_jobs
          (LoadStorage.move started_jobs target file_name st)) ->
  In x (LoadStorage.list_started_jobs st) /\ x <> file_name.
Proof.
  intros Htarget.
  unfold LoadStorage.list_started_jobs, LoadStorage.list_folder,
    LoadStorage.move.
  simpl. intros H. apply in_map_iff in H as (i' & Hi' & Hin').
  apply filter_In in Hin' as [Hin' Hst'].
  apply in_map_iff in Hin' as (i0 & Hi0 & Hin0).
  destruct (LoadStorage.in_folder started_jobs i0
            && ParsedLoadJobFileName.eqb (LoadJobInfo.job_file_info i0)
                 file_name) eqn:E.
  - subst i'. unfold LoadStorage.in_folder in Hst'. congruence.
  - subst i'. rewrite Hst' in E. simpl in E. split.
    + apply in_map_iff. exists i0. split; [exact Hi'|].
      apply filter_In. auto.
    + intros ->. rewrite Hi', ParsedLoadJobFileName_eqb_refl in E.
      discriminate.
Qed.

Lemma complete_jobs_turn_started self load_id job w queued wa :
  LoadJob.is_followup_job job = false ->
  complete_jobs_turn self load_id job w = (Return queued, wa) ->
  clock wa = clock w
  /\ queued = (if is_running (clock w) job then [job] else [])
  /\ forall x,
      In x (LoadStorage.list_started_jobs (storage wa)) ->
      In x (LoadStorage.list_started_jobs (storage w))
      /\ (is_running (clock w) job = true \/ x <> LoadJob.file_name job).
Proof.
  intros Hfollowup H. unfold is_running.
  destruct (LoadJob.state job (clock w)) eqn:Hstate; simpl.
  - rewrite (complete_jobs_turn_running _ _ _ _ Hstate) in H.
    injection H as <- <-. auto.
  - rewrite (complete_jobs_turn_retry _ _ _ _ Hstate) in H.
    injection H as <- <-. repeat split; try reflexivity.
    + eapply move_from_started; [|exact H]. reflexivity.
    + right. eapply move_from_started; [|exact H]. reflexivity.
  - destruct (raise_on_failed_jobs (config self)) eqn:Hflag.
    + rewrite (complete_jobs_turn_failed_raises _ _ _ _ Hflag Hstate) in H.
      discriminate.
    + rewrite (complete_jobs_turn_failed_logged _ _ _ _ Hflag Hstate) in H.
      injection H as <- <-. repeat split; try reflexivity.
      * eapply move_from_started; [|exact H]. reflexivity.
      * right. eapply move_from_started; [|exact H]. reflexivity.
  - rewrite (complete_jobs_turn_completed self load_id job w [] w Hstate)
      in H by (apply create_followup_jobs_skips; left; exact Hfollowup).
    injection H as <- <-. repeat split; try reflexivity.
    + eapply move_from_started; [|exact H]. reflexivity.
    + right. eapply move_from_started; [|exact H]. reflexivity.
Qed.

Lemma complete_jobs_started self load_id jobs :
  (forall job, In job jobs -> LoadJob.is_followup_job job = false) ->
  forall w remaining w1,
    complete_jobs self load_id jobs w = (Return remaining, w1) ->
    clock w1 = clock w
    /\ remaining = filter (is_running (clock w)) jobs
    /\ forall x,
        In x (LoadStorage.list_started_jobs (storage w1)) ->
        In x (LoadStorage.list_started_jobs (storage w))
        /\ (In x (map LoadJob.file_name remaining)
            \/ ~ In x (map LoadJob.file_name jobs)).
Proof.
  induction jobs as [|job jobs IH]; intros Hall w remaining w1 H;
    simpl in H.
  - injection H as <- <-. repeat split; auto.
  - unfold bind at 1 in H.
    destruct (complete_jobs_turn self load_id job w) as [[q|e|] wa] eqn:Et;
      try discriminate.
    unfold bind at 1 in H.
    destruct (complete_jobs self load_id jobs wa) as [[rem|e|] wb] eqn:Er;
      try discriminate.
    injection H as <- <-.
    destruct (complete_jobs_turn_started _ _ _ _ _ _
                (Hall job (or_introl eq_refl)) Et) as (Hc & Hq & Hs).
    destruct (IH (fun j Hj => Hall j (or_intror Hj)) _ _ _ Er)
      as (Hc' & Hrem & Hs').
    split; [congruence|]. split.
    + simpl. rewrite Hq, Hrem, Hc.
      destruct (is_running (clock w) job); reflexivity.
    + intros x Hx. destruct (Hs' x Hx) as [Hxa Hcov].
      destruct (Hs x Hxa) as [Hxw Hjob]. split; [exact Hxw|].
      rewrite map_app. destruct Hcov as [Hin|Hnin].
      * left. apply in_or_app. right. exact Hin.
      * destruct Hjob as [Hrun|Hne].
        -- destruct (ParsedLoadJobFileName.eqb x (LoadJob.file_name job))
             eqn:Ex.
           ++ apply ParsedLoadJobFileName_eqb_eq in Ex. subst x.
              left. apply in_or_app. left. rewrite Hq, Hrun.
              left. reflexivity.
           ++ right. simpl. intros [Heq|Hin]; [|exact (Hnin Hin)].
              subst x. rewrite ParsedLoadJobFileName_eqb_refl in Ex.
              discriminate.
        -- right. simpl. intros [Heq|Hin]; [|exact (Hnin Hin)].
           apply Hne. symmetry. exact Heq.
Qed.

(** X9.  When the poll loop returns, [started_jobs] is empty, provided that
    no job is a followup job and that every file in [started_jobs] is the
    file of one of the jobs the loop starts with. *)
Theorem poll_loop_drains_started_jobs self load_id fuel :
  forall jobs w w',
    (forall job, In job jobs -> LoadJob.is_followup_job job = false) ->
    incl (LoadStorage.list_started_jobs (storage w))
      (map LoadJob.file_name jobs) ->
    poll_loop fuel self load_id jobs w = (Return tt, w') ->
    LoadStorage.list_started_jobs (storage w') = [].
Proof.
  induction fuel as [|fuel IH]; intros jobs w w' Hall Hincl H; simpl in H;
    [discriminate|].
  unfold bind at 1 in H. unfold try_except in H. unfold bind at 1 in H.
  destruct (complete_jobs self load_id jobs w) as [[remaining|e|] w1] eqn:E.
  - destruct (complete_jobs_started _ _ _ Hall _ _ _ E) as (Hc & Hrem & Hs).
    assert (Hcov : incl (LoadStorage.list_started_jobs (storage w1))
                     (map LoadJob.file_name remaining)).
    { intros x Hx. destruct (Hs x Hx) as [Hxw [Hin|Hnin]]; [exact Hin|].
      exfalso. apply Hnin, Hincl, Hxw. }
    destruct remaining as [|j rem].
    + simpl in H. injection H as <-.
      destruct (LoadStorage.list_started_jobs (storage w1)) as [|x l];
        [reflexivity|].
      destruct (Hcov x (or_introl eq_refl)).
    + change (Nat.eqb (List.length (j :: rem)) 0) with false in H.
      cbv iota in H. simpl in H.
      eapply IH; [| |exact H].
      * intros job Hj. apply Hall.
        assert (Hj' : In job (filter (is_running (clock w)) jobs))
          by (rewrite <- Hrem; exact Hj).
        apply filter_In in Hj'. apply Hj'.
      * exact Hcov.
  - destruct (is_LoadClientJobFailed e).
    + unfold bind in H. rewrite complete_package_aborted in H.
      simpl in H. discriminate.
    + simpl in H. discriminate.
  - discriminate.
Qed.

Lemma poll_loop_drains_started_jobs_witness :
  LoadStorage.list_started_jobs
    (storage
       (snd (poll_loop 1 (Sample.loader 4 false completed "")
               Sample.load_id
               [Sample.job_of completed "" false Sample.items_file;
                Sample.job_of failed "bad row" false Sample.items_file']
               Sample.resumed_world)))
  = [].
Proof.
  apply (poll_loop_drains_started_jobs
           (Sample.loader 4 false completed "") Sample.load_id 1
           [Sample.job_of completed "" false Sample.items_file;
            Sample.job_of failed "bad row" false Sample.items_file']
           Sample.resumed_world).
  - intros job [<-|[<-|[]]]; reflexivity.
  - intros x [<-|[<-|[]]]; simpl; auto.
  - vm_compute. reflexivity.
Defined.

(** ** The schema synchronisation *)

Lemma get_jobs_info_Some_storage d w r w' :
  get_jobs_info (Some d) w = (r, w') ->
  storage w' = storage w /\ trace w' = trace w /\ clock w' = clock w.
Proof.
  intros H. apply (frame_get_jobs_info no_event) in H.
  apply changes_no_event_storage, H.
Qed.

Lemma update_schema_cases self load_id w :
  update_schema self load_id w
  = match LoadStorage.schema_update (storage w) with
    | None => (Return tt, w)
    | Some expected_update =>
        match
          get_jobs_info (Some "merge")
            (called [EvInitializeStorage false [];
                     EvUpdateStorageSchema false (package_tables_of w)] w)
        with
        | (Return merge_jobs, w3) =>
            (Return tt,
             snd (act
                    (EvCommitSchemaUpdate
                       (update_storage_schema (destination self) false
                          (package_tables_of w) expected_update))
                    (called
                       (staging_calls
                          (map ParsedLoadJobFileName.table_name merge_jobs)
                          (map TTableSchema.name (dlt_tables (tables w))))
                       w3)))
        | (Raise e, w3) => (Raise e, w3)
        | (Diverge, w3) => (Diverge, w3)
        end
    end.
Proof.
  unfold update_schema. unfold bind at 1. unfold get_storage.
  destruct (LoadStorage.schema_update (storage w)) as [u|]; [|reflexivity].
  unfold bind at 1. unfold act at 1.
  unfold bind at 1. unfold get_jobs_info at 1.
  unfold bind at 1. unfold get_storage at 1.
  rewrite get_jobs_info_loop_None.
  unfold bind at 1. unfold get_tables at 1.
  unfold bind at 1. unfold act at 1.
  unfold bind at 1. unfold package_tables_of, called. simpl.
  rewrite <- app_assoc. simpl.
  destruct (get_jobs_info (Some "merge") _) as [[merge_jobs|e|] w3];
    try reflexivity.
  destruct merge_jobs as [|j js]; unfold bind, act, ret; simpl.
  - rewrite app_nil_r. destruct w3; reflexivity.
  - rewrite <- !app_assoc. reflexivity.
Qed.

(** X10.  The schema synchronisation is done once.  Without a staged schema
    update [update_schema] does nothing.  When it returns, the staged update
    has been committed and is gone, the job folders are as before, and a
    second [update_schema] does nothing.  When it raises, the storage is as
    before: the update is still staged for the next run. *)
Theorem update_schema_commits_once self load_id w :
  (LoadStorage.schema_update (storage w) = None ->
   update_schema self load_id w = (Return tt, w))
  /\ (forall w',
        update_schema self load_id w = (Return tt, w') ->
        LoadStorage.schema_update (storage w') = None
        /\ LoadStorage.jobs (storage w') = LoadStorage.jobs (storage w)
        /\ update_schema self load_id w' = (Return tt, w'))
  /\ (forall e w',
        update_schema self load_id w = (Raise e, w') ->
        storage w' = storage w).
Proof.
  split; [|split].
  - intros Hnone. rewrite update_schema_cases, Hnone. reflexivity.
  - intros w' H.
    assert (G : LoadStorage.schema_update (storage w') = None
                /\ LoadStorage.jobs (storage w')
                   = LoadStorage.jobs (storage w)).
    { rewrite update_schema_cases in H.
      destruct (LoadStorage.schema_update (storage w)) as [u|] eqn:Hu.
      - destruct (get_jobs_info (Some "merge") _) as [[merge_jobs|e|] w3]
          eqn:E; try discriminate.
        apply get_jobs_info_Some_storage in E as (Hs & _ & _).
        injection H as <-. simpl. rewrite Hs. auto.
      - injection H as <-. auto. }
    destruct G as [Hnone Hjobs]. repeat split; try assumption.
    rewrite update_schema_cases, Hnone. reflexivity.
  - intros e w' H. rewrite update_schema_cases in H.
    destruct (LoadStorage.schema_update (storage w)) as [u|];
      [|discriminate].
    destruct (get_jobs_info (Some "merge") _) as [[merge_jobs|e'|] w3]
      eqn:E; try discriminate.
    apply get_jobs_info_Some_storage in E as (Hs & _ & _).
    injection H as _ <-. exact Hs.
Qed.

Lemma update_schema_commits_once_witness :
  LoadStorage.schema_update
    (storage
       (snd (update_schema (Sample.loader 4 false completed "")
               Sample.load_id Sample.staged_world)))
  = None.
Proof.
  exact
    (proj1
       (proj1 (proj2
          (update_schema_commits_once (Sample.loader 4 false completed "")
             Sample.load_id Sample.staged_world))
          _ eq_refl)).
Defined.

(** X11.  The calls of a schema synchronisation that returns, in order:
    [initialize_storage], [update_storage_schema] for the tables of the
    files in [new_jobs] and the tables of the framework, then, only if some
    file in [new_jobs] has a table that resolves to [merge], the
    initialisation, the update and the truncation of the staging dataset for
    these tables, and last [commit_schema_update] with what the destination
    applied. *)
Theorem update_schema_calls self load_id w expected_update w' :
  LoadStorage.schema_update (storage w) = Some expected_update ->
  update_schema self load_id w = (Return tt, w') ->
  trace w'
  = trace w
    ++ [EvInitializeStorage false [];
        EvUpdateStorageSchema false (package_tables_of w)]
    ++ staging_calls (merge_tables_of w)
         (map TTableSchema.name (dlt_tables (tables w)))
    ++ [EvCommitSchemaUpdate
          (update_storage_schema (destination self) false
             (package_tables_of w) expected_update)].
Proof.
  intros Hu H. rewrite update_schema_cases, Hu in H.
  destruct (get_jobs_info (Some "merge") _) as [[merge_jobs|e|] w3] eqn:E;
    try discriminate.
  pose proof (get_jobs_info_Some_storage _ _ _ _ E) as (_ & Ht & _).
  assert (Hm : merge_jobs
               = filter (resolves_to (tables w) "merge")
                   (LoadStorage.list_new_jobs (storage w))).
  { unfold get_jobs_info, bind, get_storage in E. simpl in E.
    eapply (get_jobs_info_loop_filter "merge" (tables w));
      [discriminate| |exact E].
    apply filled_refl. }
  injection H as <-. simpl. rewrite Ht. simpl.
  unfold merge_tables_of. rewrite <- Hm, <- !app_assoc. reflexivity.
Qed.

Lemma update_schema_calls_witness :
  trace
    (snd (update_schema (Sample.loader 4 false completed "")
            Sample.load_id Sample.staged_world))
  = [EvInitializeStorage false [];
     EvUpdateStorageSchema false ["orders__items"];
     EvInitializeStorage true [];
     EvUpdateStorageSchema true ["orders__items"];
     EvInitializeStorage true ["orders__items"];
     EvCommitSchemaUpdate ["orders__items"]].
Proof.
  exact
    (update_schema_calls (Sample.loader 4 false completed "")
       Sample.load_id Sample.staged_world ["orders__items"] _
       eq_refl eq_refl).
Defined.

(** ** A run on a drained package *)

Lemma update_schema_jobs self load_id w r w0 :
  update_schema self load_id w = (r, w0) ->
  LoadStorage.jobs (storage w0) = LoadStorage.jobs (storage w).
Proof.
  intros H. apply frame_update_schema in H.
  destruct H as [(evs & Hp & _ & Hs & _) _]. rewrite Hs.
  apply run_storage_jobs. rewrite forallb_forall in *.
  intros e He. specialize (Hp e He). destruct e; try discriminate;
    reflexivity.
Qed.

(** X12.  On a package with nothing in [new_jobs] and nothing in
    [started_jobs], [load_single_package] restores and spools nothing and
    polls nothing: once the schema is synchronised it commits the load at
    the destination, archives the package with [aborted=false] and counts
    the package. *)
Theorem load_single_package_archives_drained_package
    fuel self load_id w w0 :
  update_schema self load_id w = (Return tt, w0) ->
  LoadStorage.list_new_jobs (storage w) = [] ->
  LoadStorage.list_started_jobs (storage w) = [] ->
  load_single_package fuel self load_id w
  = (Return tt,
     mkWorld (archived_as false (storage w0)) (tables w0) (clock w0)
       (trace w0
        ++ [EvCompleteLoad load_id; EvCompleteLoadPackage load_id false;
            EvLoadCounterInc])).
Proof.
  intros Hsync Hnew Hstarted.
  pose proof (update_schema_jobs _ _ _ _ _ Hsync) as Hjobs.
  assert (Hnew0 : LoadStorage.list_new_jobs (storage w0) = []).
  { unfold LoadStorage.list_new_jobs, LoadStorage.list_folder in *.
    rewrite Hjobs. exact Hnew. }
  assert (Hstarted0 : LoadStorage.list_started_jobs (storage w0) = []).
  { unfold LoadStorage.list_started_jobs, LoadStorage.list_folder in *.
    rewrite Hjobs. exact Hstarted. }
  rewrite load_single_package_unfold. unfold jobs_found.
  unfold bind at 1. rewrite Hsync.
  assert (E : retrieve_or_spool self load_id w0 = (Return (0, []), w0)).
  { unfold retrieve_or_spool, retrieve_jobs, spool_new_jobs.
    unfold bind, get_storage. rewrite Hstarted0. simpl.
    rewrite Hnew0. rewrite firstn_nil. reflexivity. }
  rewrite E. simpl.
  unfold complete_package, bind, act, get_storage. simpl.
  unfold LoadStorage.complete_load_package, LoadStorage.archivable.
  simpl. rewrite Hnew0, Hstarted0. simpl.
  rewrite <- !app_assoc. reflexivity.
Qed.

Lemma load_single_package_archives_drained_package_witness :
  LoadStorage.archived
    (storage
       (snd (load_single_package 0 (Sample.loader 4 false completed "")
               Sample.load_id Sample.drained_world)))
  = Some false.
Proof.
  exact
    (f_equal (fun r => LoadStorage.archived (storage (snd r)))
       (load_single_package_archives_drained_package 0
          (Sample.loader 4 false completed "") Sample.load_id
          Sample.drained_world Sample.drained_world
          eq_refl eq_refl eq_refl)).
Defined.

(** ** The turn of a job to retry *)

Lemma retry_job_moves file_name st :
  In file_name (LoadStorage.list_started_jobs st) ->
  In (ParsedLoadJobFileName.with_retry file_name)
    (LoadStorage.list_new_jobs (LoadStorage.retry_job file_name st))
  /\ ~ In file_name
         (LoadStorage.list_started_jobs
            (LoadStorage.retry_job file_name st)).
Proof.
  intros H. split.
  - unfold LoadStorage.list_started_jobs, LoadStorage.list_new_jobs,
      LoadStorage.list_folder, LoadStorage.retry_job, LoadStorage.move in *.
    simpl. apply in_map_iff in H as (i & Hi & Hin).
    apply filter_In in Hin as [Hin Hst].
    apply in_map_iff.
    exists (LoadJobInfo.mk new_jobs
              (ParsedLoadJobFileName.with_retry file_name) None).
    split; [reflexivity|]. apply filter_In. split; [|reflexivity].
    apply in_map_iff. exists i. split; [|exact Hin].
    rewrite Hst, Hi, ParsedLoadJobFileName_eqb_refl. reflexivity.
  - intros Hin. unfold LoadStorage.retry_job in Hin.
    apply move_from_started in Hin; [|reflexivity].
    destruct Hin as [_ Hne]. apply Hne. reflexivity.
Qed.

(** X13.  A job whose state is [retry] is dropped from the pass without a
    metric update; the only call is [retry_job], which takes the started
    file back to [new_jobs] under the next retry count and the same job
    id. *)
Theorem retried_job_returns_to_new_jobs self load_id job w :
  LoadJob.state job (clock w) = retry ->
  In (LoadJob.file_name job) (LoadStorage.list_started_jobs (storage w)) ->
  complete_jobs_turn self load_id job w
  = (Return [], after [EvRetryJob (LoadJob.file_name job)] w)
  /\ In (ParsedLoadJobFileName.with_retry (LoadJob.file_name job))
       (LoadStorage.list_new_jobs
          (storage (after [EvRetryJob (LoadJob.file_name job)] w)))
  /\ ~ In (LoadJob.file_name job)
         (LoadStorage.list_started_jobs
            (storage (after [EvRetryJob (LoadJob.file_name job)] w)))
  /\ ParsedLoadJobFileName.job_id
       (ParsedLoadJobFileName.with_retry (LoadJob.file_name job))
     = LoadJob.job_id job.
Proof.
  intros Hstate Hin. split; [apply complete_jobs_turn_retry, Hstate|].
  simpl. destruct (retry_job_moves _ _ Hin) as [H1 H2].
  repeat split; assumption.
Qed.

Lemma retried_job_returns_to_new_jobs_witness :
  LoadStorage.list_new_jobs
    (storage
       (snd (complete_jobs_turn (Sample.loader 4 false retry "busy")
               Sample.load_id
               (Sample.job_of retry "busy" false Sample.items_file)
               Sample.started_items_world)))
  = [ParsedLoadJobFileName.mk "items" "c3" 1 "jsonl"].
Proof.
  pose proof
    (proj1
       (retried_job_returns_to_new_jobs
          (Sample.loader 4 false retry "busy") Sample.load_id
          (Sample.job_of retry "busy" false Sample.items_file)
          Sample.started_items_world eq_refl (or_introl eq_refl))) as H.
  exact (f_equal (fun r => LoadStorage.list_new_jobs (storage (snd r))) H).
Defined.

(** ** The followup planner, once the chain is drained *)

Lemma merge_table_chain_drained st job child_tables :
  (forall tb info,
      In tb child_tables ->
      In info (LoadStorage.list_jobs_for_table (TTableSchema.name tb) st) ->
      blocks_merge job info = false) ->
  merge_table_chain st job child_tables
  = Some
      (filter
         (fun tb =>
            match LoadStorage.list_jobs_for_table (TTableSchema.name tb) st
            with
            | [] => false
            | _ => true
            end)
         child_tables).
Proof.
  induction child_tables as [|tb rest IH]; intros Hall; simpl;
    [reflexivity|].
  rewrite IH by (intros; eapply Hall; [right|]; eassumption).
  destruct (LoadStorage.list_jobs_for_table (TTableSchema.name tb) st)
    as [|i is_] eqn:Hj; [reflexivity|].
  assert (Hex : existsb (blocks_merge job) (i :: is_) = false).
  { apply not_true_is_false. intros Hex.
    apply existsb_exists in Hex as (info & Hin & Hb).
    rewrite (Hall tb info (or_introl eq_refl)) in Hb; [discriminate|].
    rewrite Hj. exact Hin. }
  simpl in Hex. rewrite Hex. reflexivity.
Qed.

(** X14.  The merge job is created as soon as the chain is drained.  For a
    followup job that completes, whose file is in [started_jobs] and whose
    top-level table has write disposition [merge]: if every job of every
    child table of the top-level table is in a terminal folder or has the
    job id of the completing job, [create_followup_jobs] asks the
    destination once for the merge job of the child tables that have jobs,
    in the order of the child tables, and answers that job alone. *)
Theorem merge_followup_created_when_drained
    self load_id job w table w1 top child_tables :
  LoadJob.is_followup_job job = true ->
  In (LoadJob.file_name job) (LoadStorage.list_started_jobs (storage w)) ->
  get_load_table (LoadJob.file_name job) w = (Return table, w1) ->
  get_top_level_table (tables w1) (TTableSchema.name table) = inr top ->
  TTableSchema.write_disposition top = Some "merge" ->
  get_child_tables (tables w1) (TTableSchema.name top) = inr child_tables ->
  (forall tb info,
      In tb child_tables ->
      In info (LoadStorage.list_jobs_for_table (TTableSchema.name tb)
                 (storage w)) ->
      is_terminal_folder (LoadJobInfo.state info) = true
      \/ ParsedLoadJobFileName.job_id (LoadJobInfo.job_file_info info)
         = LoadJob.job_id job) ->
  create_followup_jobs self load_id completed job w
  = (Return
       [client_create_merge_job (destination self)
          (filter
             (fun tb =>
                match LoadStorage.list_jobs_for_table
                        (TTableSchema.name tb) (storage w) with
                | [] => false
                | _ => true
                end)
             child_tables)],
     called
       [EvCreateMergeJob
          (filter
             (fun tb =>
                match LoadStorage.list_jobs_for_table
                        (TTableSchema.name tb) (storage w) with
                | [] => false
                | _ => true
                end)
             child_tables)]
       w1).
Proof.
  intros Hfollowup Hstarted Hload Htop Hwd Hchain Hall.
  pose proof (get_load_table_storage _ _ _ _ Hload) as Hst.
  pose proof (get_load_table_name _ _ _ _ Hload) as Hname.
  rewrite <- Hst in Hall, Hstarted |- *.
  rewrite (create_followup_jobs_cases _ _ _ _ Hfollowup), Hload, Htop, Hwd.
  simpl. rewrite create_merge_job_cases, Hchain.
  rewrite merge_table_chain_drained
    by (intros tb info Hin Hinfo; apply blocks_merge_false; eauto).
  match goal with
  | |- context [filter ?f child_tables] =>
      set (chain := filter f child_tables)
  end.
  assert (Hne : chain <> []).
  { assert (Hx : exists x,
               get_table (tables w1) (TTableSchema.name table) = Some x).
    { unfold get_top_level_table in Htop. simpl in Htop.
      destruct (get_table (tables w1) (TTableSchema.name table)) as [x|];
        [eauto|discriminate]. }
    destruct Hx as [x Hx].
    assert (Hin : In x chain).
    { apply filter_In. split.
      - pose proof (get_top_level_table_rec_stored _ _ _ _ Htop) as Hs.
        unfold get_child_tables in Hchain. rewrite Hs in Hchain.
        eapply get_top_level_table_rec_chain; eauto.
      - rewrite (get_table_name _ _ _ Hx), Hname.
        pose proof (started_job_has_table_jobs _ _ Hstarted) as Hj.
        destruct (LoadStorage.list_jobs_for_table _ (storage w1));
          [congruence|reflexivity]. }
    intros E. rewrite E in Hin. contradiction. }
  destruct chain as [|t chain']; [congruence|]. reflexivity.
Qed.

Lemma merge_followup_created_when_drained_witness :
  fst (create_followup_jobs (Sample.loader 4 false completed "")
         Sample.load_id completed
         (Sample.job_of completed "" true Sample.orders_file)
         Sample.merge_ready_world)
  = Return
      [client_create_merge_job
         (destination (Sample.loader 4 false completed ""))
         [Sample.orders; Sample.orders__items]].
Proof.
  refine
    (f_equal fst
       (merge_followup_created_when_drained
          (Sample.loader 4 false completed "") Sample.load_id
          (Sample.job_of completed "" true Sample.orders_file)
          Sample.merge_ready_world Sample.orders Sample.merge_ready_world
          Sample.orders [Sample.orders; Sample.orders__items]
          eq_refl (or_introl eq_refl) eq_refl eq_refl eq_refl
          eq_refl _)).
  intros tb info [<-|[<-|[]]] [<-|[]]; simpl; auto.
Defined.

(** X15.  The planner reads the storage and never writes it: whatever
    [create_followup_jobs] answers, the storage and the clock are as before,
    its only call is [create_merge_job] of the destination, and it answers
    at most one job.  For a job that is no followup job, or in a state other
    than [completed], it answers no job and changes nothing. *)
Theorem create_followup_jobs_reads_only self load_id state job w r w' :
  create_followup_jobs self load_id state job w = (r, w') ->
  storage w' = storage w /\ clock w' = clock w
  /\ (exists evs,
        trace w' = trace w ++ evs
        /\ forallb is_create_merge_job evs = true)
  /\ (forall followup_jobs,
        r = Return followup_jobs -> List.length followup_jobs <= 1)
  /\ (LoadJob.is_followup_job job = false \/ state <> completed ->
      r = Return [] /\ w' = w).
Proof.
  intros H.
  pose proof (create_followup_jobs_clock _ _ _ _ _ _ _ H) as Hclock.
  pose proof (frame_create_followup_jobs _ _ _ _ _ _ _ H) as C.
  destruct C as [(evs & Hp & Ht & Hs & _) _].
  split.
  { rewrite Hs. clear - Hp. revert Hp. generalize (storage w).
    induction evs as [|e evs IH]; intros st Hp; simpl in *; [reflexivity|].
    apply andb_true_iff in Hp as [He Hevs].
    unfold run_storage in IH. rewrite IH by exact Hevs.
    destruct e; try discriminate. reflexivity. }
  split; [exact Hclock|]. split; [eauto|]. split.
  - intros followup_jobs ->.
    destruct (LoadJob.is_followup_job job) eqn:Hfollowup;
      [|rewrite create_followup_jobs_skips in H by auto;
        injection H as <- _; simpl; lia].
    destruct state;
      try (rewrite create_followup_jobs_skips in H
             by (right; discriminate);
           injection H as <- _; simpl; lia).
    rewrite (create_followup_jobs_cases _ _ _ _ Hfollowup) in H.
    destruct (get_load_table _ w) as [[table|e|] w1]; try discriminate.
    destruct (get_top_level_table _ _) as [e|top]; [discriminate|].
    destruct (TTableSchema.write_disposition top) as [wd|];
      [|discriminate].
    destruct (String.eqb wd "merge");
      [|injection H as <- _; simpl; lia].
    destruct (create_merge_job self load_id top job w1)
      as [[[j|]|e|] w2]; try discriminate;
      injection H as <- _; simpl; lia.
  - intros Hskip. rewrite create_followup_jobs_skips in H by exact Hskip.
    injection H as <- <-. auto.
Qed.

Lemma create_followup_jobs_reads_only_witness :
  storage
    (snd (create_followup_jobs (Sample.loader 4 false completed "")
            Sample.load_id completed
            (Sample.job_of completed "" true Sample.orders_file)
            Sample.merge_ready_world))
  = storage Sample.merge_ready_world.
Proof.
  exact
    (proj1
       (create_followup_jobs_reads_only
          (Sample.loader 4 false completed "") Sample.load_id completed
          (Sample.job_of completed "" true Sample.orders_file)
          Sample.merge_ready_world _ _ eq_refl)).
Defined.

(** ** A run in which no file could be spooled *)

Lemma w_spool_job_None_storage self file_path load_id w w' :
  w_spool_job self file_path load_id w = (Return None, w') ->
  storage w' = storage w.
Proof.
  intros H. rewrite w_spool_job_cases in H.
  destruct (w_spool_job_try self file_path w) as [[job|e|] w1] eqn:E;
    try discriminate.
  destruct (is_terminal_failure e); [discriminate|].
  injection H as <-. eapply w_spool_job_try_storage, E.
Qed.

Lemma mapM_w_spool_job_None_storage self load_id files :
  forall w jobs w',
    mapM (fun file => w_spool_job self file load_id) files w
    = (Return jobs, w') ->
    remove_None jobs = [] ->
    storage w' = storage w.
Proof.
  induction files as [|f files IH]; intros w jobs w' H Hnone; simpl in H.
  - injection H as _ <-. reflexivity.
  - unfold bind at 1 in H.
    destruct (w_spool_job self f load_id w) as [[job|e|] w1] eqn:E1;
      try discriminate.
    unfold bind at 1 in H.
    destruct (mapM _ files w1) as [[jobs'|e|] w2] eqn:E2; try discriminate.
    injection H as <- <-. destruct job as [job|]; [discriminate|].
    simpl in Hnone. rewrite (IH _ _ _ E2 Hnone).
    eapply w_spool_job_None_storage, E1.
Qed.

(** X16.  When files were taken from [new_jobs] but no job could be
    created, every spool having failed in a way that is not terminal, the run
    resets the job gauge, enters the poll loop with no job and leaves it
    after one pass: it returns without an exception, the storage is as it
    was after the schema synchronisation, and the package is not archived,
    so the files wait in [new_jobs] for the next run. *)
Theorem load_single_package_nothing_spooled
    fuel self load_id w w0 file_count w1 :
  update_schema self load_id w = (Return tt, w0) ->
  LoadStorage.list_started_jobs (storage w0) = [] ->
  spool_new_jobs self load_id w0 = (Return (file_count, []), w1) ->
  file_count <> 0 ->
  load_single_package (S fuel) self load_id w
  = (Return tt,
     called [EvGaugeSetAll 0; EvGaugeInc "running" 0;
             EvCounterInc "running" 0] w1)
  /\ storage w1 = storage w0.
Proof.
  intros Hsync Hstarted Hspool Hcount. split.
  - rewrite load_single_package_unfold. unfold jobs_found.
    unfold bind at 1. rewrite Hsync.
    assert (E : retrieve_or_spool self load_id w0
                = (Return (file_count, []),
                   called [EvGaugeSetAll 0; EvGaugeInc "running" 0;
                           EvCounterInc "running" 0] w1)).
    { unfold retrieve_or_spool, retrieve_jobs.
      unfold bind at 1. unfold bind at 1. unfold get_storage.
      rewrite Hstarted. simpl. unfold bind at 1. rewrite Hspool. simpl.
      destruct file_count as [|n]; [congruence|].
      unfold bind, act, called. simpl. rewrite <- !app_assoc.
      reflexivity. }
    rewrite E. apply Nat.eqb_neq in Hcount. rewrite Hcount.
    simpl. unfold bind, try_except, ret. simpl. reflexivity.
  - unfold spool_new_jobs in Hspool. unfold bind at 1 in Hspool.
    unfold get_storage in Hspool.
    destruct (Nat.eqb _ 0).
    + injection Hspool as _ <-. reflexivity.
    + unfold bind at 1 in Hspool.
      destruct (mapM _ _ w0) as [[jobs|e|] w2] eqn:Em; try discriminate.
      injection Hspool as _ Hnone <-.
      eapply mapM_w_spool_job_None_storage; eauto.
Qed.

Lemma load_single_package_nothing_spooled_witness :
  fst (load_single_package 1 Sample.unreachable_loader Sample.load_id
         Sample.two_items_world)
  = Return tt
  /\ storage
       (snd (load_single_package 1 Sample.unreachable_loader
               Sample.load_id Sample.two_items_world))
     = storage Sample.two_items_world.
Proof.
  pose (w1 := snd (spool_new_jobs Sample.unreachable_loader Sample.load_id
                     Sample.two_items_world)).
  assert (E : spool_new_jobs Sample.unreachable_loader Sample.load_id
                Sample.two_items_world
              = (Return (2, []), w1))
    by (vm_compute; reflexivity).
  pose proof
    (load_single_package_nothing_spooled 0 Sample.unreachable_loader
       Sample.load_id Sample.two_items_world Sample.two_items_world 2
       w1 eq_refl eq_refl E ltac:(discriminate)) as [H Hs].
  rewrite H. split; [reflexivity|]. exact Hs.
Defined.

(** * C10: the assertion of [create_merge_job] over a whole run *)

(** ** Job files of a table do not leave the package *)








(** ** Where no [AssertionError] can come from *)





Lemma no_assertion_get_tables : no_assertion get_tables.
Proof. intros w. discriminate. Qed.


(** A handler that answers whatever was raised. *)
Lemma no_assertion_try_except {A} (c : M A) (h : exn -> M A) :
  (forall e, no_assertion (h e)) -> no_assertion (try_except c h).
Proof.
  intros Hh w. unfold try_except.
  destruct (c w) as [[a|e|] w1]; simpl; [discriminate|apply Hh|discriminate].
Qed.








(** ** The planner *)




(** ** A pass of the poll loop *)





(** ** The jobs handed to the poll loop *)











(** ** The whole run *)




